(** * LLM Schema Registry, Python SDK: the client contract, checked on the code

    A shallow embedding of [sdks/python/schema_registry] ([models.py],
    [exceptions.py], [client.py]) together with the parts of its three
    dependencies the client relies on: [cachetools.TTLCache], tenacity's
    [retry] decorator and the [httpx] response interface.

    Conventions.
    - A Python [str] is a [string]; each character stands for the code point
      with the same number (U+0000 to U+00FF).
    - A value decoded from JSON (and, more generally, an untyped Python value)
      is a [Json].
    - A Python call that may raise returns a [Result]; stateful code runs in
      the monad [M] over a [World] that holds the client object, the log of
      HTTP requests sent and the log of back-off sleeps. *)

From Stdlib Require Import String Ascii List ZArith Bool Lia PeanoNat Sorted.
Import ListNotations.

Set Warnings "-register-all".

Open Scope string_scope.
Open Scope Z_scope.

(* ================================================================= *)
(** ** Python values *)

Module Py.

(** What [json.loads] produces.  A [dict] is an association list in which
    the first binding of a key is the live one. *)
Inductive Json : Type :=
| JNull
| JBool (b : bool)
| JNum (n : Z)
| JStr (s : string)
| JArr (items : list Json)
| JObj (fields : list (string * Json)).

Definition dict := list (string * Json).

Fixpoint lookup {V : Type} (k : string) (d : list (string * V)) : option V :=
  match d with
  | [] => None
  | (k', v) :: d' => if String.eqb k k' then Some v else lookup k d'
  end.

(** [d.get(k, default)] *)
Definition dict_get (d : dict) (k : string) (default : Json) : Json :=
  match lookup k d with
  | Some v => v
  | None => default
  end.

(** [iter(v)]: the elements a [for] loop over [v] visits, [None] when [v] is
    not iterable ([TypeError]). *)
Definition chars (s : string) : list Json :=
  map (fun c => JStr (String c EmptyString)) (list_ascii_of_string s).

Definition py_iter (v : Json) : option (list Json) :=
  match v with
  | JArr l => Some l
  | JObj d => Some (map (fun kv => JStr (fst kv)) d)
  | JStr s => Some (chars s)
  | JNull | JBool _ | JNum _ => None
  end.

(** [s.split(sep)] for a one-character separator. *)
Fixpoint split (sep : ascii) (s : string) : list string :=
  match s with
  | EmptyString => [EmptyString]
  | String c s' =>
      if Ascii.eqb c sep then EmptyString :: split sep s'
      else match split sep s' with
           | [] => [String c EmptyString]
           | p :: ps => String c p :: ps
           end
  end.

(** [str.isdigit] holds of the characters whose Unicode Numeric_Type is
    Decimal or Digit.  Below U+0100 these are 0-9 and the superscripts
    U+00B2, U+00B3 and U+00B9. *)
Definition isdigit_char (c : ascii) : bool :=
  let n := nat_of_ascii c in
  ((48 <=? n) && (n <=? 57))%nat
  || (n =? 178)%nat || (n =? 179)%nat || (n =? 185)%nat.

Fixpoint all_chars (p : ascii -> bool) (s : string) : bool :=
  match s with
  | EmptyString => true
  | String c s' => p c && all_chars p s'
  end.

Definition isdigit (s : string) : bool :=
  match s with
  | EmptyString => false
  | _ => all_chars isdigit_char s
  end.

(** [s.rstrip(c)] for a one-character set. *)
Fixpoint rstrip (c : ascii) (s : string) : string :=
  match s with
  | EmptyString => EmptyString
  | String a s' =>
      match rstrip c s' with
      | EmptyString => if Ascii.eqb a c then EmptyString else String a EmptyString
      | r => String a r
      end
  end.

End Py.
Import Py.

(* ================================================================= *)
(** ** exceptions.py *)

Module Exceptions.

(** The hierarchy under [SchemaRegistryError].  Each constructor carries the
    arguments its [__init__] receives; [status_code] gives the attribute
    [__init__] stores.  Python does not check the annotations, so an
    argument annotated [str] holds whatever value the caller passes. *)
Inductive RegistryError : Type :=
| SchemaRegistryError (message : Json) (status_code : option Z)
| SchemaNotFoundError (schema_id : Json)
| SchemaValidationError (errors : list string)
| IncompatibleSchemaError (incompatibilities : Json)
| AuthenticationError (message : Json)
| AuthorizationError (message : Json)
| RateLimitError (retry_after : option Z)
| ServerError (message : Json).

Definition status_code (e : RegistryError) : option Z :=
  match e with
  | SchemaRegistryError _ sc => sc
  | SchemaNotFoundError _ => Some 404
  | SchemaValidationError _ => Some 400
  | IncompatibleSchemaError _ => Some 409
  | AuthenticationError _ => Some 401
  | AuthorizationError _ => Some 403
  | RateLimitError _ => Some 429
  | ServerError _ => Some 500
  end.

(** Everything that can propagate out of the client. *)
Inductive Exn : Type :=
| Registry (e : RegistryError)
| TimeoutException            (* httpx.TimeoutException and its subclasses *)
| TransportError              (* any other httpx.TransportError *)
| JSONDecodeError             (* response.json() on a body that is not JSON *)
| ValidationError             (* pydantic *)
| TypeError
| AttributeError
| UnboundLocalError (name : string)
| ValueError (msg : string)
| KeyError (key : string)
| RetryError (last_attempt : Exn).   (* tenacity *)

Inductive Result (A : Type) : Type :=
| Ok (a : A)
| Raise (e : Exn).
Arguments Ok {A} a.
Arguments Raise {A} e.

(** [IncompatibleSchemaError(incompatibilities)]: [__init__] formats every
    element for the message, so it needs an iterable. *)
Definition new_IncompatibleSchemaError (incompatibilities : Json) : Exn :=
  match py_iter incompatibilities with
  | Some _ => Registry (IncompatibleSchemaError incompatibilities)
  | None => TypeError
  end.

End Exceptions.
Import Exceptions.

(* ================================================================= *)
(** ** models.py *)

Module Models.

Inductive SchemaFormat : Type := JSON_SCHEMA | AVRO | PROTOBUF.

Inductive CompatibilityMode : Type :=
| BACKWARD | FORWARD | FULL
| BACKWARD_TRANSITIVE | FORWARD_TRANSITIVE | FULL_TRANSITIVE
| NONE.

(** [mode.value] *)
Definition CompatibilityMode_value (m : CompatibilityMode) : string :=
  match m with
  | BACKWARD => "backward"
  | FORWARD => "forward"
  | FULL => "full"
  | BACKWARD_TRANSITIVE => "backward_transitive"
  | FORWARD_TRANSITIVE => "forward_transitive"
  | FULL_TRANSITIVE => "full_transitive"
  | NONE => "none"
  end.

Record SchemaMetadata : Type := {
  description : option string;
  tags : list string;
  owner : option string;
  custom : dict
}.

Record Schema : Type := {
  namespace : string;
  name : string;
  version : string;
  format : SchemaFormat;
  content : string;
  metadata : option SchemaMetadata
}.

(** [Schema.validate_version], the [field_validator] of [version]. *)
Definition validate_version (v : string) : Result string :=
  let parts := split "." v in
  if negb (length parts =? 3)%nat then
    Raise (ValueError "Version must be in semver format (major.minor.patch)")
  else if forallb isdigit parts then Ok v
  else Raise (ValueError "Version part must be numeric").

(** [Schema(namespace=..., ...)]: pydantic runs the field validators and
    turns a [ValueError] of a validator into its own [ValidationError]. *)
Definition new_Schema (namespace name version : string) (format : SchemaFormat)
    (content : string) (metadata : option SchemaMetadata) : Result Schema :=
  match validate_version version with
  | Ok v => Ok {| namespace := namespace; name := name; version := v;
                  format := format; content := content; metadata := metadata |}
  | Raise _ => Raise ValidationError
  end.

(** The response models.  Their fields are filled by pydantic from the
    decoded body ([construct] below), so only the types are given here.
    A [datetime] is kept as the text it was decoded from. *)
Record RegisterSchemaResponse : Type := {
  reg_schema_id : string;
  reg_version : string;
  reg_created_at : string
}.

Record GetSchemaResponse : Type := {
  get_schema_id : string;
  get_namespace : string;
  get_name : string;
  get_version : string;
  get_format : SchemaFormat;
  get_content : string;
  get_metadata : option SchemaMetadata;
  get_created_at : string;
  get_updated_at : string
}.

Record ValidateResponse : Type := {
  is_valid : bool;
  errors : list string
}.

Record CompatibilityResult : Type := {
  is_compatible : bool;
  incompatibilities : list string;
  mode : CompatibilityMode
}.

Record SchemaVersion : Type := {
  ver_version : string;
  ver_schema_id : string;
  ver_created_at : string
}.

Record SearchResult : Type := {
  res_schema_id : string;
  res_namespace : string;
  res_name : string;
  res_version : string;
  res_description : option string;
  res_tags : list string;
  res_score : Json
}.

(** Building a pydantic model [T] from the decoded body, with the body's
    entries as keyword arguments: that needs a mapping ([TypeError]
    otherwise), and pydantic ([init]) accepts or rejects the fields. *)
Definition construct {T : Type} (init : dict -> option T) (data : Json)
    : Result T :=
  match data with
  | JObj d => match init d with
              | Some t => Ok t
              | None => Raise ValidationError
              end
  | _ => Raise TypeError
  end.

End Models.
Import Models.

(* ================================================================= *)
(** ** cachetools.TTLCache *)

Module Cachetools.

(** The cache object.  [entries] is the expiry chain (the linked list that
    starts at the root link) with, per link, the key, the stored value and
    [expires]; [lru] is the key order of the [OrderedDict] of links, least
    recently used first.  Every value has size 1, so the current size is the
    number of entries.  [reads] counts the readings the cache has taken of
    its timer. *)
Record TTLCache (V : Type) : Type := {
  maxsize : Z;
  ttl : Z;
  entries : list (string * (V * Z));
  lru : list string;
  reads : nat
}.
Arguments maxsize {V} _.
Arguments ttl {V} _.
Arguments entries {V} _.
Arguments lru {V} _.
Arguments reads {V} _.

Section Operations.

Variable V : Type.
(** The timer the cache was built with ([time.monotonic]), reading by
    reading. *)
Variable timer : nat -> Z.

Abbreviation cache := (TTLCache V).

Definition new_TTLCache (maxsize ttl : Z) : cache :=
  {| maxsize := maxsize; ttl := ttl; entries := []; lru := []; reads := O |}.

Definition with_links (c : cache) (es : list (string * (V * Z)))
    (l : list string) : cache :=
  {| maxsize := maxsize c; ttl := ttl c; entries := es; lru := l;
     reads := reads c |}.

(** One reading of the timer outside a [with self.timer] block. *)
Definition tick (c : cache) : Z * cache :=
  (timer (reads c),
   {| maxsize := maxsize c; ttl := ttl c; entries := entries c;
      lru := lru c; reads := S (reads c) |}).

Definition remove_key (k : string) (es : list (string * (V * Z))) :=
  filter (fun kv => negb (String.eqb k (fst kv))) es.

Definition remove_str (k : string) (l : list string) :=
  filter (fun x => negb (String.eqb k x)) l.

Definition has_link (c : cache) (k : string) : bool :=
  match lookup k (entries c) with
  | Some _ => true
  | None => false
  end.

(** [self.__getlink(key)]: the link, moved to the end of the key order. *)
Definition move_to_end (k : string) (c : cache) : cache :=
  with_links c (entries c) (remove_str k (lru c) ++ [k]).

Definition unlink (k : string) (c : cache) : cache :=
  with_links c (remove_key k (entries c)) (remove_str k (lru c)).

(** The operations at a given reading [time] of the timer. *)
Definition contains_at (time : Z) (c : cache) (k : string) : bool :=
  match lookup k (entries c) with
  | Some (_, expires) => time <? expires
  | None => false
  end.

Definition getitem_at (time : Z) (c : cache) (k : string) : Result V * cache :=
  match lookup k (entries c) with
  | None => (Raise (KeyError k), c)
  | Some (v, expires) =>
      let c1 := move_to_end k c in
      if time <? expires then (Ok v, c1) else (Raise (KeyError k), c1)
  end.

Definition delitem_at (time : Z) (c : cache) (k : string) : Result unit * cache :=
  match lookup k (entries c) with
  | None => (Raise (KeyError k), c)
  | Some (_, expires) =>
      let c1 := unlink k c in
      if time <? expires then (Ok tt, c1) else (Raise (KeyError k), c1)
  end.

(** [expire(time)]: walk the chain from its head and drop links while they
    have expired. *)
Fixpoint expire_links (time : Z) (es : list (string * (V * Z)))
    (l : list string) : list (string * (V * Z)) * list string :=
  match es with
  | [] => ([], l)
  | (k, (v, expires)) :: es' =>
      if time <? expires then (es, l)
      else expire_links time es' (remove_str k l)
  end.

Definition expire_at (time : Z) (c : cache) : cache :=
  let (es, l) := expire_links time (entries c) (lru c) in with_links c es l.

(** [Cache.pop(key)] *)
Definition pop_at (time : Z) (c : cache) (k : string) : Result V * cache :=
  if contains_at time c k then
    match getitem_at time c k with
    | (Ok v, c1) =>
        match delitem_at time c1 k with
        | (Ok _, c2) => (Ok v, c2)
        | (Raise e, c2) => (Raise e, c2)
        end
    | (Raise e, c1) => (Raise e, c1)
    end
  else (Raise (KeyError k), c).

(** [popitem()]: expire, then pop the least recently used key. *)
Definition popitem_at (time : Z) (c : cache) : Result (string * V) * cache :=
  let c1 := expire_at time c in
  match lru c1 with
  | [] => (Raise (KeyError "TTLCache is empty"), c1)
  | k :: _ =>
      match pop_at time c1 k with
      | (Ok v, c2) => (Ok (k, v), c2)
      | (Raise e, c2) => (Raise e, c2)
      end
  end.

(** The loop of [Cache.__setitem__]:
    [while self.__currsize + size > maxsize: self.popitem()].
    [fuel] bounds the number of tests of the loop condition. *)
Fixpoint make_room (fuel : nat) (time : Z) (c : cache) : Result unit * cache :=
  match fuel with
  | O => (Ok tt, c)
  | S fuel' =>
      if Z.of_nat (length (entries c)) + 1 >? maxsize c then
        match popitem_at time c with
        | (Ok _, c1) => make_room fuel' time c1
        | (Raise e, c1) => (Raise e, c1)
        end
      else (Ok tt, c)
  end.

(** [key in cache] *)
Definition contains (c : cache) (k : string) : bool * cache :=
  if has_link c k then
    let (time, c1) := tick c in (contains_at time c1 k, c1)
  else (false, c).

(** [cache[key]] *)
Definition getitem (c : cache) (k : string) : Result V * cache :=
  if has_link c k then
    let (time, c1) := tick c in getitem_at time c1 k
  else (Raise (KeyError k), c).

(** [del cache[key]] *)
Definition delitem (c : cache) (k : string) : Result unit * cache :=
  if has_link c k then
    let (time, c1) := tick c in delitem_at time c1 k
  else (Raise (KeyError k), c).

(** [cache[key] = value]: within one frozen reading of the timer, expire,
    make room if the key is new, store; then stamp the link with
    [time + ttl] and put it last in the chain and in the key order. *)
Definition setitem (c : cache) (k : string) (v : V) : Result unit * cache :=
  let (time, c0) := tick c in
  let c1 := expire_at time c0 in
  if 1 >? maxsize c1 then (Raise (ValueError "value too large"), c1)
  else
    let (r, c2) :=
      if has_link c1 k then (Ok tt, c1)
      else make_room (S (length (entries c1))) time c1 in
    match r with
    | Raise e => (Raise e, c2)
    | Ok _ =>
        (Ok tt,
         with_links c2
           (remove_key k (entries c2) ++ [(k, (v, time + ttl c2))])
           (remove_str k (lru c2) ++ [k]))
    end.

(** [cache.clear()]: expire, then [popitem] until it raises [KeyError]. *)
Fixpoint clear_loop (fuel : nat) (time : Z) (c : cache) : cache :=
  match fuel with
  | O => c
  | S fuel' =>
      match popitem_at time c with
      | (Ok _, c1) => clear_loop fuel' time c1
      | (Raise _, c1) => c1
      end
  end.

Definition clear (c : cache) : cache :=
  let (time, c0) := tick c in
  clear_loop (S (length (entries c0))) time (expire_at time c0).

End Operations.

Arguments new_TTLCache {V}.
Arguments with_links {V}.
Arguments tick {V}.
Arguments remove_key {V}.
Arguments has_link {V}.
Arguments move_to_end {V}.
Arguments unlink {V}.
Arguments contains_at {V}.
Arguments getitem_at {V}.
Arguments delitem_at {V}.
Arguments expire_links {V}.
Arguments expire_at {V}.
Arguments pop_at {V}.
Arguments popitem_at {V}.
Arguments make_room {V}.
Arguments contains {V}.
Arguments getitem {V}.
Arguments delitem {V}.
Arguments setitem {V}.
Arguments clear_loop {V}.
Arguments clear {V}.

End Cachetools.
Import Cachetools.

(* ================================================================= *)
(** ** httpx: requests and responses *)

Module Httpx.

Inductive Method : Type := GET | POST | DELETE.

(** A call [self._client.get/post/delete(url, json=..., params=...)]. *)
Record Request : Type := {
  method : Method;
  url : string;
  json_body : option Json;
  params : list (string * Json)
}.

(** What the client reads of an [httpx.Response]: [json] is the value of
    [response.json()], [None] when the body is not JSON (the call raises);
    [retry_after] is [response.headers.get("Retry-After")]. *)
Record Response : Type := {
  status_code : Z;
  text : string;
  json : option Json;
  retry_after : option string
}.

Definition is_success (r : Response) : bool :=
  (200 <=? status_code r) && (status_code r <=? 299).

(** The outcome of sending one request. *)
Inductive Transport : Type :=
| TimedOut
| Failed
| Responded (r : Response).

End Httpx.
Import Httpx.

(* ================================================================= *)
(** ** tenacity *)

Module Tenacity.

(** [retry_if_exception_type((httpx.TimeoutException, ServerError))] *)
Definition retry_if_exception_type (e : Exn) : bool :=
  match e with
  | TimeoutException => true
  | Registry (ServerError _) => true
  | _ => false
  end.

(** [stop_after_attempt(max_attempt_number)] *)
Definition stop_after_attempt (max_attempt_number attempt_number : nat) : bool :=
  (max_attempt_number <=? attempt_number)%nat.

(** [wait_exponential(multiplier, min, max)] with [exp_base = 2] (tenacity 8):
    [max(max(0, min), min(multiplier * 2 ** (attempt_number - 1), max))]. *)
Definition wait_exponential (multiplier min max : Z) (attempt_number : nat) : Z :=
  Z.max (Z.max 0 min)
        (Z.min (multiplier * 2 ^ (Z.of_nat attempt_number - 1)) max).

End Tenacity.
Import Tenacity.

(* ================================================================= *)
(** ** client.py *)

Module Client.

(** What the client takes from outside: the monotonic clock behind the
    cache, the network and service (the outcome of the n-th request sent),
    and the library functions whose results the client passes on. *)
Record Env : Type := {
  monotonic : nat -> Z;
  transport : nat -> Request -> Transport;
  py_int : string -> option Z;            (* int(s), None for ValueError *)
  json_dumps : dict -> string;
  model_dump : Schema -> Json;            (* mode="json", exclude_none=True *)
  init_RegisterSchemaResponse : dict -> option RegisterSchemaResponse;
  init_GetSchemaResponse : dict -> option GetSchemaResponse;
  init_ValidateResponse : dict -> option ValidateResponse;
  init_CompatibilityResult : dict -> option CompatibilityResult;
  init_SearchResult : dict -> option SearchResult;
  init_SchemaVersion : dict -> option SchemaVersion
}.

(** The client object.  [timeout] is in seconds (a float in the source; the
    client only hands it to httpx). *)
Record SchemaRegistryClient : Type := {
  base_url : string;
  api_key : option string;
  timeout : Z;
  max_retries : Z;
  _cache : TTLCache GetSchemaResponse;
  headers : list (string * string)
}.

Definition __init__ (base_url : string) (api_key : option string)
    (timeout max_retries cache_ttl cache_maxsize : Z) : SchemaRegistryClient :=
  {| base_url := rstrip "/" base_url;
     api_key := api_key;
     timeout := timeout;
     max_retries := max_retries;
     _cache := new_TTLCache cache_maxsize cache_ttl;
     headers :=
       ("Content-Type", "application/json")
       :: match api_key with
          | Some (String c k) => [("Authorization", "Bearer " ++ String c k)]
          | _ => []
          end |}.

(** The state a call runs in: the client, the requests sent so far (oldest
    first) and the back-off sleeps taken so far. *)
Record World : Type := {
  self : SchemaRegistryClient;
  requests : list Request;
  sleeps : list Z
}.

Definition M (A : Type) : Type := World -> Result A * World.

Definition ret {A : Type} (a : A) : M A := fun w => (Ok a, w).

Definition bind {A B : Type} (m : M A) (k : A -> M B) : M B :=
  fun w =>
    match m w with
    | (Ok a, w') => k a w'
    | (Raise e, w') => (Raise e, w')
    end.

Definition lift {A : Type} (r : Result A) : M A := fun w => (r, w).

Notation "x <- m ;; k" := (bind m (fun x => k))
  (at level 61, m at next level, right associativity).
Notation "m ;;; k" := (bind m (fun _ => k))
  (at level 61, right associativity).

Definition cache (w : World) : TTLCache GetSchemaResponse := _cache (self w).

Definition set_cache (c : TTLCache GetSchemaResponse) (w : World) : World :=
  {| self := {| base_url := base_url (self w); api_key := api_key (self w);
                timeout := timeout (self w); max_retries := max_retries (self w);
                _cache := c; headers := headers (self w) |};
     requests := requests w;
     sleeps := sleeps w |}.

Section WithEnv.

Variable env : Env.

(** [await self._client.<method>(...)] *)
Definition send (req : Request) : M Response :=
  fun w =>
    let w' := {| self := self w; requests := requests w ++ [req];
                 sleeps := sleeps w |} in
    match transport env (length (requests w)) req with
    | TimedOut => (Raise TimeoutException, w')
    | Failed => (Raise TransportError, w')
    | Responded r => (Ok r, w')
    end.

(** [await asyncio.sleep(seconds)], as tenacity does between attempts. *)
Definition sleep (seconds : Z) : M unit :=
  fun w => (Ok tt, {| self := self w; requests := requests w;
                      sleeps := sleeps w ++ [seconds] |}).

Definition cache_contains (k : string) : M bool :=
  fun w => let (b, c) := contains (monotonic env) (cache w) k in
           (Ok b, set_cache c w).

Definition cache_getitem (k : string) : M GetSchemaResponse :=
  fun w => let (r, c) := getitem (monotonic env) (cache w) k in
           (r, set_cache c w).

Definition cache_setitem (k : string) (v : GetSchemaResponse) : M unit :=
  fun w => let (r, c) := setitem (monotonic env) (cache w) k v in
           (r, set_cache c w).

Definition cache_delitem (k : string) : M unit :=
  fun w => let (r, c) := delitem (monotonic env) (cache w) k in
           (r, set_cache c w).

(** The [message] that [_handle_response_error] computes in its [try]. *)
Definition error_message (response : Response) : Json :=
  match json response with
  | Some (JObj error_data) => dict_get error_data "message" (JStr (text response))
  | _ => JStr (text response)
  end.

(** [_handle_response_error].  In the 409 branch [error_data] is the name
    bound by [error_data = response.json()]: unbound when that call raised,
    and without a [get] when the body is JSON but not an object. *)
Definition _handle_response_error (response : Response) : Result unit :=
  if is_success response then Ok tt
  else
    let status_code := status_code response in
    let message := error_message response in
    if status_code =? 401 then Raise (Registry (AuthenticationError message))
    else if status_code =? 403 then Raise (Registry (AuthorizationError message))
    else if status_code =? 404 then Raise (Registry (SchemaNotFoundError message))
    else if status_code =? 409 then
      match json response with
      | None => Raise (UnboundLocalError "error_data")
      | Some (JObj error_data) =>
          Raise (new_IncompatibleSchemaError
                   (dict_get error_data "incompatibilities" (JArr [message])))
      | Some _ => Raise AttributeError
      end
    else if status_code =? 429 then
      match retry_after response with
      | Some (String c s) =>
          match py_int env (String c s) with
          | Some n => Raise (Registry (RateLimitError (Some n)))
          | None => Raise (ValueError "invalid literal for int()")
          end
      | _ => Raise (Registry (RateLimitError None))
      end
    else if status_code >=? 500 then Raise (Registry (ServerError message))
    else Raise (Registry (SchemaRegistryError message (Some status_code))).

(** [response.json()] *)
Definition response_json (response : Response) : Result Json :=
  match json response with
  | Some data => Ok data
  | None => Raise JSONDecodeError
  end.

(** [[T(x) for x in data]] with keyword arguments taken from each [x]. *)
Fixpoint construct_each {T : Type} (init : dict -> option T) (l : list Json)
    : Result (list T) :=
  match l with
  | [] => Ok []
  | x :: l' =>
      match construct init x with
      | Raise e => Raise e
      | Ok t => match construct_each init l' with
                | Raise e => Raise e
                | Ok ts => Ok (t :: ts)
                end
      end
  end.

Definition construct_all {T : Type} (init : dict -> option T) (data : Json)
    : Result (list T) :=
  match py_iter data with
  | None => Raise TypeError
  | Some l => construct_each init l
  end.

End WithEnv.

(** *** The decorated bodies *)

Module Body.
Section WithEnv.

Variable env : Env.
Abbreviation _handle_response_error := (_handle_response_error env).
Abbreviation send := (send env).
Abbreviation cache_contains := (cache_contains env).
Abbreviation cache_getitem := (cache_getitem env).
Abbreviation cache_setitem := (cache_setitem env).
Abbreviation cache_delitem := (cache_delitem env).

Definition register_schema (schema : Schema) : M RegisterSchemaResponse :=
  let payload := model_dump env schema in
  response <- send {| method := POST; url := "/api/v1/schemas";
                      json_body := Some payload; params := [] |} ;;
  lift (_handle_response_error response) ;;;
  data <- lift (response_json response) ;;
  result <- lift (construct (init_RegisterSchemaResponse env) data) ;;
  (* Invalidate cache for this schema *)
  let cache_key := namespace schema ++ "." ++ name schema in
  hit <- cache_contains cache_key ;;
  (if hit then cache_delitem cache_key else ret tt) ;;;
  ret result.

Definition get_schema (schema_id : string) (use_cache : bool)
    : M GetSchemaResponse :=
  (* Check cache first *)
  let cache_key := "schema:" ++ schema_id in
  hit <- (if use_cache then cache_contains cache_key else ret false) ;;
  if hit then cache_getitem cache_key
  else
    response <- send {| method := GET; url := "/api/v1/schemas/" ++ schema_id;
                        json_body := None; params := [] |} ;;
    lift (_handle_response_error response) ;;;
    data <- lift (response_json response) ;;
    result <- lift (construct (init_GetSchemaResponse env) data) ;;
    (* Cache the result *)
    (if use_cache then cache_setitem cache_key result else ret tt) ;;;
    ret result.

Definition get_schema_by_version (namespace name version : string)
    : M GetSchemaResponse :=
  (* Check cache *)
  let cache_key := "schema:" ++ namespace ++ "." ++ name ++ ":" ++ version in
  hit <- cache_contains cache_key ;;
  if hit then cache_getitem cache_key
  else
    response <- send {| method := GET;
                        url := "/api/v1/schemas/" ++ namespace ++ "/" ++ name
                               ++ "/versions/" ++ version;
                        json_body := None; params := [] |} ;;
    lift (_handle_response_error response) ;;;
    data <- lift (response_json response) ;;
    result <- lift (construct (init_GetSchemaResponse env) data) ;;
    (* Cache the result *)
    cache_setitem cache_key result ;;;
    ret result.

Definition validate_data (schema_id : string) (data : string + dict)
    : M ValidateResponse :=
  let data := match data with
              | inr d => json_dumps env d
              | inl s => s
              end in
  let payload := JObj [("schema_id", JStr schema_id); ("data", JStr data)] in
  response <- send {| method := POST; url := "/api/v1/validate";
                      json_body := Some payload; params := [] |} ;;
  lift (_handle_response_error response) ;;;
  data <- lift (response_json response) ;;
  lift (construct (init_ValidateResponse env) data).

Definition check_compatibility (schema_id new_schema_content : string)
    (mode : CompatibilityMode) : M CompatibilityResult :=
  let payload := JObj [("schema_id", JStr schema_id);
                       ("new_schema", JStr new_schema_content);
                       ("mode", JStr (CompatibilityMode_value mode))] in
  response <- send {| method := POST; url := "/api/v1/compatibility/check";
                      json_body := Some payload; params := [] |} ;;
  lift (_handle_response_error response) ;;;
  data <- lift (response_json response) ;;
  lift (construct (init_CompatibilityResult env) data).

Definition search_schemas (query : string) (limit offset : Z)
    : M (list SearchResult) :=
  response <- send {| method := GET; url := "/api/v1/search"; json_body := None;
                      params := [("q", JStr query); ("limit", JNum limit);
                                 ("offset", JNum offset)] |} ;;
  lift (_handle_response_error response) ;;;
  results <- lift (response_json response) ;;
  lift (construct_all (init_SearchResult env) results).

Definition list_versions (namespace name : string) : M (list SchemaVersion) :=
  response <- send {| method := GET;
                      url := "/api/v1/schemas/" ++ namespace ++ "/" ++ name
                             ++ "/versions";
                      json_body := None; params := [] |} ;;
  lift (_handle_response_error response) ;;;
  versions <- lift (response_json response) ;;
  lift (construct_all (init_SchemaVersion env) versions).

Definition delete_schema (schema_id : string) : M unit :=
  response <- send {| method := DELETE; url := "/api/v1/schemas/" ++ schema_id;
                      json_body := None; params := [] |} ;;
  lift (_handle_response_error response) ;;;
  (* Invalidate cache *)
  let cache_key := "schema:" ++ schema_id in
  hit <- cache_contains cache_key ;;
  (if hit then cache_delitem cache_key else ret tt).

Definition health_check : M Json :=
  response <- send {| method := GET; url := "/health"; json_body := None;
                      params := [] |} ;;
  lift (_handle_response_error response) ;;;
  lift (response_json response).

End WithEnv.
End Body.

Section Decorated.

Variable env : Env.

(** *** The [@retry] decorator

    tenacity's loop: run the function; when it raises and [retry] accepts the
    exception, either give up with [RetryError] ([stop]) or sleep for [wait]
    and run it again; any other exception is raised as it is.  [fuel] bounds
    the attempts that can follow the current one. *)
Fixpoint retrying {A : Type} (retry : Exn -> bool) (stop : nat -> bool)
    (wait : nat -> Z) (fuel attempt_number : nat) (fn : M A) : M A :=
  fun w =>
    match fn w with
    | (Ok a, w1) => (Ok a, w1)
    | (Raise e, w1) =>
        if retry e then
          if stop attempt_number then (Raise (RetryError e), w1)
          else
            match fuel with
            | O => (Raise (RetryError e), w1)
            | S fuel' =>
                match sleep (wait attempt_number) w1 with
                | (_, w2) =>
                    retrying retry stop wait fuel' (S attempt_number) fn w2
                end
            end
        else (Raise e, w1)
    end.

(** The decorator as every operation of the client carries it:
    [retry_if_exception_type((httpx.TimeoutException, ServerError))],
    [stop_after_attempt(3)], [wait_exponential(multiplier=1, min=1, max=10)]. *)
Definition retry {A : Type} (fn : M A) : M A :=
  retrying retry_if_exception_type (stop_after_attempt 3)
           (wait_exponential 1 1 10) 3 1 fn.

Definition register_schema (schema : Schema) := retry (Body.register_schema env schema).
Definition get_schema (schema_id : string) (use_cache : bool) :=
  retry (Body.get_schema env schema_id use_cache).
Definition get_schema_by_version (namespace name version : string) :=
  retry (Body.get_schema_by_version env namespace name version).
Definition validate_data (schema_id : string) (data : string + dict) :=
  retry (Body.validate_data env schema_id data).
Definition check_compatibility (schema_id new_schema_content : string)
    (mode : CompatibilityMode) :=
  retry (Body.check_compatibility env schema_id new_schema_content mode).
Definition search_schemas (query : string) (limit offset : Z) :=
  retry (Body.search_schemas env query limit offset).
Definition list_versions (namespace name : string) :=
  retry (Body.list_versions env namespace name).
Definition delete_schema (schema_id : string) := retry (Body.delete_schema env schema_id).
Definition health_check := retry (Body.health_check env).

Definition clear_cache : M unit :=
  fun w => (Ok tt, set_cache (clear (monotonic env) (cache w)) w).

End Decorated.

End Client.
Import Client.

(* ================================================================= *)
(** ** Calls and histories *)

(** The public operations of the client, as data, so that properties of
    "every operation" and of sequences of calls can be stated. *)
Inductive Call : Type :=
| RegisterSchema (schema : Schema)
| GetSchema (schema_id : string) (use_cache : bool)
| GetSchemaByVersion (namespace name version : string)
| ValidateData (schema_id : string) (data : string + dict)
| CheckCompatibility (schema_id new_schema_content : string)
                     (mode : CompatibilityMode)
| SearchSchemas (query : string) (limit offset : Z)
| ListVersions (namespace name : string)
| DeleteSchema (schema_id : string)
| HealthCheck
| ClearCache.

Inductive Answer : Type :=
| Registered (r : RegisterSchemaResponse)
| Fetched (r : GetSchemaResponse)
| Validated (r : ValidateResponse)
| Compared (r : CompatibilityResult)
| Found (l : list SearchResult)
| Versions (l : list SchemaVersion)
| Health (status : Json)
| Done.

Definition fmap {A B : Type} (f : A -> B) (m : M A) : M B :=
  fun w =>
    match m w with
    | (Ok a, w') => (Ok (f a), w')
    | (Raise e, w') => (Raise e, w')
    end.

(** One run of the body of an operation. *)
Definition attempt (env : Env) (c : Call) : M Answer :=
  match c with
  | RegisterSchema schema => fmap Registered (Body.register_schema env schema)
  | GetSchema schema_id use_cache =>
      fmap Fetched (Body.get_schema env schema_id use_cache)
  | GetSchemaByVersion namespace name version =>
      fmap Fetched (Body.get_schema_by_version env namespace name version)
  | ValidateData schema_id data =>
      fmap Validated (Body.validate_data env schema_id data)
  | CheckCompatibility schema_id new_schema_content mode =>
      fmap Compared (Body.check_compatibility env schema_id new_schema_content mode)
  | SearchSchemas query limit offset =>
      fmap Found (Body.search_schemas env query limit offset)
  | ListVersions namespace name =>
      fmap Versions (Body.list_versions env namespace name)
  | DeleteSchema schema_id => fmap (fun _ => Done) (Body.delete_schema env schema_id)
  | HealthCheck => fmap Health (Body.health_check env)
  | ClearCache => fmap (fun _ => Done) (clear_cache env)
  end.

(** The operation as the caller sees it: every one but [clear_cache] is
    decorated with [retry]. *)
Definition call (env : Env) (c : Call) : M Answer :=
  match c with
  | ClearCache => attempt env ClearCache
  | _ => retry (attempt env c)
  end.

(** A caller that makes the calls of [cs] one after the other, going on
    after a call that raised. *)
Fixpoint run (env : Env) (cs : list Call) (w : World) : World :=
  match cs with
  | [] => w
  | c :: cs' => run env cs' (snd (call env c w))
  end.

(** The cache keys the operations use. *)
Definition id_key (schema_id : string) : string := "schema:" ++ schema_id.
Definition version_key (namespace name version : string) : string :=
  "schema:" ++ namespace ++ "." ++ name ++ ":" ++ version.
Definition register_key (schema : Schema) : string :=
  namespace schema ++ "." ++ name schema.

(** Registering a schema whose version is the text [version]: build the
    [Schema], then call [register_schema]. *)
Definition register_version (env : Env) (namespace name version : string)
    (format : SchemaFormat) (content : string) : M RegisterSchemaResponse :=
  schema <- lift (new_Schema namespace name version format content None) ;;
  register_schema env schema.

(* ================================================================= *)
(** ** The version format of the specification *)

Module VersionSpec.

(** [<uint>.<uint>.<uint>]: three non-empty runs of the digits 0-9,
    separated by single dots, and nothing else. *)
Definition is_decimal (c : ascii) : bool :=
  let n := nat_of_ascii c in ((48 <=? n) && (n <=? 57))%nat.

(** Consume one or more decimal digits; the rest of the text. *)
Fixpoint digits (s : string) : string :=
  match s with
  | String c s' => if is_decimal c then digits s' else s
  | EmptyString => EmptyString
  end.

Definition uint (s : string) : option string :=
  match s with
  | String c s' => if is_decimal c then Some (digits s') else None
  | EmptyString => None
  end.

Definition dot (s : string) : option string :=
  match s with
  | String c s' => if Ascii.eqb c "." then Some s' else None
  | EmptyString => None
  end.

Definition matches_uint3 (v : string) : bool :=
  match uint v with
  | Some r1 =>
      match dot r1 with
      | Some r2 =>
          match uint r2 with
          | Some r3 =>
              match dot r3 with
              | Some r4 =>
                  match uint r4 with
                  | Some EmptyString => true
                  | _ => false
                  end
              | None => false
              end
          | None => false
          end
      | None => false
      end
  | None => false
  end.

End VersionSpec.

(* ================================================================= *)
(** ** Concrete environments

    A scripted service, a scripted clock and plain readings of pydantic and
    of the built-ins, for the runs that the closed lemmas below evaluate. *)

Module Fixtures.

Definition get_str (d : dict) (k : string) : option string :=
  match lookup k d with
  | Some (JStr s) => Some s
  | _ => None
  end.

Definition get_bool (d : dict) (k : string) : option bool :=
  match lookup k d with
  | Some (JBool b) => Some b
  | _ => None
  end.

Fixpoint strs (l : list Json) : option (list string) :=
  match l with
  | [] => Some []
  | JStr s :: l' => option_map (cons s) (strs l')
  | _ => None
  end.

Definition get_strs (d : dict) (k : string) : option (list string) :=
  match lookup k d with
  | Some (JArr l) => strs l
  | None => Some []
  | _ => None
  end.

Definition format_of (s : string) : option SchemaFormat :=
  if String.eqb s "json_schema" then Some JSON_SCHEMA
  else if String.eqb s "avro" then Some AVRO
  else if String.eqb s "protobuf" then Some PROTOBUF
  else None.

Definition mode_of (s : string) : option CompatibilityMode :=
  find (fun m => String.eqb s (CompatibilityMode_value m))
       [BACKWARD; FORWARD; FULL; BACKWARD_TRANSITIVE; FORWARD_TRANSITIVE;
        FULL_TRANSITIVE; NONE].

Definition opt_bind {A B : Type} (o : option A) (k : A -> option B) : option B :=
  match o with
  | Some a => k a
  | None => None
  end.

Notation "x <~ o ;; k" := (opt_bind o (fun x => k))
  (at level 61, o at next level, right associativity).

Definition register_response (d : dict) : option RegisterSchemaResponse :=
  i <~ get_str d "schema_id" ;; v <~ get_str d "version" ;;
  t <~ get_str d "created_at" ;;
  Some {| reg_schema_id := i; reg_version := v; reg_created_at := t |}.

Definition schema_response (d : dict) : option GetSchemaResponse :=
  i <~ get_str d "schema_id" ;; ns <~ get_str d "namespace" ;;
  n <~ get_str d "name" ;; v <~ get_str d "version" ;;
  f <~ opt_bind (get_str d "format") format_of ;;
  c <~ get_str d "content" ;; t <~ get_str d "created_at" ;;
  u <~ get_str d "updated_at" ;;
  Some {| get_schema_id := i; get_namespace := ns; get_name := n;
          get_version := v; get_format := f; get_content := c;
          get_metadata := None; get_created_at := t; get_updated_at := u |}.

Definition validate_response (d : dict) : option ValidateResponse :=
  b <~ get_bool d "is_valid" ;; e <~ get_strs d "errors" ;;
  Some {| is_valid := b; errors := e |}.

Definition compatibility_result (d : dict) : option CompatibilityResult :=
  b <~ get_bool d "is_compatible" ;; l <~ get_strs d "incompatibilities" ;;
  m <~ opt_bind (get_str d "mode") mode_of ;;
  Some {| is_compatible := b; incompatibilities := l; mode := m |}.

Definition schema_version (d : dict) : option SchemaVersion :=
  v <~ get_str d "version" ;; i <~ get_str d "schema_id" ;;
  t <~ get_str d "created_at" ;;
  Some {| ver_version := v; ver_schema_id := i; ver_created_at := t |}.

Definition search_result (d : dict) : option SearchResult :=
  i <~ get_str d "schema_id" ;; ns <~ get_str d "namespace" ;;
  n <~ get_str d "name" ;; v <~ get_str d "version" ;;
  t <~ get_strs d "tags" ;; s <~ lookup "score" d ;;
  Some {| res_schema_id := i; res_namespace := ns; res_name := n;
          res_version := v; res_description := get_str d "description";
          res_tags := t; res_score := s |}.

(** [int(s)] on a run of the digits 0-9. *)
Fixpoint decimal (acc : Z) (s : string) : option Z :=
  match s with
  | EmptyString => Some acc
  | String c s' =>
      if VersionSpec.is_decimal c
      then decimal (10 * acc + Z.of_nat (nat_of_ascii c) - 48) s'
      else None
  end.

Definition dump_schema (s : Schema) : Json :=
  JObj [("namespace", JStr (namespace s)); ("name", JStr (name s));
        ("version", JStr (version s));
        ("format", JStr match format s with
                        | JSON_SCHEMA => "json_schema"
                        | AVRO => "avro"
                        | PROTOBUF => "protobuf"
                        end);
        ("content", JStr (content s))].

(** The environment in which the clock reads [clock n] at its n-th reading
    and the n-th request is answered by the n-th entry of [script]
    (a network failure once the script is over). *)
Definition scripted (clock : nat -> Z) (script : list Transport) : Env :=
  {| monotonic := clock;
     transport := fun n _ => nth n script Failed;
     py_int := decimal 0;
     json_dumps := fun _ => "{}";
     model_dump := dump_schema;
     init_RegisterSchemaResponse := register_response;
     init_GetSchemaResponse := schema_response;
     init_ValidateResponse := validate_response;
     init_CompatibilityResult := compatibility_result;
     init_SearchResult := search_result;
     init_SchemaVersion := schema_version |}.

(** A client just built, before any call. *)
Definition fresh (max_retries cache_ttl cache_maxsize : Z) : World :=
  {| self := __init__ "http://localhost:8080/" (Some "key") 30 max_retries
                      cache_ttl cache_maxsize;
     requests := [];
     sleeps := [] |}.

Definition respond (status : Z) (body : string) (decoded : option Json)
    : Transport :=
  Responded {| status_code := status; text := body; json := decoded;
               retry_after := None |}.

Definition event_record : Json :=
  JObj [("schema_id", JStr "id-1"); ("namespace", JStr "telemetry");
        ("name", JStr "Event"); ("version", JStr "1.0.0");
        ("format", JStr "json_schema"); ("content", JStr "{}");
        ("created_at", JStr "2025-01-01T00:00:00Z");
        ("updated_at", JStr "2025-01-01T00:00:00Z")].

Definition event_schema : Schema :=
  {| namespace := "telemetry"; name := "Event"; version := "1.0.1";
     format := JSON_SCHEMA; content := "{}"; metadata := None |}.

Definition registered : Json :=
  JObj [("schema_id", JStr "id-2"); ("version", JStr "1.0.1");
        ("created_at", JStr "2025-01-02T00:00:00Z")].

End Fixtures.

(* ================================================================= *)
(** * Notions used in the statements *)

Import Fixtures.
Import VersionSpec.

(** ** Worlds *)

(** The world after a back-off sleep of [d]. *)
Definition after_sleep (d : Z) (w : World) : World :=
  {| self := self w; requests := requests w; sleeps := sleeps w ++ [d] |}.

(** The world after [req] was sent. *)
Definition sent (req : Request) (w : World) : World :=
  {| self := self w; requests := requests w ++ [req]; sleeps := sleeps w |}.

(** The requests of [w'] are those of [w] and then some. *)
Definition grows (w w' : World) : Prop :=
  exists l, requests w' = (requests w ++ l)%list.

(** [hoare P m Q]: from a world where [P] holds, [m] ends with a result and
    in a world that [Q] relates. *)
Definition hoare {A : Type} (P : World -> Prop) (m : M A)
    (Q : Result A -> World -> Prop) : Prop :=
  forall w, P w -> Q (fst (m w)) (snd (m w)).

(** ** Caches *)

(** The cache after one more reading of its timer. *)
Definition ticked {V : Type} (timer : nat -> Z) (c : TTLCache V) : TTLCache V :=
  snd (tick timer c).

(** [c'] has the bounds and the timer of [c], no key that [c] lacks and no
    more entries than [c]. *)
Definition shrinks {V : Type} (c c' : TTLCache V) : Prop :=
  maxsize c' = maxsize c /\ ttl c' = ttl c /\ reads c' = reads c
  /\ (forall k, lookup k (entries c) = None -> lookup k (entries c') = None)
  /\ (length (entries c') <= length (entries c))%nat.

(** ** Failures and retries *)

(** An exception the decorator does not retry. *)
Definition benign (e : Exn) : Prop := retry_if_exception_type e = false.

Definition benign_result {A : Type} (r : Result A) : Prop :=
  match r with
  | Raise e => benign e
  | Ok _ => True
  end.

(** A computation that sends nothing and raises nothing the decorator would
    retry. *)
Definition quiet {A : Type} (m : M A) : Prop :=
  forall w, requests (snd (m w)) = requests w /\ benign_result (fst (m w)).

(** The outcomes of a request that the policy calls transient: a timeout,
    or an answer with a status of 500 or more. *)
Definition transient (t : Transport) : bool :=
  match t with
  | TimedOut => true
  | Failed => false
  | Responded r => negb (is_success r) && (500 <=? status_code r)
  end.

(** The request, if any, that was sent between [w] and [w1]. *)
Definition sent_by (w w1 : World) : option Request :=
  nth_error (requests w1) (length (requests w)).

(** Whether the attempt that led from [w] to [w1] met a transient failure. *)
Definition met_transient (env : Env) (w w1 : World) : bool :=
  match sent_by w w1 with
  | Some req => transient (transport env (length (requests w)) req)
  | None => false
  end.

(** [m] raises an exception the decorator retries exactly when the request
    it sent met a transient failure. *)
Definition polite (env : Env) {A : Type} (m : M A) : Prop :=
  forall w e w1, m w = (Raise e, w1) ->
    retry_if_exception_type e = met_transient env w w1.

(** The handler raises [IncompatibleSchemaError(v)] on [response], and so do
    [check_compatibility] and [register_schema] when [response] is the
    answer to their request, after that one request. *)
Definition conflict_raises (env : Env) (w : World) (response : Response)
    (v : Json) : Prop :=
  _handle_response_error env response
  = Raise (Registry (IncompatibleSchemaError v))
  /\ (forall schema_id new_schema_content mode,
        let req := {| method := POST; url := "/api/v1/compatibility/check";
                      json_body :=
                        Some (JObj [("schema_id", JStr schema_id);
                                    ("new_schema", JStr new_schema_content);
                                    ("mode", JStr (CompatibilityMode_value mode))]);
                      params := [] |} in
        transport env (length (requests w)) req = Responded response ->
        check_compatibility env schema_id new_schema_content mode w
        = (Raise (Registry (IncompatibleSchemaError v)), sent req w))
  /\ (forall schema,
        let req := {| method := POST; url := "/api/v1/schemas";
                      json_body := Some (model_dump env schema);
                      params := [] |} in
        transport env (length (requests w)) req = Responded response ->
        register_schema env schema w
        = (Raise (Registry (IncompatibleSchemaError v)), sent req w)).

(** ** The reads through the cache *)

(** The miss path shared by [get_schema] (with [use_cache]) and
    [get_schema_by_version]: fetch, decode, store, return. *)
Definition fetch_and_store (env : Env) (cache_key url : string)
    : M GetSchemaResponse :=
  response <- send env {| method := GET; url := url; json_body := None;
                          params := [] |} ;;
  lift (_handle_response_error env response) ;;;
  data <- lift (response_json response) ;;
  result <- lift (construct (init_GetSchemaResponse env) data) ;;
  cache_setitem env cache_key result ;;;
  ret result.

(** The two reads as one: consult the cache, else fetch and store. *)
Definition cached_fetch (env : Env) (cache_key url : string)
    : M GetSchemaResponse :=
  hit <- cache_contains env cache_key ;;
  if hit then cache_getitem env cache_key
  else fetch_and_store env cache_key url.

Definition id_url (schema_id : string) : string :=
  "/api/v1/schemas/" ++ schema_id.
Definition version_url (namespace name version : string) : string :=
  "/api/v1/schemas/" ++ namespace ++ "/" ++ name ++ "/versions/" ++ version.

Definition get_request (url : string) : Request :=
  {| method := GET; url := url; json_body := None; params := [] |}.

(** A read through the cache. *)
Inductive Read : Type :=
| ById (schema_id : string)
| ByVersion (namespace name version : string).

Definition read_key (rd : Read) : string :=
  match rd with
  | ById schema_id => id_key schema_id
  | ByVersion namespace name version => version_key namespace name version
  end.

Definition read_url (rd : Read) : string :=
  match rd with
  | ById schema_id => id_url schema_id
  | ByVersion namespace name version => version_url namespace name version
  end.

Definition read (env : Env) (rd : Read) : M GetSchemaResponse :=
  match rd with
  | ById schema_id => get_schema env schema_id true
  | ByVersion namespace name version =>
      get_schema_by_version env namespace name version
  end.

(** ** Eviction *)

(** The tail of [delete_schema]: drop the key if the cache holds it. *)
Definition invalidate (env : Env) (k : string) : M unit :=
  hit <- cache_contains env k ;;
  (if hit then cache_delitem env k else ret tt).

Fixpoint has_char (c : ascii) (s : string) : bool :=
  match s with
  | EmptyString => false
  | String a s' => Ascii.eqb a c || has_char c s'
  end.

(** What one attempt and what the whole call may do to the cache: other
    keys keep their entries, the bounds stay, and the key itself keeps its
    entry or loses it. *)
Definition only_drops (k : string) (w w' : World) : Prop :=
  (forall k', k' <> k ->
     lookup k' (entries (cache w')) = lookup k' (entries (cache w)))
  /\ maxsize (cache w') = maxsize (cache w)
  /\ ttl (cache w') = ttl (cache w)
  /\ (lookup k (entries (cache w')) = None \/
      lookup k (entries (cache w')) = lookup k (entries (cache w))).

(** After the key was dropped or found expired: no entry, or the entry and
    the reading of the clock at which the check found it expired. *)
Definition dropped_or_expired (env : Env) (k : string) (w' : World) : Prop :=
  lookup k (entries (cache w')) = None \/
  exists v e, lookup k (entries (cache w')) = Some (v, e) /\
              e <= monotonic env (pred (reads (cache w'))).

(** ** An entry that survives other calls *)

(** The calls between two reads of an id that leave its entry alone, and how
    many entries each can add to the cache. *)
Definition keeps (id : string) (c : Call) : Prop :=
  match c with
  | DeleteSchema id' => id' <> id
  | RegisterSchema schema => register_key schema <> id_key id
  | ClearCache => False
  | _ => True
  end.

Definition stores (c : Call) : nat :=
  match c with
  | GetSchema _ true | GetSchemaByVersion _ _ _ => 1
  | _ => 0
  end.

Definition budget (calls : list Call) : nat :=
  fold_right (fun c n => (stores c + n)%nat) O calls.

(** The cache holds the record [r] under the key of [id] with the stamp [e],
    and has room for [n] more entries. *)
Definition holds_entry (id : string) (r : GetSchemaResponse) (e : Z) (n : nat)
    (c : TTLCache GetSchemaResponse) : Prop :=
  lookup (id_key id) (entries c) = Some (r, e)
  /\ Z.of_nat (length (entries c)) + Z.of_nat n <= maxsize c.

(** The invariant of the calls in between: the cache has taken at least
    [lo] readings of its clock and, as long as it has taken no more than
    [hi], it holds the entry with room for [n] more. *)
Definition survives (id : string) (r : GetSchemaResponse) (e : Z)
    (lo hi n : nat) (w : World) : Prop :=
  (lo <= reads (cache w))%nat
  /\ ((reads (cache w) <= hi)%nat -> holds_entry id r e n (cache w)).

(** Computations that keep the invariant as it is. *)
Definition keeps_surviving (id : string) (r : GetSchemaResponse) (e : Z)
    (lo hi : nat) {A : Type} (n : nat) (m : M A) : Prop :=
  hoare (survives id r e lo hi n) m (fun _ => survives id r e lo hi n).

(** Whether a history has no [delete_schema(id)] and no [register_schema]
    at all: the condition of the claim as it is written. *)
Definition no_delete_or_register (id : string) (c : Call) : bool :=
  match c with
  | DeleteSchema id' => negb (String.eqb id' id)
  | RegisterSchema _ => false
  | _ => true
  end.

(** ** Version strings *)

(** [k] runs of decimal digits separated by dots. *)
Fixpoint uints (k : nat) (s : string) : bool :=
  match k with
  | O => false
  | S k' =>
      match uint s with
      | Some rest =>
          match k' with
          | O => String.eqb rest ""
          | S _ => match dot rest with
                   | Some s' => uints k' s'
                   | None => false
                   end
          end
      | None => false
      end
  end.

(** What remains to be matched after the digits of the current run. *)
Definition tail (k' : nat) (rest : string) : bool :=
  match k' with
  | O => String.eqb rest ""
  | S _ => match dot rest with
           | Some s' => uints k' s'
           | None => false
           end
  end.

(** The test of [validate_version] for [k] parts, and the same test when
    the first part may be empty. *)
Definition check (k : nat) (s : string) : bool :=
  (length (split "." s) =? k)%nat && forallb isdigit (split "." s).

Definition check_rest (k : nat) (s : string) : bool :=
  (length (split "." s) =? k)%nat
  && match split "." s with
     | p :: ps => all_chars isdigit_char p && forallb isdigit ps
     | [] => false
     end.

(** No character is a digit for [str.isdigit] without being one of 0-9. *)
Definition plain (s : string) : bool :=
  all_chars (fun c => Bool.eqb (isdigit_char c) (is_decimal c)) s.

(** The version 1.0.2 written with a superscript two (U+00B2). *)
Definition superscript_version : string := "1.0." ++ String "178"%char EmptyString.

(** ** Runs that the closed lemmas evaluate *)

Definition ticking : nat -> Z := fun n => Z.of_nat n.

(** The record that [event_record] decodes to. *)
Definition event : GetSchemaResponse :=
  {| get_schema_id := "id-1"; get_namespace := "telemetry";
     get_name := "Event"; get_version := "1.0.0"; get_format := JSON_SCHEMA;
     get_content := "{}"; get_metadata := None;
     get_created_at := "2025-01-01T00:00:00Z";
     get_updated_at := "2025-01-01T00:00:00Z" |}.

Definition other_record : Json :=
  JObj [("schema_id", JStr "id-2"); ("namespace", JStr "telemetry");
        ("name", JStr "Other"); ("version", JStr "2.0.0");
        ("format", JStr "avro"); ("content", JStr "{}");
        ("created_at", JStr "2025-01-03T00:00:00Z");
        ("updated_at", JStr "2025-01-03T00:00:00Z")].

(** The response of the specification's example: incompatibilities a, b. *)
Definition conflict_ab : Response :=
  {| status_code := 409; text := "{}";
     json := Some (JObj [("message", JStr "conflict");
                         ("incompatibilities", JArr [JStr "a"; JStr "b"])]);
     retry_after := None |}.

(** A cache that holds the same schema under its id and under its version;
    the id is then deleted. *)
Definition two_entries : World :=
  let env := scripted ticking [respond 200 "" (Some event_record);
                               respond 200 "" (Some event_record)] in
  snd (get_schema_by_version env "telemetry" "Event" "1.0.0"
         (snd (get_schema env "id-1" true (fresh 3 300 1000)))).

Definition deleting : Env :=
  scripted ticking [respond 200 "" (Some event_record);
                    respond 200 "" (Some event_record);
                    respond 204 "" None].

(** A clock that advances by 400 between readings, a time-to-live of 300:
    the entry stored by a first [get_schema] has expired when the second
    call looks for it. *)
Definition slow_clock : Env :=
  scripted (fun n => 400 * Z.of_nat n)
           [respond 200 "" (Some event_record);
            respond 200 "" (Some event_record)].

Definition after_first_get : World :=
  snd (get_schema slow_clock "id-1" true (fresh 3 300 1000)).

(** Where the record that a cached read returns comes from. *)

(** The attempt that starts in [w] and ends in [w'] has returned [r] from the
    cache: the entry of [key] in [w] holds [r] with a stamp that the clock
    had reached neither when the attempt looked for the entry nor when it
    read it, and the attempt has sent nothing. *)
Definition served (env : Env) (key : string) (w : World)
    (r : GetSchemaResponse) (w' : World) : Prop :=
  exists e,
    lookup key (entries (cache w)) = Some (r, e)
    /\ monotonic env (reads (cache w)) < e
    /\ monotonic env (S (reads (cache w))) < e
    /\ requests w' = requests w.

(** The attempt that starts in [w] and ends in [w'] has returned [r] from the
    service: [w] holds no live entry of [key], the attempt has sent the
    request, [r] is the record built from the body of the 2xx answer to it,
    and the cache of [w'] holds [r] under [key], stamped with the reading of
    the store plus the time-to-live. *)
Definition fetched (env : Env) (key url : string) (w : World)
    (r : GetSchemaResponse) (w' : World) : Prop :=
  (forall v e, lookup key (entries (cache w)) = Some (v, e) ->
               e <= monotonic env (reads (cache w)))
  /\ exists response data,
       transport env (length (requests w)) (get_request url)
       = Responded response
       /\ is_success response = true
       /\ json response = Some data
       /\ construct (init_GetSchemaResponse env) data = Ok r
       /\ requests w' = (requests w ++ [get_request url])%list
       /\ lookup key (entries (cache w'))
          = Some (r, monotonic env (pred (reads (cache w'))) + ttl (cache w')).

Definition other : GetSchemaResponse :=
  {| get_schema_id := "id-2"; get_namespace := "telemetry";
     get_name := "Other"; get_version := "2.0.0"; get_format := AVRO;
     get_content := "{}"; get_metadata := None;
     get_created_at := "2025-01-03T00:00:00Z";
     get_updated_at := "2025-01-03T00:00:00Z" |}.

(** The slow clock again, and a service whose record has changed when it is
    asked a second time. *)
Definition renewing : Env :=
  scripted (fun n => 400 * Z.of_nat n)
           [respond 200 "" (Some event_record);
            respond 200 "" (Some other_record)].

Definition before_renewal : World :=
  snd (get_schema renewing "id-1" true (fresh 3 300 1000)).

(** ** Notions of the further properties *)

(** The calls whose body reads or writes the cache. *)
Definition uses_cache (c : Call) : bool :=
  match c with
  | RegisterSchema _ | GetSchema _ true | GetSchemaByVersion _ _ _
  | DeleteSchema _ | ClearCache => true
  | _ => false
  end.

(** [m] keeps [Inv], whatever its outcome. *)
Definition preserves {A : Type} (Inv : World -> Prop) (m : M A) : Prop :=
  hoare Inv m (fun _ => Inv).

(** [c'] has the bounds of [c], no key that [c] lacks, no more entries than
    [c], and has taken at least the readings of [c]. *)
Definition narrows {V : Type} (c c' : TTLCache V) : Prop :=
  maxsize c' = maxsize c /\ ttl c' = ttl c /\ (reads c <= reads c')%nat
  /\ (forall k, lookup k (entries c) = None -> lookup k (entries c') = None)
  /\ (length (entries c') <= length (entries c))%nat.

(** What [__init__] sets and no method assigns again. *)
Definition settings (w : World)
    : string * option string * Z * Z * list (string * string) * Z * Z :=
  (base_url (self w), api_key (self w), timeout (self w),
   max_retries (self w), headers (self w), maxsize (cache w), ttl (cache w)).

(** The world in which a client starts: [__init__] has run, nothing was
    sent. *)
Definition started (base_url : string) (api_key : option string)
    (timeout max_retries cache_ttl cache_maxsize : Z) : World :=
  {| self := __init__ base_url api_key timeout max_retries cache_ttl
                      cache_maxsize;
     requests := []; sleeps := [] |}.

(** The key under which a call stores its result, if it stores one. *)
Definition stored_key (c : Call) : option string :=
  match c with
  | GetSchema schema_id true => Some (id_key schema_id)
  | GetSchemaByVersion namespace name version =>
      Some (version_key namespace name version)
  | _ => None
  end.

(** No key that [w] lacks is in the cache of [w1], but perhaps [key]. *)
Definition gained (w : World) (key : option string) (w1 : World) : Prop :=
  forall k, key <> Some k -> lookup k (entries (cache w)) = None ->
            lookup k (entries (cache w1)) = None.

(** The request that an attempt of a call sends, when it sends one. *)
Definition request_of (env : Env) (c : Call) : option Request :=
  match c with
  | RegisterSchema schema =>
      Some {| method := POST; url := "/api/v1/schemas";
              json_body := Some (model_dump env schema); params := [] |}
  | GetSchema schema_id _ => Some (get_request (id_url schema_id))
  | GetSchemaByVersion namespace name version =>
      Some (get_request (version_url namespace name version))
  | ValidateData schema_id data =>
      Some {| method := POST; url := "/api/v1/validate";
              json_body :=
                Some (JObj [("schema_id", JStr schema_id);
                            ("data", JStr match data with
                                          | inr d => json_dumps env d
                                          | inl s => s
                                          end)]);
              params := [] |}
  | CheckCompatibility schema_id new_schema_content mode =>
      Some {| method := POST; url := "/api/v1/compatibility/check";
              json_body :=
                Some (JObj [("schema_id", JStr schema_id);
                            ("new_schema", JStr new_schema_content);
                            ("mode", JStr (CompatibilityMode_value mode))]);
              params := [] |}
  | SearchSchemas query limit offset =>
      Some {| method := GET; url := "/api/v1/search"; json_body := None;
              params := [("q", JStr query); ("limit", JNum limit);
                         ("offset", JNum offset)] |}
  | ListVersions namespace name =>
      Some (get_request ("/api/v1/schemas/" ++ namespace ++ "/" ++ name
                         ++ "/versions"))
  | DeleteSchema schema_id =>
      Some {| method := DELETE; url := "/api/v1/schemas/" ++ schema_id;
              json_body := None; params := [] |}
  | HealthCheck => Some (get_request "/health")
  | ClearCache => None
  end.

(** [m] sends nothing and does not sleep. *)
Definition offline {A : Type} (m : M A) : Prop :=
  forall w, requests (snd (m w)) = requests w
            /\ sleeps (snd (m w)) = sleeps w.

(** [m] does not sleep and sends nothing or [req], once. *)
Definition sends_once (req : Request) {A : Type} (m : M A) : Prop :=
  forall w, sleeps (snd (m w)) = sleeps w
            /\ (requests (snd (m w)) = requests w
                \/ requests (snd (m w)) = (requests w ++ [req])%list).

(** What [r] raises, if it raises, is in [P]. *)
Definition raising (P : Exn -> Prop) {A : Type} (r : Result A) : Prop :=
  match r with
  | Raise e => P e
  | Ok _ => True
  end.

(** Whatever [m] raises is in [P]. *)
Definition raises_only (P : Exn -> Prop) {A : Type} (m : M A) : Prop :=
  forall w, raising P (fst (m w)).

(** The exceptions that an attempt can raise: every one but [RetryError],
    which the decorator builds, and [SchemaValidationError]. *)
Definition attempt_exception (e : Exn) : Prop :=
  match e with
  | RetryError _ => False
  | Registry (SchemaValidationError _) => False
  | _ => True
  end.

(** The two calls that evict: [register_schema] and [delete_schema]. *)
Definition evicts (c : Call) : bool :=
  match c with
  | RegisterSchema _ | DeleteSchema _ => true
  | _ => false
  end.

(** The exceptions of the cache itself. *)
Definition is_KeyError (e : Exn) : Prop := exists k, e = KeyError k.

(** [T] built from the item [x]: [x] is an object and pydantic accepts its
    entries. *)
Definition built_from {T : Type} (init : dict -> option T) (x : Json) (t : T)
    : Prop :=
  exists d, x = JObj d /\ init d = Some t.

(** Whether [s] ends with the character [c]. *)
Fixpoint ends_with (c : ascii) (s : string) : bool :=
  match s with
  | EmptyString => false
  | String a EmptyString => Ascii.eqb a c
  | String _ s' => ends_with c s'
  end.

(** [n] copies of the character [c]. *)
Fixpoint copies (n : nat) (c : ascii) : string :=
  match n with
  | O => EmptyString
  | S n' => String c (copies n' c)
  end.

(** [sep.join(parts)] *)
Fixpoint join (sep : string) (parts : list string) : string :=
  match parts with
  | [] => EmptyString
  | [p] => p
  | p :: ps => p ++ sep ++ join sep ps
  end.

(** The expiry stamp of a link. *)
Definition stamp {V : Type} (kv : string * (V * Z)) : Z := snd (snd kv).

(** The expiry chain [es] and the key order [l] of a cache that its own
    operations have built: no key twice in the chain, the same keys in
    both, and the stamps in the order of the chain. *)
Definition linked {V : Type} (es : list (string * (V * Z))) (l : list string)
    : Prop :=
  NoDup (map fst es)
  /\ (forall k, In k l <-> In k (map fst es))
  /\ StronglySorted Z.le (map stamp es).

(** A cache whose chain and key order are linked and that holds no stamp
    later than the next reading of its timer plus the time-to-live. *)
Definition chained {V : Type} (timer : nat -> Z) (c : TTLCache V) : Prop :=
  linked (entries c) (lru c)
  /\ Forall (fun kv => stamp kv <= timer (reads c) + ttl c) (entries c).

(** A clock that does not run backwards. *)
Definition monotone (timer : nat -> Z) : Prop :=
  forall i j, (i <= j)%nat -> timer i <= timer j.

(** Two hits, in the order of the body. *)
Definition two_hits : list Json :=
  [JObj [("schema_id", JStr "id-2"); ("namespace", JStr "telemetry");
         ("name", JStr "Other"); ("version", JStr "2.0.0");
         ("score", JNum 7)];
   JObj [("schema_id", JStr "id-1"); ("namespace", JStr "telemetry");
         ("name", JStr "Event"); ("version", JStr "1.0.0");
         ("score", JNum 9)]].

(** The call that a read is. *)
Definition call_of (rd : Read) : Call :=
  match rd with
  | ById schema_id => GetSchema schema_id true
  | ByVersion namespace name version =>
      GetSchemaByVersion namespace name version
  end.

(** [v] is three parts joined by dots, each part non-empty and made of
    characters that [str.isdigit] takes for digits. *)
Definition three_numbers (v : string) : Prop :=
  exists major minor patch,
    v = major ++ "." ++ minor ++ "." ++ patch
    /\ isdigit major = true /\ isdigit minor = true /\ isdigit patch = true.

(* ================================================================= *)
(** * Properties *)

(** ** Association lists and the expiry chain *)

Section Links.

Variable V : Type.
Implicit Types (k : string) (es : list (string * (V * Z))).

Lemma lookup_remove_other k k' es :
  k <> k' -> lookup k (remove_key k' es) = lookup k es.
Proof.
  intros Hne. induction es as [|[k0 x] es IH]; simpl; [reflexivity|].
  destruct (String.eqb k' k0) eqn:E'; simpl.
  - apply String.eqb_eq in E'. subst k0.
    destruct (String.eqb k k') eqn:E; [apply String.eqb_eq in E; contradiction|].
    exact IH.
  - destruct (String.eqb k k0); [reflexivity|exact IH].
Qed.

Lemma lookup_remove_same k es : lookup k (remove_key k es) = None.
Proof.
  induction es as [|[k0 x] es IH]; simpl; [reflexivity|].
  destruct (String.eqb k k0) eqn:E; simpl; [exact IH|].
  rewrite E. exact IH.
Qed.

Lemma lookup_app_other k k' (x : V * Z) es :
  k <> k' -> lookup k (es ++ [(k', x)]) = lookup k es.
Proof.
  intros Hne. induction es as [|[k0 y] es IH]; simpl.
  - destruct (String.eqb k k') eqn:E; [apply String.eqb_eq in E; contradiction|reflexivity].
  - destruct (String.eqb k k0); [reflexivity|exact IH].
Qed.

Lemma lookup_app_new k (x : V * Z) es :
  lookup k es = None -> lookup k (es ++ [(k, x)]) = Some x.
Proof.
  induction es as [|[k0 y] es IH]; simpl; intros H.
  - rewrite String.eqb_refl. reflexivity.
  - destruct (String.eqb k k0); [discriminate|auto].
Qed.

Lemma length_remove_key k es : (length (remove_key k es) <= length es)%nat.
Proof. apply filter_length_le. Qed.

Lemma expire_links_keeps time k v e es l :
  lookup k es = Some (v, e) -> time < e ->
  lookup k (fst (expire_links time es l)) = Some (v, e).
Proof.
  revert l. induction es as [|[k0 [v0 e0]] es IH]; simpl; intros l H Ht.
  - discriminate.
  - destruct (time <? e0) eqn:E0; simpl.
    + exact H.
    + destruct (String.eqb k k0) eqn:E.
      * inversion H; subst. apply Z.ltb_ge in E0. lia.
      * apply IH; assumption.
Qed.

Lemma expire_links_absent time k es l :
  lookup k es = None -> lookup k (fst (expire_links time es l)) = None.
Proof.
  revert l. induction es as [|[k0 [v0 e0]] es IH]; simpl; intros l H.
  - reflexivity.
  - destruct (String.eqb k k0) eqn:E; [discriminate|].
    destruct (time <? e0); simpl; [rewrite E; exact H|].
    apply IH. exact H.
Qed.

Lemma expire_links_length time es l :
  (length (fst (expire_links time es l)) <= length es)%nat.
Proof.
  revert l. induction es as [|[k0 [v0 e0]] es IH]; simpl; intros l; [lia|].
  destruct (time <? e0); simpl; [lia|].
  specialize (IH (remove_str k0 l)). lia.
Qed.

End Links.

Arguments lookup_remove_other {V}.
Arguments lookup_remove_same {V}.
Arguments lookup_app_other {V}.
Arguments lookup_app_new {V}.
Arguments length_remove_key {V}.
Arguments expire_links_keeps {V}.
Arguments expire_links_absent {V}.
Arguments expire_links_length {V}.

(** ** Strings and cache keys *)

Lemma length_append (s1 s2 : string) :
  String.length (s1 ++ s2) = (String.length s1 + String.length s2)%nat.
Proof. induction s1 as [|c s1 IH]; simpl; [reflexivity|]. rewrite IH. reflexivity. Qed.

Lemma append_inj_r (s a b : string) : s ++ a = s ++ b -> a = b.
Proof.
  induction s as [|c s IH]; simpl; intros H; [exact H|].
  inversion H. auto.
Qed.

Lemma id_key_inj (id id' : string) : id_key id = id_key id' -> id = id'.
Proof. unfold id_key. apply append_inj_r. Qed.

Lemma has_char_append (c : ascii) (s1 s2 : string) :
  has_char c (s1 ++ s2) = has_char c s1 || has_char c s2.
Proof.
  induction s1 as [|a s1 IH]; simpl; [reflexivity|].
  rewrite IH. apply orb_assoc.
Qed.

(** An identifier without a dot (a UUID, say) shares its cache key with no
    key of [get_schema_by_version]. *)
Lemma version_key_not_id_key (id namespace name version : string) :
  has_char "." id = false -> version_key namespace name version <> id_key id.
Proof.
  intros Hid H. unfold version_key, id_key in H. apply append_inj_r in H.
  subst id. rewrite has_char_append in Hid. simpl in Hid.
  rewrite orb_true_r in Hid. discriminate.
Qed.

(** The key [register_schema] evicts is never the key under which
    [get_schema_by_version] stores the same namespace and name. *)
Lemma register_key_misses (schema : Schema) (version : string) :
  register_key schema <> version_key (namespace schema) (name schema) version.
Proof.
  unfold register_key, version_key. intros H.
  apply (f_equal String.length) in H. simpl in H.
  rewrite !length_append in H. simpl in H.
  rewrite !length_append in H. simpl in H. lia.
Qed.

Lemma app_cons_neq {A : Type} (l rest : list A) (x : A) :
  (l ++ x :: rest)%list <> l.
Proof.
  intros H. apply (f_equal (@length A)) in H. rewrite length_app in H.
  simpl in H. lia.
Qed.

Lemma nth_error_snoc {A : Type} (l : list A) (x : A) :
  nth_error (l ++ [x]) (length l) = Some x.
Proof. rewrite nth_error_app2 by lia. rewrite Nat.sub_diag. reflexivity. Qed.

Lemma nth_error_self {A : Type} (l : list A) : nth_error l (length l) = None.
Proof. apply nth_error_None. lia. Qed.

(** ** Versions written with the digits 0-9 *)

Lemma split_cons (c : ascii) (s : string) :
  split "." (String c s) =
  if Ascii.eqb c "." then EmptyString :: split "." s
  else match split "." s with
       | [] => [String c EmptyString]
       | p :: ps => String c p :: ps
       end.
Proof. reflexivity. Qed.

Lemma split_nonempty (s : string) : split "." s <> [].
Proof.
  induction s as [|c s IH]; [discriminate|]. rewrite split_cons.
  destruct (Ascii.eqb c "."); [discriminate|].
  destruct (split "." s); discriminate.
Qed.

Lemma uints_unfold (k' : nat) (s : string) :
  uints (S k') s = match uint s with
                   | Some rest => tail k' rest
                   | None => false
                   end.
Proof. reflexivity. Qed.

Lemma matches_uint3_uints (v : string) : matches_uint3 v = uints 3 v.
Proof.
  unfold matches_uint3. simpl.
  destruct (uint v) as [r1|]; [|reflexivity].
  destruct (dot r1) as [r2|]; [|reflexivity].
  destruct (uint r2) as [r3|]; [|reflexivity].
  destruct (dot r3) as [r4|]; [|reflexivity].
  destruct (uint r4) as [[|c r5]|]; reflexivity.
Qed.

Lemma dot_is_not_decimal (c : ascii) :
  Ascii.eqb c "." = true -> is_decimal c = false /\ isdigit_char c = false.
Proof. intros H. apply Ascii.eqb_eq in H. subst c. split; reflexivity. Qed.

Lemma check_matches (s : string) :
  plain s = true ->
  (forall k, check k s = uints k s)
  /\ (forall k', check_rest (S k') s = tail k' (digits s)).
Proof.
  induction s as [|c s IH]; intros Hp.
  - split.
    + intros [|k]; [reflexivity|]. unfold check. simpl.
      rewrite andb_false_r. reflexivity.
    + intros [|k']; reflexivity.
  - simpl in Hp. apply andb_true_iff in Hp. destruct Hp as [Hc Hp].
    apply Bool.eqb_prop in Hc. destruct (IH Hp) as [IHa IHb].
    pose proof (split_nonempty s) as Hne.
    split.
    + intros [|k'].
      { unfold check. rewrite split_cons.
        destruct (Ascii.eqb c "."); [reflexivity|].
        destruct (split "." s); [contradiction|reflexivity]. }
      rewrite uints_unfold. unfold uint. unfold check. rewrite split_cons.
      destruct (Ascii.eqb c ".") eqn:Ed.
      * destruct (dot_is_not_decimal c Ed) as [Hd _]. rewrite Hd.
        simpl. rewrite andb_false_r. reflexivity.
      * rewrite <- Hc. destruct (isdigit_char c) eqn:Ec.
        -- rewrite <- IHb. unfold check_rest.
           destruct (split "." s) as [|p ps]; [contradiction|]. simpl.
           rewrite Ec. reflexivity.
        -- destruct (split "." s) as [|p ps]; [contradiction|]. simpl.
           rewrite Ec. simpl. rewrite andb_false_r. reflexivity.
    + intros k'. unfold check_rest. rewrite split_cons. simpl digits.
      destruct (Ascii.eqb c ".") eqn:Ed.
      * destruct (dot_is_not_decimal c Ed) as [Hd _]. rewrite Hd.
        unfold tail, dot. rewrite Ed.
        destruct k' as [|k'']; simpl.
        { destruct (split "." s); [contradiction|reflexivity]. }
        exact (IHa (S k'')).
      * rewrite <- Hc.
        destruct (isdigit_char c) eqn:Ec.
        -- rewrite <- IHb. unfold check_rest.
           destruct (split "." s) as [|p ps]; [contradiction|]. simpl.
           rewrite Ec. reflexivity.
        -- unfold tail, dot. rewrite Ed.
           destruct (split "." s) as [|p ps]; [contradiction|]. simpl.
           rewrite Ec. simpl. rewrite andb_false_r.
           destruct k'; reflexivity.
Qed.

Lemma decimal_isdigit (c : ascii) : is_decimal c = true -> isdigit_char c = true.
Proof. unfold isdigit_char, is_decimal. intros H. rewrite H. reflexivity. Qed.

Lemma uints_plain (s : string) :
  (forall k, uints k s = true -> plain s = true)
  /\ (forall k', tail k' (digits s) = true -> plain s = true).
Proof.
  induction s as [|c s [IHa IHb]]; [split; reflexivity|].
  assert (Hdec : is_decimal c = true -> plain s = true ->
                 plain (String c s) = true).
  { intros Hd Hp. unfold plain. simpl. fold (plain s).
    rewrite Hd, (decimal_isdigit c Hd), Hp. reflexivity. }
  split.
  - intros [|k']; [discriminate|]. rewrite uints_unfold. unfold uint.
    destruct (is_decimal c) eqn:Hd; [|discriminate].
    intros Ht. apply Hdec; [reflexivity|]. exact (IHb k' Ht).
  - intros k'. simpl digits. destruct (is_decimal c) eqn:Hd.
    + intros Ht. apply Hdec; [reflexivity|]. exact (IHb k' Ht).
    + unfold tail, dot. destruct k' as [|k'']; [discriminate|].
      destruct (Ascii.eqb c ".") eqn:Ed; [|discriminate].
      intros Hu. unfold plain. simpl. fold (plain s).
      destruct (dot_is_not_decimal c Ed) as [H1 H2]. rewrite H1, H2.
      simpl. exact (IHa _ Hu).
Qed.

Lemma validate_version_check (v : string) :
  validate_version v = Ok v /\ check 3 v = true
  \/ (exists e, validate_version v = Raise e) /\ check 3 v = false.
Proof.
  unfold validate_version, check.
  destruct (length (split "." v) =? 3)%nat; simpl.
  - destruct (forallb isdigit (split "." v)); [left|right]; eauto.
  - right. eauto.
Qed.

(** A version of the form uint.uint.uint is accepted, unchanged. *)
Lemma matching_version_accepted (v : string) :
  matches_uint3 v = true -> validate_version v = Ok v.
Proof.
  intros Hm. rewrite matches_uint3_uints in Hm.
  pose proof (proj1 (uints_plain v) 3%nat Hm) as Hp.
  rewrite <- (proj1 (check_matches v Hp)) in Hm.
  destruct (validate_version_check v) as [[H _]|[_ H]]; [exact H|congruence].
Qed.

(** A version that is accepted is returned as it is. *)
Lemma accepted_version_unchanged (v v' : string) :
  validate_version v = Ok v' -> v' = v.
Proof.
  destruct (validate_version_check v) as [[H _]|[[e H] _]]; congruence.
Qed.

(** Among the versions with no digit character other than 0-9, exactly
    those of the form uint.uint.uint are accepted. *)
Lemma plain_version_accepted_iff (v : string) :
  plain v = true ->
  (validate_version v = Ok v <-> matches_uint3 v = true).
Proof.
  intros Hp. rewrite matches_uint3_uints, <- (proj1 (check_matches v Hp)).
  destruct (validate_version_check v) as [[H1 H2]|[[e H1] H2]];
    split; congruence.
Qed.

(** ** The cache operations, one reading of the timer at a time *)

(** The cache operations on a key that is, or is not, linked. *)
Section CacheEquations.

Variable V : Type.
Variable timer : nat -> Z.
Implicit Types (c : TTLCache V) (k : string).

Lemma contains_absent c k :
  lookup k (entries c) = None -> contains timer c k = (false, c).
Proof. intros H. unfold contains, has_link. rewrite H. reflexivity. Qed.

Lemma contains_present c k v e :
  lookup k (entries c) = Some (v, e) ->
  contains timer c k = (timer (reads c) <? e, ticked timer c).
Proof.
  intros H. unfold contains, has_link, contains_at. rewrite H. simpl.
  rewrite H. reflexivity.
Qed.

Lemma getitem_absent c k :
  lookup k (entries c) = None -> getitem timer c k = (Raise (KeyError k), c).
Proof. intros H. unfold getitem, has_link. rewrite H. reflexivity. Qed.

Lemma getitem_present c k v e :
  lookup k (entries c) = Some (v, e) ->
  getitem timer c k =
  (if timer (reads c) <? e then Ok v else Raise (KeyError k),
   move_to_end k (ticked timer c)).
Proof.
  intros H. unfold getitem, has_link, getitem_at. rewrite H. simpl.
  rewrite H. destruct (timer (reads c) <? e); reflexivity.
Qed.

Lemma delitem_absent c k :
  lookup k (entries c) = None -> delitem timer c k = (Raise (KeyError k), c).
Proof. intros H. unfold delitem, has_link. rewrite H. reflexivity. Qed.

Lemma delitem_present c k v e :
  lookup k (entries c) = Some (v, e) ->
  delitem timer c k =
  (if timer (reads c) <? e then Ok tt else Raise (KeyError k),
   unlink k (ticked timer c)).
Proof.
  intros H. unfold delitem, has_link, delitem_at. rewrite H. simpl.
  rewrite H. destruct (timer (reads c) <? e); reflexivity.
Qed.

End CacheEquations.

(** ** What the cache operations raise *)

(** The cache raises [KeyError] and [ValueError] only. *)
Section CacheRaises.

Variable V : Type.
Variable timer : nat -> Z.
Implicit Types (c : TTLCache V) (k : string).

Lemma getitem_at_benign time c k : benign_result (fst (getitem_at time c k)).
Proof.
  unfold getitem_at. destruct (lookup k (entries c)) as [[v e]|]; simpl;
    [destruct (time <? e)|]; simpl; auto; reflexivity.
Qed.

Lemma delitem_at_benign time c k : benign_result (fst (delitem_at time c k)).
Proof.
  unfold delitem_at. destruct (lookup k (entries c)) as [[v e]|]; simpl;
    [destruct (time <? e)|]; simpl; auto; reflexivity.
Qed.

Lemma pop_at_benign time c k : benign_result (fst (pop_at time c k)).
Proof.
  unfold pop_at. destruct (contains_at time c k); [|reflexivity].
  pose proof (getitem_at_benign time c k) as Hg.
  destruct (getitem_at time c k) as [[v|e] c1]; simpl in *; [|exact Hg].
  pose proof (delitem_at_benign time c1 k) as Hd.
  destruct (delitem_at time c1 k) as [[u|e] c2]; simpl in *; [exact I|exact Hd].
Qed.

Lemma popitem_at_benign time c : benign_result (fst (popitem_at time c)).
Proof.
  unfold popitem_at. destruct (lru (expire_at time c)) as [|k l]; [reflexivity|].
  pose proof (pop_at_benign time (expire_at time c) k) as Hp.
  destruct (pop_at time (expire_at time c) k) as [[v|e] c2]; simpl in *;
    [exact I|exact Hp].
Qed.

Lemma make_room_benign fuel time c : benign_result (fst (make_room fuel time c)).
Proof.
  revert c. induction fuel as [|fuel IH]; intros c; simpl; [exact I|].
  destruct (Z.of_nat (length (entries c)) + 1 >? maxsize c); [|exact I].
  pose proof (popitem_at_benign time c) as Hp.
  destruct (popitem_at time c) as [[kv|e] c1]; simpl in *; [apply IH|exact Hp].
Qed.

Lemma getitem_benign c k : benign_result (fst (getitem timer c k)).
Proof.
  unfold getitem. destruct (has_link c k); [|reflexivity].
  destruct (tick timer c) as [time c1]. apply getitem_at_benign.
Qed.

Lemma delitem_benign c k : benign_result (fst (delitem timer c k)).
Proof.
  unfold delitem. destruct (has_link c k); [|reflexivity].
  destruct (tick timer c) as [time c1]. apply delitem_at_benign.
Qed.

Lemma setitem_benign c k v : benign_result (fst (setitem timer c k v)).
Proof.
  unfold setitem. destruct (tick timer c) as [time c0].
  destruct (1 >? maxsize (expire_at time c0)); [reflexivity|].
  destruct (has_link (expire_at time c0) k); [exact I|].
  pose proof (make_room_benign (S (length (entries (expire_at time c0)))) time
                (expire_at time c0)) as Hm.
  destruct (make_room _ time (expire_at time c0)) as [[u|e] c2]; simpl in *;
    [exact I|exact Hm].
Qed.

End CacheRaises.

(** ** What the cache operations keep *)

Section CacheFrames.

Variable V : Type.
Variable timer : nat -> Z.
Implicit Types (c : TTLCache V) (k : string).

Lemma shrinks_refl c : shrinks c c.
Proof. unfold shrinks. auto. Qed.

Lemma shrinks_trans c1 c2 c3 : shrinks c1 c2 -> shrinks c2 c3 -> shrinks c1 c3.
Proof.
  intros (A1 & B1 & C1 & D1 & E1) (A2 & B2 & C2 & D2 & E2).
  unfold shrinks. repeat split; try congruence; auto. lia.
Qed.

Lemma lookup_remove_absent k k' (es : list (string * (V * Z))) :
  lookup k es = None -> lookup k (remove_key k' es) = None.
Proof.
  induction es as [|[k0 x] es IH]; simpl; [reflexivity|].
  destruct (String.eqb k k0) eqn:E; [discriminate|]. intros H.
  destruct (String.eqb k' k0); simpl; [auto|]. rewrite E. auto.
Qed.

Lemma shrinks_move_to_end k c : shrinks c (move_to_end k c).
Proof. unfold shrinks. simpl. auto. Qed.

Lemma shrinks_unlink k c : shrinks c (unlink k c).
Proof.
  unfold shrinks. simpl. repeat split; auto.
  - intros k0. apply lookup_remove_absent.
  - apply length_remove_key.
Qed.

Lemma shrinks_expire_at time c : shrinks c (expire_at time c).
Proof.
  unfold shrinks, expire_at.
  pose proof (expire_links_length time (entries c) (lru c)) as Hl.
  pose proof (fun k => expire_links_absent time k (entries c) (lru c)) as Ha.
  destruct (expire_links time (entries c) (lru c)) as [es l]. simpl in *.
  auto.
Qed.

Lemma shrinks_getitem_at time c k : shrinks c (snd (getitem_at time c k)).
Proof.
  unfold getitem_at. destruct (lookup k (entries c)) as [[v e]|];
    [destruct (time <? e)|]; simpl;
    first [apply shrinks_move_to_end | apply shrinks_refl].
Qed.

Lemma shrinks_delitem_at time c k : shrinks c (snd (delitem_at time c k)).
Proof.
  unfold delitem_at. destruct (lookup k (entries c)) as [[v e]|];
    [destruct (time <? e)|]; simpl;
    first [apply shrinks_unlink | apply shrinks_refl].
Qed.

Lemma shrinks_pop_at time c k : shrinks c (snd (pop_at time c k)).
Proof.
  unfold pop_at. destruct (contains_at time c k); [|apply shrinks_refl].
  pose proof (shrinks_getitem_at time c k) as Hg.
  destruct (getitem_at time c k) as [[v|e] c1]; simpl in *; [|exact Hg].
  pose proof (shrinks_delitem_at time c1 k) as Hd.
  destruct (delitem_at time c1 k) as [[u|e] c2]; simpl in *;
    exact (shrinks_trans _ _ _ Hg Hd).
Qed.

Lemma shrinks_popitem_at time c : shrinks c (snd (popitem_at time c)).
Proof.
  unfold popitem_at. pose proof (shrinks_expire_at time c) as He.
  destruct (lru (expire_at time c)) as [|k l]; [exact He|].
  pose proof (shrinks_pop_at time (expire_at time c) k) as Hp.
  destruct (pop_at time (expire_at time c) k) as [[v|e] c2]; simpl in *;
    exact (shrinks_trans _ _ _ He Hp).
Qed.

Lemma shrinks_make_room fuel time c : shrinks c (snd (make_room fuel time c)).
Proof.
  revert c. induction fuel as [|fuel IH]; intros c; simpl; [apply shrinks_refl|].
  destruct (Z.of_nat (length (entries c)) + 1 >? maxsize c); [|apply shrinks_refl].
  pose proof (shrinks_popitem_at time c) as Hp.
  destruct (popitem_at time c) as [[kv|e] c1]; simpl in *; [|exact Hp].
  exact (shrinks_trans _ _ _ Hp (IH c1)).
Qed.

(** With room for one more entry the loop of [__setitem__] pops nothing. *)
Lemma make_room_enough fuel time c :
  Z.of_nat (length (entries c)) + 1 <= maxsize c ->
  make_room fuel time c = (Ok tt, c).
Proof.
  intros H. destruct fuel; simpl; [reflexivity|].
  destruct (Z.of_nat (length (entries c)) + 1 >? maxsize c) eqn:E;
    [|reflexivity].
  apply Z.gtb_lt in E. lia.
Qed.

Lemma expire_at_keeps time c k v e :
  lookup k (entries c) = Some (v, e) -> time < e ->
  lookup k (entries (expire_at time c)) = Some (v, e).
Proof.
  intros H Ht. unfold expire_at.
  pose proof (expire_links_keeps time k v e (entries c) (lru c) H Ht) as Hk.
  destruct (expire_links time (entries c) (lru c)) as [es l]. exact Hk.
Qed.

(** A store that succeeds: the key holds the value, stamped with the reading
    of the store plus the time-to-live; one reading was taken. *)
Lemma setitem_ok c k v c' :
  setitem timer c k v = (Ok tt, c') ->
  lookup k (entries c') = Some (v, timer (reads c) + ttl c)
  /\ reads c' = S (reads c) /\ ttl c' = ttl c /\ maxsize c' = maxsize c.
Proof.
  unfold setitem, tick. cbv beta iota.
  set (c0 := {| maxsize := maxsize c; ttl := ttl c; entries := entries c;
                lru := lru c; reads := S (reads c) |}).
  set (time := timer (reads c)).
  pose proof (shrinks_expire_at time c0) as (A1 & B1 & C1 & _).
  destruct (1 >? maxsize (expire_at time c0)); [discriminate|].
  assert (Hstore : forall c2, shrinks (expire_at time c0) c2 ->
            (Ok tt,
             with_links c2
               (remove_key k (entries c2) ++ [(k, (v, time + ttl c2))])
               (remove_str k (lru c2) ++ [k])) = (Ok tt, c') ->
            lookup k (entries c') = Some (v, time + ttl c)
            /\ reads c' = S (reads c) /\ ttl c' = ttl c /\ maxsize c' = maxsize c).
  { intros c2 (A2 & B2 & C2 & _) Heq. inversion Heq; subst c'. simpl.
    rewrite B2, B1. simpl. split.
    - apply lookup_app_new. apply lookup_remove_same.
    - rewrite C2, C1, A2, A1. auto. }
  destruct (has_link (expire_at time c0) k).
  - apply Hstore. apply shrinks_refl.
  - pose proof (shrinks_make_room (S (length (entries (expire_at time c0))))
                  time (expire_at time c0)) as Hm.
    destruct (make_room _ time (expire_at time c0)) as [[u|e] c2];
      cbv beta iota; [|discriminate].
    apply Hstore. exact Hm.
Qed.

(** A store for a key other than [k] succeeds and keeps the entry of [k]
    when that entry has not expired and the cache has room. *)
Lemma setitem_keeps c k k' v' x e c' r :
  setitem timer c k' v' = (r, c') ->
  k <> k' ->
  lookup k (entries c) = Some (x, e) -> timer (reads c) < e ->
  Z.of_nat (length (entries c)) + 1 <= maxsize c ->
  r = Ok tt
  /\ lookup k (entries c') = Some (x, e)
  /\ (length (entries c') <= S (length (entries c)))%nat
  /\ reads c' = S (reads c) /\ ttl c' = ttl c /\ maxsize c' = maxsize c.
Proof.
  unfold setitem, tick. cbv beta iota.
  set (c0 := {| maxsize := maxsize c; ttl := ttl c; entries := entries c;
                lru := lru c; reads := S (reads c) |}).
  set (time := timer (reads c)).
  intros Heq Hk Hl Ht Hroom.
  pose proof (shrinks_expire_at time c0) as (A1 & B1 & C1 & _ & E1).
  pose proof (expire_at_keeps time c0 k x e Hl Ht) as Hl1.
  simpl in A1, B1, C1, E1.
  assert (Hm : (1 >? maxsize (expire_at time c0)) = false).
  { rewrite Z.gtb_ltb. apply Z.ltb_ge. rewrite A1. lia. }
  rewrite Hm in Heq.
  assert (Hroom1 : Z.of_nat (length (entries (expire_at time c0))) + 1
                   <= maxsize (expire_at time c0)) by (rewrite A1; lia).
  rewrite (make_room_enough _ time _ Hroom1) in Heq.
  assert (Heq' : (Ok tt,
             with_links (expire_at time c0)
               (remove_key k' (entries (expire_at time c0))
                ++ [(k', (v', time + ttl (expire_at time c0)))])
               (remove_str k' (lru (expire_at time c0)) ++ [k'])) = (r, c')).
  { destruct (has_link (expire_at time c0) k'); exact Heq. }
  inversion Heq'; subst. simpl. split; [reflexivity|]. split.
  - rewrite lookup_app_other by exact Hk.
    rewrite lookup_remove_other by exact Hk. exact Hl1.
  - split; [|auto]. rewrite length_app. simpl.
    pose proof (length_remove_key k' (entries (expire_at time c0))). lia.
Qed.

(** A store that fails adds no key. *)
Lemma setitem_raise c k v e c' :
  setitem timer c k v = (Raise e, c') ->
  (forall k0, lookup k0 (entries c) = None -> lookup k0 (entries c') = None)
  /\ (length (entries c') <= length (entries c))%nat
  /\ reads c' = S (reads c) /\ ttl c' = ttl c /\ maxsize c' = maxsize c.
Proof.
  unfold setitem, tick. cbv beta iota.
  set (c0 := {| maxsize := maxsize c; ttl := ttl c; entries := entries c;
                lru := lru c; reads := S (reads c) |}).
  set (time := timer (reads c)).
  pose proof (shrinks_expire_at time c0) as H1.
  assert (Hs : forall c2, shrinks c0 c2 ->
     (forall k0, lookup k0 (entries c) = None -> lookup k0 (entries c2) = None)
     /\ (length (entries c2) <= length (entries c))%nat
     /\ reads c2 = S (reads c) /\ ttl c2 = ttl c /\ maxsize c2 = maxsize c).
  { intros c2 (A & B & C & D & E). simpl in *. auto. }
  destruct (1 >? maxsize (expire_at time c0)).
  { intros Heq. inversion Heq; subst. apply Hs. exact H1. }
  destruct (has_link (expire_at time c0) k); [discriminate|].
  pose proof (shrinks_make_room (S (length (entries (expire_at time c0))))
                time (expire_at time c0)) as Hm.
  destruct (make_room _ time (expire_at time c0)) as [[u|e0] c2];
    cbv beta iota; [discriminate|].
  intros Heq. inversion Heq; subst. apply Hs.
  exact (shrinks_trans _ _ _ H1 Hm).
Qed.

End CacheFrames.

(** ** The loops end on their own *)

Section Fuel.

Variable V : Type.
Implicit Types (c : TTLCache V) (k : string).

Lemma remove_key_shorter k (es : list (string * (V * Z))) x :
  lookup k es = Some x -> (length (remove_key k es) < length es)%nat.
Proof.
  induction es as [|[k0 y] es IH]; simpl; [discriminate|].
  destruct (String.eqb k k0) eqn:E; simpl.
  - intros _. pose proof (length_remove_key k es). unfold remove_key in *. lia.
  - intros H. specialize (IH H). unfold remove_key in *. lia.
Qed.

Lemma popitem_at_shorter time c kv c' :
  popitem_at time c = (Ok kv, c') ->
  (length (entries c') < length (entries c))%nat.
Proof.
  unfold popitem_at.
  pose proof (shrinks_expire_at V time c) as (_ & _ & _ & _ & He).
  destruct (lru (expire_at time c)) as [|k l]; [discriminate|].
  unfold pop_at, contains_at, getitem_at, delitem_at.
  destruct (lookup k (entries (expire_at time c))) as [[v e]|] eqn:El;
    [|discriminate].
  destruct (time <? e) eqn:Et; [|discriminate]. simpl. rewrite El, Et.
  intros H. inversion H; subst. simpl.
  pose proof (remove_key_shorter k _ _ El) as Hs.
  unfold remove_key in *. simpl in *. lia.
Qed.

(** More fuel than entries is all [make_room] and [clear_loop] ever use. *)
Lemma make_room_fuel fuel extra time c :
  (length (entries c) < fuel)%nat ->
  make_room (fuel + extra) time c = make_room fuel time c.
Proof.
  revert c. induction fuel as [|fuel IH]; intros c Hl; [lia|]. simpl.
  destruct (Z.of_nat (length (entries c)) + 1 >? maxsize c); [|reflexivity].
  destruct (popitem_at time c) as [[kv|e] c1] eqn:Ep; [|reflexivity].
  apply IH. pose proof (popitem_at_shorter _ _ _ _ Ep). lia.
Qed.

Lemma clear_loop_fuel fuel extra time c :
  (length (entries c) < fuel)%nat ->
  clear_loop (fuel + extra) time c = clear_loop fuel time c.
Proof.
  revert c. induction fuel as [|fuel IH]; intros c Hl; [lia|]. simpl.
  destruct (popitem_at time c) as [[kv|e] c1] eqn:Ep; [|reflexivity].
  apply IH. pose proof (popitem_at_shorter _ _ _ _ Ep). lia.
Qed.

End Fuel.

(** ** The retry decorator *)

Section RetryFacts.

Context {A : Type}.
Variable fn : M A.

(** The decorator, attempt by attempt: at most three runs of [fn], a sleep
    of 1 before the second and of 2 before the third. *)
Lemma retry_unfold (w : World) :
  retry fn w =
  match fn w with
  | (Ok a, w1) => (Ok a, w1)
  | (Raise e1, w1) =>
      if retry_if_exception_type e1 then
        match fn (after_sleep 1 w1) with
        | (Ok a, w2) => (Ok a, w2)
        | (Raise e2, w2) =>
            if retry_if_exception_type e2 then
              match fn (after_sleep 2 w2) with
              | (Ok a, w3) => (Ok a, w3)
              | (Raise e3, w3) =>
                  if retry_if_exception_type e3
                  then (Raise (RetryError e3), w3)
                  else (Raise e3, w3)
              end
            else (Raise e2, w2)
        end
      else (Raise e1, w1)
  end.
Proof.
  unfold retry, after_sleep.
  cbn [retrying sleep stop_after_attempt Nat.leb].
  change (wait_exponential 1 1 10 1) with 1.
  change (wait_exponential 1 1 10 2) with 2.
  repeat match goal with
         | |- context [match fn ?x with _ => _ end] =>
             destruct (fn x) as [[?|?] ?]
         | |- context [if retry_if_exception_type ?e then _ else _] =>
             destruct (retry_if_exception_type e)
         end; reflexivity.
Qed.

Lemma retry_first_ok (w w1 : World) (a : A) :
  fn w = (Ok a, w1) -> retry fn w = (Ok a, w1).
Proof. intros H. rewrite retry_unfold, H. reflexivity. Qed.

Lemma retry_first_raise (w w1 : World) (e : Exn) :
  fn w = (Raise e, w1) -> retry_if_exception_type e = false ->
  retry fn w = (Raise e, w1).
Proof. intros H He. rewrite retry_unfold, H, He. reflexivity. Qed.

(** An invariant of the attempts and of the sleeps holds after the call. *)
Lemma retry_inv (P Q : World -> Prop) :
  (forall w, P w -> Q w) ->
  (forall w d, P w -> P (after_sleep d w)) ->
  (forall w r w1, fn w = (r, w1) -> P w ->
     match r with Ok _ => Q w1 | Raise _ => P w1 end) ->
  forall w, P w -> Q (snd (retry fn w)).
Proof.
  intros HPQ Hsleep Hfn w HP. rewrite retry_unfold.
  destruct (fn w) as [[a|e1] w1] eqn:E1; pose proof (Hfn _ _ _ E1 HP) as H1;
    simpl in H1; [exact H1|].
  destruct (retry_if_exception_type e1); [|apply HPQ; exact H1].
  pose proof (Hsleep _ 1 H1) as H1'.
  destruct (fn (after_sleep 1 w1)) as [[a|e2] w2] eqn:E2;
    pose proof (Hfn _ _ _ E2 H1') as H2; simpl in H2; [exact H2|].
  destruct (retry_if_exception_type e2); [|apply HPQ; exact H2].
  pose proof (Hsleep _ 2 H2) as H2'.
  destruct (fn (after_sleep 2 w2)) as [[a|e3] w3] eqn:E3;
    pose proof (Hfn _ _ _ E3 H2') as H3; simpl in H3; [exact H3|].
  destruct (retry_if_exception_type e3); apply HPQ; exact H3.
Qed.

(** A call that returns does so from an attempt that returned, made in a
    world that failed attempts and sleeps lead to. *)
Lemma retry_ok_inv (P : World -> Prop) (w w' : World) (a : A) :
  (forall w d, P w -> P (after_sleep d w)) ->
  (forall w e w1, fn w = (Raise e, w1) -> P w -> P w1) ->
  P w -> retry fn w = (Ok a, w') ->
  exists w0, P w0 /\ fn w0 = (Ok a, w').
Proof.
  intros Hsleep Hfn HP. rewrite retry_unfold.
  destruct (fn w) as [[a1|e1] w1] eqn:E1.
  { intros H; inversion H; subst. exists w. split; assumption. }
  pose proof (Hfn _ _ _ E1 HP) as H1.
  destruct (retry_if_exception_type e1); [|discriminate].
  pose proof (Hsleep _ 1 H1) as H1'.
  destruct (fn (after_sleep 1 w1)) as [[a2|e2] w2] eqn:E2.
  { intros H; inversion H; subst. eexists. split; [exact H1'|exact E2]. }
  pose proof (Hfn _ _ _ E2 H1') as H2.
  destruct (retry_if_exception_type e2); [|discriminate].
  pose proof (Hsleep _ 2 H2) as H2'.
  destruct (fn (after_sleep 2 w2)) as [[a3|e3] w3] eqn:E3.
  { intros H; inversion H; subst. eexists. split; [exact H2'|exact E3]. }
  destruct (retry_if_exception_type e3); discriminate.
Qed.

End RetryFacts.

Lemma retry_fmap {A B : Type} (f : A -> B) (fn : M A) (w : World) :
  retry (fmap f fn) w = fmap f (retry fn) w.
Proof.
  unfold fmap at 2. rewrite !retry_unfold. unfold fmap.
  destruct (fn w) as [[a|e1] w1]; [reflexivity|].
  destruct (retry_if_exception_type e1); [|reflexivity].
  destruct (fn (after_sleep 1 w1)) as [[a|e2] w2]; [reflexivity|].
  destruct (retry_if_exception_type e2); [|reflexivity].
  destruct (fn (after_sleep 2 w2)) as [[a|e3] w3]; [reflexivity|].
  destruct (retry_if_exception_type e3); reflexivity.
Qed.

(** Three units of fuel are all the decorator ever uses. *)
Lemma retrying_fuel {A : Type} (extra : nat) (fn : M A) (w : World) :
  retrying retry_if_exception_type (stop_after_attempt 3)
           (wait_exponential 1 1 10) (3 + extra) 1 fn w
  = retry fn w.
Proof.
  unfold retry. cbn [retrying Nat.add sleep stop_after_attempt Nat.leb].
  repeat match goal with
         | |- context [match fn ?x with _ => _ end] =>
             destruct (fn x) as [[?|?] ?]
         | |- context [if retry_if_exception_type ?e then _ else _] =>
             destruct (retry_if_exception_type e)
         end; reflexivity.
Qed.

Lemma wait_exponential_first : wait_exponential 1 1 10 1 = 1.
Proof. reflexivity. Qed.

(** The back-off doubles from one attempt to the next, up to 10. *)
Lemma wait_exponential_doubles (n : nat) :
  (1 <= n)%nat ->
  wait_exponential 1 1 10 (S n) = Z.min (2 * wait_exponential 1 1 10 n) 10.
Proof.
  intros Hn. unfold wait_exponential.
  replace (Z.of_nat (S n) - 1) with (Z.succ (Z.of_nat n - 1)) by lia.
  rewrite Z.pow_succ_r by lia.
  assert (Hp : 0 < 2 ^ (Z.of_nat n - 1)) by (apply Z.pow_pos_nonneg; lia).
  lia.
Qed.

(** ** The error handler *)

Section Handler.

Variable env : Env.

Lemma handle_success (response : Response) :
  is_success response = true -> _handle_response_error env response = Ok tt.
Proof. intros H. unfold _handle_response_error. rewrite H. reflexivity. Qed.

(** A response that is not a success always makes the handler raise. *)
Lemma handle_failure_raises (response : Response) :
  is_success response = false ->
  exists e, _handle_response_error env response = Raise e.
Proof.
  intros H. unfold _handle_response_error. rewrite H.
  repeat match goal with
         | |- context [if ?b then _ else _] => destruct b
         | |- context [match ?x with _ => _ end] => destruct x
         end; eexists; reflexivity.
Qed.

(** What the handler raises is an exception the decorator retries exactly
    when the status is 500 or more. *)
Lemma handle_retryable (response : Response) (e : Exn) :
  _handle_response_error env response = Raise e ->
  retry_if_exception_type e = (500 <=? status_code response).
Proof.
  unfold _handle_response_error.
  destruct (is_success response) eqn:Hs; [discriminate|].
  destruct (status_code response =? 401) eqn:E1.
  { apply Z.eqb_eq in E1. rewrite E1. intros H; inversion H; reflexivity. }
  destruct (status_code response =? 403) eqn:E2.
  { apply Z.eqb_eq in E2. rewrite E2. intros H; inversion H; reflexivity. }
  destruct (status_code response =? 404) eqn:E3.
  { apply Z.eqb_eq in E3. rewrite E3. intros H; inversion H; reflexivity. }
  destruct (status_code response =? 409) eqn:E4.
  { apply Z.eqb_eq in E4. rewrite E4. unfold new_IncompatibleSchemaError.
    repeat match goal with
           | |- context [match ?x with _ => _ end] => destruct x
           end; intros H; inversion H; reflexivity. }
  destruct (status_code response =? 429) eqn:E5.
  { apply Z.eqb_eq in E5. rewrite E5.
    repeat match goal with
           | |- context [match ?x with _ => _ end] => destruct x
           end; intros H; inversion H; reflexivity. }
  destruct (status_code response >=? 500) eqn:E6.
  { intros H; inversion H; subst. simpl. symmetry. apply Z.leb_le.
    apply Z.geb_le in E6. exact E6. }
  intros H; inversion H; subst. simpl. symmetry. apply Z.leb_gt.
  rewrite Z.geb_leb in E6. apply Z.leb_gt in E6. exact E6.
Qed.

Lemma is_success_status (response : Response) :
  is_success response = true <->
  200 <= status_code response <= 299.
Proof.
  unfold is_success. rewrite andb_true_iff, !Z.leb_le. tauto.
Qed.

End Handler.

(** The statuses the policy never retries. *)
Lemma definitive_status (env : Env) (response : Response) :
  In (status_code response) [400; 401; 403; 404; 409; 429] ->
  exists e, _handle_response_error env response = Raise e /\
            retry_if_exception_type e = false.
Proof.
  intros Hin.
  assert (Hs : is_success response = false).
  { unfold is_success. simpl in Hin.
    destruct Hin as [H|[H|[H|[H|[H|[H|[]]]]]]]; rewrite <- H; reflexivity. }
  destruct (handle_failure_raises env response Hs) as [e He].
  exists e. split; [exact He|].
  rewrite (handle_retryable env response e He).
  simpl in Hin.
  destruct Hin as [H|[H|[H|[H|[H|[H|[]]]]]]]; rewrite <- H; reflexivity.
Qed.

(** For the other statuses that carry the message, a body that is not JSON
    gives a registry error whose message is the raw text. *)
Lemma unparsed_body_message (env : Env) (response : Response) :
  json response = None -> is_success response = false ->
  status_code response <> 409 -> status_code response <> 429 ->
  exists e, _handle_response_error env response = Raise (Registry e) /\
    (e = AuthenticationError (JStr (text response)) \/
     e = AuthorizationError (JStr (text response)) \/
     e = SchemaNotFoundError (JStr (text response)) \/
     e = ServerError (JStr (text response)) \/
     e = SchemaRegistryError (JStr (text response)) (Some (status_code response))).
Proof.
  intros Hj Hs H409 H429. unfold _handle_response_error, error_message.
  rewrite Hs, Hj.
  destruct (status_code response =? 409) eqn:E4; [apply Z.eqb_eq in E4; contradiction|].
  destruct (status_code response =? 429) eqn:E5; [apply Z.eqb_eq in E5; contradiction|].
  repeat match goal with
         | |- context [if ?b then _ else _] => destruct b
         end; eexists; split; try reflexivity; tauto.
Qed.

(** ** Reasoning about the monad [M] *)

Section HoareRules.

Context {A B : Type}.
Implicit Types (P : World -> Prop).

Lemma hoare_ret P (a : A) (Q : Result A -> World -> Prop) :
  (forall w, P w -> Q (Ok a) w) -> hoare P (ret a) Q.
Proof. intros H w HP. apply H. exact HP. Qed.

Lemma hoare_lift P (r : Result A) (Q : Result A -> World -> Prop) :
  (forall w, P w -> Q r w) -> hoare P (lift r) Q.
Proof. intros H w HP. apply H. exact HP. Qed.

Lemma hoare_bind P (P' : A -> World -> Prop) (m : M A) (k : A -> M B)
    (Q : Result B -> World -> Prop) :
  hoare P m (fun r w => match r with
                        | Ok a => P' a w
                        | Raise e => Q (Raise e) w
                        end) ->
  (forall a, hoare (P' a) (k a) Q) ->
  hoare P (bind m k) Q.
Proof.
  intros Hm Hk w HP. specialize (Hm w HP). unfold bind.
  destruct (m w) as [[a|e] w1]; simpl in *.
  - apply Hk. exact Hm.
  - exact Hm.
Qed.

Lemma hoare_conseq P P' (m : M A) (Q Q' : Result A -> World -> Prop) :
  (forall w, P w -> P' w) -> hoare P' m Q' ->
  (forall r w, Q' r w -> Q r w) -> hoare P m Q.
Proof. intros H1 Hm H2 w HP. apply H2, Hm, H1, HP. Qed.

Lemma hoare_fmap P (f : A -> B) (m : M A) (Q : Result B -> World -> Prop) :
  hoare P m (fun r w => match r with
                        | Ok a => Q (Ok (f a)) w
                        | Raise e => Q (Raise e) w
                        end) ->
  hoare P (fmap f m) Q.
Proof.
  intros Hm w HP. specialize (Hm w HP). unfold fmap.
  destruct (m w) as [[a|e] w1]; exact Hm.
Qed.

End HoareRules.

(** The decorator keeps what every attempt and every sleep keeps. *)
Lemma hoare_retry {A : Type} (P : World -> Prop) (fn : M A)
    (Q : Result A -> World -> Prop) :
  (forall w d, P w -> P (after_sleep d w)) ->
  hoare P fn (fun r w => match r with
                         | Ok a => Q (Ok a) w
                         | Raise e =>
                             P w /\ Q (Raise e) w /\ Q (Raise (RetryError e)) w
                         end) ->
  hoare P (retry fn) Q.
Proof.
  intros Hsleep Hfn w HP. rewrite retry_unfold.
  pose proof (Hfn w HP) as H1.
  destruct (fn w) as [[a|e1] w1]; simpl in H1; [exact H1|].
  destruct H1 as (H1 & H1r & _).
  destruct (retry_if_exception_type e1); [|exact H1r].
  pose proof (Hfn _ (Hsleep _ 1 H1)) as H2.
  destruct (fn (after_sleep 1 w1)) as [[a|e2] w2]; simpl in H2; [exact H2|].
  destruct H2 as (H2 & H2r & _).
  destruct (retry_if_exception_type e2); [|exact H2r].
  pose proof (Hfn _ (Hsleep _ 2 H2)) as H3.
  destruct (fn (after_sleep 2 w2)) as [[a|e3] w3]; simpl in H3; [exact H3|].
  destruct H3 as (_ & H3r & H3e).
  destruct (retry_if_exception_type e3); assumption.
Qed.

(** ** Primitive steps *)

Section Primitives.

Variable env : Env.

Lemma send_timed_out (req : Request) (w : World) :
  transport env (length (requests w)) req = TimedOut ->
  send env req w = (Raise TimeoutException, sent req w).
Proof. intros H. unfold send. rewrite H. reflexivity. Qed.

Lemma send_responded (req : Request) (w : World) (response : Response) :
  transport env (length (requests w)) req = Responded response ->
  send env req w = (Ok response, sent req w).
Proof. intros H. unfold send. rewrite H. reflexivity. Qed.

Lemma hoare_send (P : World -> Prop) (req : Request)
    (Q : Result Response -> World -> Prop) :
  (forall w, P w ->
     match transport env (length (requests w)) req with
     | TimedOut => Q (Raise TimeoutException) (sent req w)
     | Failed => Q (Raise TransportError) (sent req w)
     | Responded r => Q (Ok r) (sent req w)
     end) ->
  hoare P (send env req) Q.
Proof.
  intros H w HP. specialize (H w HP). unfold send.
  destruct (transport env (length (requests w)) req); exact H.
Qed.

(** An exchange that the service answers with an error status: the attempt
    ends with what the handler raises, one request sent. *)
Lemma exchange_raises {A : Type} (req : Request) (k : Response -> M A)
    (w : World) (response : Response) (e : Exn) :
  transport env (length (requests w)) req = Responded response ->
  _handle_response_error env response = Raise e ->
  (response <- send env req ;;
   lift (_handle_response_error env response) ;;; k response) w
  = (Raise e, sent req w).
Proof.
  intros Ht He. unfold bind at 1. rewrite (send_responded _ _ _ Ht).
  unfold bind, lift. rewrite He. reflexivity.
Qed.

End Primitives.

(** ** Reading a run backwards *)

Section Inversion.

Variable env : Env.

Lemma bind_ok_inv {A B : Type} (m : M A) (k : A -> M B) (w w' : World) (b : B) :
  bind m k w = (Ok b, w') ->
  exists a w1, m w = (Ok a, w1) /\ k a w1 = (Ok b, w').
Proof.
  unfold bind. destruct (m w) as [[a|e] w1]; [|discriminate].
  intros H. exists a, w1. auto.
Qed.

Lemma bind_raise_inv {A B : Type} (m : M A) (k : A -> M B) (w w' : World)
    (e : Exn) :
  bind m k w = (Raise e, w') ->
  m w = (Raise e, w') \/
  exists a w1, m w = (Ok a, w1) /\ k a w1 = (Raise e, w').
Proof.
  unfold bind. destruct (m w) as [[a|e0] w1].
  - intros H. right. exists a, w1. auto.
  - intros H. left. inversion H. reflexivity.
Qed.

Lemma lift_inv {A : Type} (r r' : Result A) (w w' : World) :
  lift r w = (r', w') -> r = r' /\ w' = w.
Proof. unfold lift. intros H. inversion H. auto. Qed.

Lemma ret_inv {A : Type} (a : A) (r : Result A) (w w' : World) :
  ret a w = (r, w') -> r = Ok a /\ w' = w.
Proof. unfold ret. intros H. inversion H. auto. Qed.

Lemma send_ok_inv (req : Request) (w w' : World) (response : Response) :
  send env req w = (Ok response, w') ->
  transport env (length (requests w)) req = Responded response
  /\ w' = sent req w.
Proof.
  unfold send. destruct (transport env (length (requests w)) req);
    intros H; inversion H; auto.
Qed.

Lemma send_raise_inv (req : Request) (w w' : World) (e : Exn) :
  send env req w = (Raise e, w') ->
  retry_if_exception_type e = transient (transport env (length (requests w)) req)
  /\ w' = sent req w.
Proof.
  unfold send. destruct (transport env (length (requests w)) req);
    intros H; inversion H; auto.
Qed.

Lemma cache_contains_inv (k : string) (w w' : World) (r : Result bool) :
  cache_contains env k w = (r, w') ->
  r = Ok (fst (contains (monotonic env) (cache w) k))
  /\ w' = set_cache (snd (contains (monotonic env) (cache w) k)) w.
Proof.
  unfold cache_contains. destruct (contains (monotonic env) (cache w) k).
  intros H. inversion H. auto.
Qed.

Lemma cache_getitem_inv (k : string) (w w' : World) (r : Result GetSchemaResponse) :
  cache_getitem env k w = (r, w') ->
  exists c', getitem (monotonic env) (cache w) k = (r, c') /\ w' = set_cache c' w.
Proof.
  unfold cache_getitem. destruct (getitem (monotonic env) (cache w) k) as [r0 c'].
  intros H. inversion H. eauto.
Qed.

Lemma cache_setitem_inv (k : string) (v : GetSchemaResponse) (w w' : World)
    (r : Result unit) :
  cache_setitem env k v w = (r, w') ->
  exists c', setitem (monotonic env) (cache w) k v = (r, c') /\ w' = set_cache c' w.
Proof.
  unfold cache_setitem. destruct (setitem (monotonic env) (cache w) k v) as [r0 c'].
  intros H. inversion H. eauto.
Qed.

Lemma cache_delitem_inv (k : string) (w w' : World) (r : Result unit) :
  cache_delitem env k w = (r, w') ->
  exists c', delitem (monotonic env) (cache w) k = (r, c') /\ w' = set_cache c' w.
Proof.
  unfold cache_delitem. destruct (delitem (monotonic env) (cache w) k) as [r0 c'].
  intros H. inversion H. eauto.
Qed.

End Inversion.

(** ** Computations that send nothing *)

Create HintDb quiet.

Section Quiet.

Variable env : Env.

Lemma quiet_ret {A : Type} (a : A) : quiet (ret a).
Proof. intros w. split; [reflexivity|exact I]. Qed.

Lemma quiet_lift {A : Type} (r : Result A) : benign_result r -> quiet (lift r).
Proof. intros H w. split; [reflexivity|exact H]. Qed.

Lemma quiet_bind {A B : Type} (m : M A) (k : A -> M B) :
  quiet m -> (forall a, quiet (k a)) -> quiet (bind m k).
Proof.
  intros Hm Hk w. specialize (Hm w). unfold bind.
  destruct (m w) as [[a|e] w1]; simpl in *; [|exact Hm].
  destruct Hm as [Hm _]. rewrite <- Hm. apply Hk.
Qed.

Lemma quiet_if {A : Type} (b : bool) (m1 m2 : M A) :
  quiet m1 -> quiet m2 -> quiet (if b then m1 else m2).
Proof. destruct b; auto. Qed.

Lemma quiet_cache_contains k : quiet (cache_contains env k).
Proof.
  intros w. unfold cache_contains.
  destruct (contains (monotonic env) (cache w) k). split; [reflexivity|exact I].
Qed.

Lemma quiet_cache_getitem k : quiet (cache_getitem env k).
Proof.
  intros w. unfold cache_getitem.
  pose proof (getitem_benign _ (monotonic env) (cache w) k) as H.
  destruct (getitem (monotonic env) (cache w) k). split; [reflexivity|exact H].
Qed.

Lemma quiet_cache_delitem k : quiet (cache_delitem env k).
Proof.
  intros w. unfold cache_delitem.
  pose proof (delitem_benign _ (monotonic env) (cache w) k) as H.
  destruct (delitem (monotonic env) (cache w) k). split; [reflexivity|exact H].
Qed.

Lemma quiet_cache_setitem k v : quiet (cache_setitem env k v).
Proof.
  intros w. unfold cache_setitem.
  pose proof (setitem_benign _ (monotonic env) (cache w) k v) as H.
  destruct (setitem (monotonic env) (cache w) k v). split; [reflexivity|exact H].
Qed.

Lemma quiet_clear_cache : quiet (clear_cache env).
Proof. intros w. split; [reflexivity|exact I]. Qed.

Lemma response_json_benign (response : Response) :
  benign_result (response_json response).
Proof. unfold response_json. destruct (json response); [exact I|reflexivity]. Qed.

Lemma construct_benign {T : Type} (init : dict -> option T) (data : Json) :
  benign_result (construct init data).
Proof.
  unfold construct. destruct data; try reflexivity.
  destruct (init fields); [exact I|reflexivity].
Qed.

Lemma construct_all_benign {T : Type} (init : dict -> option T) (data : Json) :
  benign_result (construct_all init data).
Proof.
  unfold construct_all. destruct (py_iter data) as [l|]; [|reflexivity].
  induction l as [|x l IH]; simpl; [exact I|].
  pose proof (construct_benign init x) as Hx.
  destruct (construct init x); [|exact Hx].
  destruct (construct_each init l); [exact I|exact IH].
Qed.

End Quiet.

#[local] Hint Resolve quiet_ret quiet_bind quiet_if quiet_cache_contains
  quiet_cache_getitem quiet_cache_delitem quiet_cache_setitem quiet_clear_cache
  quiet_lift response_json_benign construct_benign construct_all_benign : quiet.

(** ** Attempts and the failures they meet *)

Section Polite.

Variable env : Env.

Lemma polite_of_quiet {A : Type} (m : M A) : quiet m -> polite env m.
Proof.
  intros Hq w e w1 H. destruct (Hq w) as [Hr Hb]. rewrite H in Hr, Hb.
  simpl in Hr, Hb. unfold met_transient, sent_by. rewrite Hr, nth_error_self.
  exact Hb.
Qed.

Lemma polite_quiet_bind {A B : Type} (m : M A) (k : A -> M B) :
  quiet m -> (forall a, polite env (k a)) -> polite env (bind m k).
Proof.
  intros Hq Hk w e w1. destruct (Hq w) as [Hr Hb]. unfold bind.
  destruct (m w) as [[a|e0] w0]; simpl in Hr, Hb.
  - intros H. rewrite (Hk a w0 e w1 H). unfold met_transient, sent_by.
    rewrite Hr. reflexivity.
  - intros H. inversion H; subst. unfold met_transient, sent_by.
    rewrite Hr, nth_error_self. exact Hb.
Qed.

Lemma polite_fmap {A B : Type} (f : A -> B) (m : M A) :
  polite env m -> polite env (fmap f m).
Proof.
  intros Hm w e w1. unfold fmap. specialize (Hm w).
  destruct (m w) as [[a|e0] w0]; [discriminate|].
  intros H. inversion H; subst. apply Hm. reflexivity.
Qed.

Lemma met_transient_sent (req : Request) (w w1 : World) :
  requests w1 = (requests w ++ [req])%list ->
  met_transient env w w1 = transient (transport env (length (requests w)) req).
Proof.
  intros H. unfold met_transient, sent_by. rewrite H, nth_error_snoc. reflexivity.
Qed.

(** Send, check the status, then go on quietly. *)
Lemma polite_exchange {A : Type} (req : Request) (k : Response -> M A) :
  (forall response, quiet (k response)) ->
  polite env (response <- send env req ;;
              lift (_handle_response_error env response) ;;; k response).
Proof.
  intros Hk w e w1. unfold bind at 1. unfold send.
  destruct (transport env (length (requests w)) req) as [| |response] eqn:Et.
  - intros H. inversion H; subst.
    rewrite (met_transient_sent req) by reflexivity. rewrite Et. reflexivity.
  - intros H. inversion H; subst.
    rewrite (met_transient_sent req) by reflexivity. rewrite Et. reflexivity.
  - unfold bind, lift.
    destruct (_handle_response_error env response) as [u|e0] eqn:Eh.
    + assert (Hs : is_success response = true).
      { destruct (is_success response) eqn:Hs; [reflexivity|].
        destruct (handle_failure_raises env response Hs) as [e1 He1].
        congruence. }
      destruct (Hk response (sent req w)) as [Hr Hb]. unfold sent in Hr, Hb.
      intros H. rewrite H in Hr, Hb. simpl in Hr, Hb.
      rewrite (met_transient_sent req) by exact Hr.
      rewrite Et. simpl. rewrite Hs. exact Hb.
    + intros H. inversion H; subst.
      rewrite (met_transient_sent req) by reflexivity. rewrite Et. simpl.
      rewrite (handle_retryable env response e Eh).
      destruct (is_success response) eqn:Hs; [|reflexivity].
      rewrite (handle_success env response Hs) in Eh. discriminate.
Qed.

(** Every operation is polite. *)
Lemma attempt_polite (c : Call) : polite env (attempt env c).
Proof.
  destruct c; unfold attempt; apply polite_fmap.
  - unfold Body.register_schema. apply polite_exchange. intros response.
    cbv zeta. auto 12 with quiet.
  - unfold Body.get_schema. cbv zeta. apply polite_quiet_bind.
    + destruct use_cache; auto with quiet.
    + intros [|].
      * apply polite_of_quiet. auto with quiet.
      * apply polite_exchange. intros response.
        destruct use_cache; auto 12 with quiet.
  - unfold Body.get_schema_by_version. cbv zeta. apply polite_quiet_bind.
    + auto with quiet.
    + intros [|].
      * apply polite_of_quiet. auto with quiet.
      * apply polite_exchange. intros response. auto 12 with quiet.
  - unfold Body.validate_data. cbv zeta. apply polite_exchange.
    intros response. auto 12 with quiet.
  - unfold Body.check_compatibility. cbv zeta. apply polite_exchange.
    intros response. auto 12 with quiet.
  - unfold Body.search_schemas. apply polite_exchange.
    intros response. auto 12 with quiet.
  - unfold Body.list_versions. apply polite_exchange.
    intros response. auto 12 with quiet.
  - unfold Body.delete_schema. cbv zeta. apply polite_exchange.
    intros response. auto 12 with quiet.
  - unfold Body.health_check.
    assert (H : polite env
                  (response <- send env {| method := GET; url := "/health";
                                           json_body := None; params := [] |} ;;
                   lift (_handle_response_error env response) ;;;
                   (fun r => lift (response_json r)) response)).
    { apply polite_exchange. intros response. auto with quiet. }
    exact H.
  - apply polite_of_quiet. auto with quiet.
Qed.

End Polite.

(** ** Eviction by delete_schema *)

Lemma only_drops_refl (k : string) (w : World) : only_drops k w w.
Proof. unfold only_drops. auto. Qed.

Lemma only_drops_same_cache (k : string) (w w' : World) :
  cache w' = cache w -> only_drops k w w'.
Proof. intros H. unfold only_drops. rewrite H. auto. Qed.

Lemma only_drops_trans (k : string) (w1 w2 w3 : World) :
  only_drops k w1 w2 -> only_drops k w2 w3 -> only_drops k w1 w3.
Proof.
  intros (Ha & Hb & Hc & Hd) (Ha' & Hb' & Hc' & Hd').
  split; [|split; [|split]].
  - intros k' Hk. rewrite Ha' by exact Hk. apply Ha. exact Hk.
  - congruence.
  - congruence.
  - destruct Hd' as [H|H]; [left; exact H|].
    destruct Hd as [H0|H0]; [left|right]; congruence.
Qed.

Lemma invalidate_spec (env : Env) (k : string) (w : World) :
  only_drops k w (snd (invalidate env k w))
  /\ requests (snd (invalidate env k w)) = requests w
  /\ sleeps (snd (invalidate env k w)) = sleeps w
  /\ (fst (invalidate env k w) = Ok tt ->
      dropped_or_expired env k (snd (invalidate env k w))).
Proof.
  unfold invalidate, bind, cache_contains, cache_delitem, ret,
    dropped_or_expired.
  destruct (lookup k (entries (cache w))) as [[v e]|] eqn:El.
  2:{ rewrite (contains_absent _ _ _ _ El). simpl.
      split; [unfold only_drops; simpl; auto|].
      split; [reflexivity|]. split; [reflexivity|].
      intros _. left. exact El. }
  rewrite (contains_present _ _ _ _ _ _ El).
  destruct (monotonic env (reads (cache w)) <? e) eqn:Et.
  - assert (El' : lookup k (entries (cache (set_cache (ticked (monotonic env) (cache w)) w)))
                  = Some (v, e)) by exact El.
    rewrite (delitem_present _ _ _ _ _ _ El'). simpl.
    assert (Hd : only_drops k w
                   (set_cache (unlink k (ticked (monotonic env)
                                 (ticked (monotonic env) (cache w)))) w)).
    { unfold only_drops. simpl. split; [|split; [|split]]; auto.
      - intros k' Hk. apply lookup_remove_other. exact Hk.
      - left. apply lookup_remove_same. }
    split; [exact Hd|]. split; [reflexivity|]. split; [reflexivity|].
    intros _. left. apply lookup_remove_same.
  - simpl. split; [unfold only_drops; simpl; auto|].
    split; [reflexivity|]. split; [reflexivity|].
    intros _. right. exists v, e. split; [exact El|].
    apply Z.ltb_ge in Et. exact Et.
Qed.

Lemma hoare_invalidate (env : Env) (k : string) (w : World) :
  hoare (only_drops k w) (invalidate env k)
        (fun r w1 => only_drops k w w1 /\
                     (r = Ok tt -> dropped_or_expired env k w1)).
Proof.
  intros w0 Hp. destruct (invalidate_spec env k w0) as (H1 & _ & _ & H4).
  split; [exact (only_drops_trans _ _ _ _ Hp H1)|exact H4].
Qed.

Lemma delete_attempt_spec (env : Env) (id : string) (w : World) :
  hoare (only_drops (id_key id) w) (Body.delete_schema env id)
        (fun r w1 => only_drops (id_key id) w w1 /\
                     (r = Ok tt -> dropped_or_expired env (id_key id) w1)).
Proof.
  set (req := {| method := DELETE; url := "/api/v1/schemas/" ++ id;
                 json_body := None; params := [] |}).
  change (Body.delete_schema env id)
    with (response <- send env req ;;
          lift (_handle_response_error env response) ;;;
          invalidate env (id_key id)).
  apply hoare_bind with (P' := fun _ => only_drops (id_key id) w).
  { apply hoare_send. intros w0 Hp.
    destruct (transport env (length (requests w0)) req);
      try (split; [exact Hp|discriminate]). exact Hp. }
  intros response.
  apply hoare_bind with (P' := fun _ => only_drops (id_key id) w).
  { apply hoare_lift. intros w0 Hp.
    destruct (_handle_response_error env response);
      [exact Hp|split; [exact Hp|discriminate]]. }
  intros _. apply hoare_invalidate.
Qed.

(** ** The two cached reads *)

Lemma get_schema_cached (env : Env) (schema_id : string) :
  Body.get_schema env schema_id true
  = cached_fetch env (id_key schema_id) (id_url schema_id).
Proof. reflexivity. Qed.

Lemma get_schema_by_version_cached (env : Env) (namespace name version : string) :
  Body.get_schema_by_version env namespace name version
  = cached_fetch env (version_key namespace name version)
                 (version_url namespace name version).
Proof. reflexivity. Qed.

Section CachedFetch.

Variable env : Env.
Variables (key url : string).

Lemma cached_fetch_absent (w : World) :
  lookup key (entries (cache w)) = None ->
  cached_fetch env key url w
  = fetch_and_store env key url (set_cache (cache w) w).
Proof.
  intros H. unfold cached_fetch, bind at 1, cache_contains.
  rewrite (contains_absent _ _ _ _ H). reflexivity.
Qed.

Lemma cached_fetch_stale (w : World) (v : GetSchemaResponse) (e : Z) :
  lookup key (entries (cache w)) = Some (v, e) ->
  e <= monotonic env (reads (cache w)) ->
  cached_fetch env key url w
  = fetch_and_store env key url
      (set_cache (ticked (monotonic env) (cache w)) w).
Proof.
  intros H Ht. unfold cached_fetch, bind at 1, cache_contains.
  rewrite (contains_present _ _ _ _ _ _ H).
  apply Z.ltb_ge in Ht. rewrite Ht. reflexivity.
Qed.

Lemma cached_fetch_live (w : World) (v : GetSchemaResponse) (e : Z) :
  lookup key (entries (cache w)) = Some (v, e) ->
  monotonic env (reads (cache w)) < e ->
  cached_fetch env key url w
  = (if monotonic env (S (reads (cache w))) <? e
     then Ok v else Raise (KeyError key),
     set_cache (move_to_end key
                  (ticked (monotonic env) (ticked (monotonic env) (cache w)))) w).
Proof.
  intros H Ht. unfold cached_fetch, bind at 1, cache_contains.
  rewrite (contains_present _ _ _ _ _ _ H).
  apply Z.ltb_lt in Ht. rewrite Ht. unfold cache_getitem.
  assert (H' : lookup key (entries (cache (set_cache
                 (ticked (monotonic env) (cache w)) w))) = Some (v, e))
    by exact H.
  rewrite (getitem_present _ _ _ _ _ _ H'). reflexivity.
Qed.

(** The miss path sends exactly one request, the GET of [url]. *)
Lemma fetch_and_store_requests (w : World) :
  requests (snd (fetch_and_store env key url w))
  = (requests w ++ [get_request url])%list.
Proof.
  unfold fetch_and_store, bind at 1, send. fold (get_request url).
  destruct (transport env (length (requests w)) (get_request url))
    as [| |response]; try reflexivity.
  unfold bind at 1, lift at 1.
  destruct (_handle_response_error env response); [|reflexivity].
  match goal with
  | |- requests (snd (?k ?w0)) = _ =>
      assert (Hq : quiet k) by auto 12 with quiet;
      destruct (Hq w0) as [Hr _]; exact Hr
  end.
Qed.

(** What a fetch that returns has done: the service answered with a success
    whose body decodes to the record, and the record was stored under the
    key, stamped with the reading of the store plus the time-to-live. *)
Lemma fetch_and_store_ok (w w' : World) (r : GetSchemaResponse) :
  fetch_and_store env key url w = (Ok r, w') ->
  lookup key (entries (cache w'))
  = Some (r, monotonic env (reads (cache w)) + ttl (cache w))
  /\ reads (cache w') = S (reads (cache w))
  /\ ttl (cache w') = ttl (cache w)
  /\ exists response data,
       transport env (length (requests w)) (get_request url) = Responded response
       /\ is_success response = true
       /\ json response = Some data
       /\ construct (init_GetSchemaResponse env) data = Ok r.
Proof.
  unfold fetch_and_store. fold (get_request url). intros H.
  apply bind_ok_inv in H. destruct H as (response & w1 & Hs & H).
  apply send_ok_inv in Hs. destruct Hs as [Et ->].
  apply bind_ok_inv in H. destruct H as (u & w2 & Hh & H).
  apply lift_inv in Hh. destruct Hh as [Hh ->].
  apply bind_ok_inv in H. destruct H as (data & w3 & Hj & H).
  apply lift_inv in Hj. destruct Hj as [Hj ->].
  apply bind_ok_inv in H. destruct H as (result & w4 & Hc & H).
  apply lift_inv in Hc. destruct Hc as [Hc ->].
  apply bind_ok_inv in H. destruct H as (u' & w5 & Hset & H).
  apply cache_setitem_inv in Hset. destruct Hset as (c' & Hset & ->).
  inversion H; subst. destruct u'.
  destruct (setitem_ok _ _ _ _ _ _ Hset) as (H1 & H2 & H3 & _).
  split; [exact H1|]. split; [exact H2|]. split; [exact H3|].
  exists response, data. split; [exact Et|]. split; [|split; [|exact Hc]].
  - destruct (is_success response) eqn:Hsu; [reflexivity|].
    destruct (handle_failure_raises env response Hsu) as [e1 He1]. congruence.
  - unfold response_json in Hj. destruct (json response); congruence.
Qed.

(** A fetch that raises adds no key to the cache. *)
Lemma fetch_and_store_raise (w w' : World) (e : Exn) :
  fetch_and_store env key url w = (Raise e, w') ->
  forall k0, lookup k0 (entries (cache w)) = None ->
             lookup k0 (entries (cache w')) = None.
Proof.
  unfold fetch_and_store. fold (get_request url). intros H k0 Hk.
  apply bind_raise_inv in H. destruct H as [H|(response & w1 & Hs & H)].
  { apply send_raise_inv in H. destruct H as [_ ->]. exact Hk. }
  apply send_ok_inv in Hs. destruct Hs as [Et ->].
  apply bind_raise_inv in H. destruct H as [H|(u & w2 & Hh & H)].
  { apply lift_inv in H. destruct H as [_ ->]. exact Hk. }
  apply lift_inv in Hh. destruct Hh as [Hh ->].
  apply bind_raise_inv in H. destruct H as [H|(data & w3 & Hj & H)].
  { apply lift_inv in H. destruct H as [_ ->]. exact Hk. }
  apply lift_inv in Hj. destruct Hj as [Hj ->].
  apply bind_raise_inv in H. destruct H as [H|(result & w4 & Hc & H)].
  { apply lift_inv in H. destruct H as [_ ->]. exact Hk. }
  apply lift_inv in Hc. destruct Hc as [Hc ->].
  apply bind_raise_inv in H. destruct H as [H|(u' & w5 & Hset & H)].
  - apply cache_setitem_inv in H. destruct H as (c' & Hset & ->).
    destruct (setitem_raise _ _ _ _ _ _ _ Hset) as (H1 & _).
    apply H1. exact Hk.
  - discriminate.
Qed.

End CachedFetch.

Lemma grows_same (w w' : World) : requests w' = requests w -> grows w w'.
Proof. intros H. exists []. rewrite H. symmetry. apply app_nil_r. Qed.

Lemma grows_refl (w : World) : grows w w.
Proof. apply grows_same. reflexivity. Qed.

Lemma grows_trans (w1 w2 w3 : World) : grows w1 w2 -> grows w2 w3 -> grows w1 w3.
Proof.
  intros [l1 H1] [l2 H2]. exists (l1 ++ l2)%list.
  rewrite H2, H1. symmetry. apply app_assoc.
Qed.

Lemma retry_grows_first {A : Type} (fn : M A) :
  (forall w, grows w (snd (fn w))) ->
  forall w, grows (snd (fn w)) (snd (retry fn w)).
Proof.
  intros Hfn w. rewrite retry_unfold.
  destruct (fn w) as [[a|e1] w1]; simpl; [apply grows_refl|].
  destruct (retry_if_exception_type e1); [|apply grows_refl].
  pose proof (Hfn (after_sleep 1 w1)) as H2.
  destruct (fn (after_sleep 1 w1)) as [[a|e2] w2]; simpl in *; [exact H2|].
  destruct (retry_if_exception_type e2); [|exact H2].
  pose proof (Hfn (after_sleep 2 w2)) as H3.
  assert (H13 : grows w1 (snd (fn (after_sleep 2 w2))))
    by exact (grows_trans w1 (after_sleep 2 w2) _ H2 H3).
  destruct (fn (after_sleep 2 w2)) as [[a|e3] w3]; simpl in *; [exact H13|].
  destruct (retry_if_exception_type e3); exact H13.
Qed.

Lemma cached_fetch_grows (env : Env) (key url : string) (w : World) :
  grows w (snd (cached_fetch env key url w)).
Proof.
  destruct (lookup key (entries (cache w))) as [[v e]|] eqn:El.
  - destruct (Z_lt_le_dec (monotonic env (reads (cache w))) e) as [Ht|Ht].
    + rewrite (cached_fetch_live env key url w v e El Ht).
      apply grows_same. reflexivity.
    + rewrite (cached_fetch_stale env key url w v e El Ht).
      exists [get_request url]. rewrite fetch_and_store_requests. reflexivity.
  - rewrite (cached_fetch_absent env key url w El).
    exists [get_request url]. rewrite fetch_and_store_requests. reflexivity.
Qed.

Lemma read_cached (env : Env) (rd : Read) :
  read env rd = retry (cached_fetch env (read_key rd) (read_url rd)).
Proof. destruct rd; reflexivity. Qed.

(** ** An entry under the calls that leave it alone *)

Lemma cache_set_cache (c : TTLCache GetSchemaResponse) (w : World) :
  cache (set_cache c w) = c.
Proof. reflexivity. Qed.

(** ** Where a returned record comes from *)

(** A call of the decorated function that returns: the attempt that
    returned started in a world that every sleep and every attempt that was
    retried has kept in [P]. *)
Lemma retry_returns_from {A : Type} (fn : M A) (P : World -> Prop)
    (w w' : World) (a : A) :
  (forall w d, P w -> P (after_sleep d w)) ->
  (forall w e w1, fn w = (Raise e, w1) -> retry_if_exception_type e = true ->
                  P w -> P w1) ->
  P w -> retry fn w = (Ok a, w') ->
  exists w0, P w0 /\ fn w0 = (Ok a, w').
Proof.
  intros Hsleep Hstep Hp H. rewrite retry_unfold in H.
  destruct (fn w) as [[a1|e1] w1] eqn:E1.
  { inversion H; subst. exists w. auto. }
  destruct (retry_if_exception_type e1) eqn:R1; [|discriminate].
  pose proof (Hsleep _ 1 (Hstep _ _ _ E1 R1 Hp)) as Hp1.
  destruct (fn (after_sleep 1 w1)) as [[a2|e2] w2] eqn:E2.
  { inversion H; subst. exists (after_sleep 1 w1). auto. }
  destruct (retry_if_exception_type e2) eqn:R2; [|discriminate].
  pose proof (Hsleep _ 2 (Hstep _ _ _ E2 R2 Hp1)) as Hp2.
  destruct (fn (after_sleep 2 w2)) as [[a3|e3] w3] eqn:E3.
  { inversion H; subst. exists (after_sleep 2 w2). auto. }
  destruct (retry_if_exception_type e3); discriminate.
Qed.

Section Provenance.

Variable env : Env.
Variables (key url : string).

(** A fetch that raises an exception the decorator retries has sent its
    request and has not touched the cache. *)
Lemma fetch_and_store_retried (w w' : World) (e : Exn) :
  fetch_and_store env key url w = (Raise e, w') ->
  retry_if_exception_type e = true ->
  cache w' = cache w
  /\ requests w' = (requests w ++ [get_request url])%list.
Proof.
  unfold fetch_and_store. fold (get_request url). intros H He.
  apply bind_raise_inv in H. destruct H as [H|(response & w1 & Hs & H)].
  { apply send_raise_inv in H. destruct H as [_ ->]. split; reflexivity. }
  apply send_ok_inv in Hs. destruct Hs as [Et ->].
  apply bind_raise_inv in H. destruct H as [H|(u & w2 & Hh & H)].
  { apply lift_inv in H. destruct H as [_ ->]. split; reflexivity. }
  apply lift_inv in Hh. destruct Hh as [Hh ->].
  apply bind_raise_inv in H. destruct H as [H|(data & w3 & Hj & H)].
  { apply lift_inv in H. destruct H as [H _].
    pose proof (response_json_benign response) as Hb. rewrite H in Hb.
    simpl in Hb. unfold benign in Hb. congruence. }
  apply lift_inv in Hj. destruct Hj as [Hj ->].
  apply bind_raise_inv in H. destruct H as [H|(result & w4 & Hc & H)].
  { apply lift_inv in H. destruct H as [H _].
    pose proof (construct_benign (init_GetSchemaResponse env) data) as Hb.
    rewrite H in Hb. simpl in Hb. unfold benign in Hb. congruence. }
  apply lift_inv in Hc. destruct Hc as [Hc ->].
  apply bind_raise_inv in H. destruct H as [H|(u' & w5 & Hset & H)].
  - apply cache_setitem_inv in H. destruct H as (c' & Hset & ->).
    pose proof (setitem_benign _ (monotonic env) (cache (sent (get_request url) w))
                  key result) as Hb.
    rewrite Hset in Hb. simpl in Hb. unfold benign in Hb. congruence.
  - discriminate.
Qed.

(** An attempt that is retried has left the entries of the cache as they
    were and has taken no reading back. *)
Lemma cached_fetch_retried (w w' : World) (e : Exn) :
  cached_fetch env key url w = (Raise e, w') ->
  retry_if_exception_type e = true ->
  entries (cache w') = entries (cache w)
  /\ (reads (cache w) <= reads (cache w'))%nat.
Proof.
  intros H He.
  destruct (lookup key (entries (cache w))) as [[v e0]|] eqn:El.
  - destruct (Z_lt_le_dec (monotonic env (reads (cache w))) e0) as [Ht|Ht].
    + rewrite (cached_fetch_live env key url w v e0 El Ht) in H.
      destruct (monotonic env (S (reads (cache w))) <? e0); [discriminate|].
      inversion H; subst. discriminate.
    + rewrite (cached_fetch_stale env key url w v e0 El Ht) in H.
      destruct (fetch_and_store_retried _ _ _ H He) as [Hc _].
      rewrite Hc, cache_set_cache. simpl. split; [reflexivity|lia].
  - rewrite (cached_fetch_absent env key url w El) in H.
    destruct (fetch_and_store_retried _ _ _ H He) as [Hc _].
    rewrite Hc, cache_set_cache. split; [reflexivity|lia].
Qed.

(** Where the record of an attempt that returns comes from. *)
Lemma cached_fetch_returns (w w' : World) (r : GetSchemaResponse) :
  cached_fetch env key url w = (Ok r, w') ->
  served env key w r w' \/ fetched env key url w r w'.
Proof.
  intros H.
  destruct (lookup key (entries (cache w))) as [[v e0]|] eqn:El.
  - destruct (Z_lt_le_dec (monotonic env (reads (cache w))) e0) as [Ht|Ht].
    + left. rewrite (cached_fetch_live env key url w v e0 El Ht) in H.
      destruct (monotonic env (S (reads (cache w))) <? e0) eqn:Et2;
        [|discriminate].
      inversion H; subst. exists e0. split; [exact El|].
      split; [exact Ht|]. split; [apply Z.ltb_lt; exact Et2|reflexivity].
    + right. rewrite (cached_fetch_stale env key url w v e0 El Ht) in H.
      pose proof (fetch_and_store_requests env key url
                    (set_cache (ticked (monotonic env) (cache w)) w)) as Hr.
      rewrite H in Hr. simpl in Hr.
      destruct (fetch_and_store_ok env key url _ _ _ H)
        as (H1 & H2 & H3 & response & data & Ht' & Hs & Hj & Hc).
      split.
      { intros v1 e1 Hl. rewrite El in Hl. inversion Hl; subst. exact Ht. }
      exists response, data. simpl in Ht'.
      split; [exact Ht'|]. split; [exact Hs|]. split; [exact Hj|].
      split; [exact Hc|]. split; [exact Hr|].
      rewrite H1, H2, H3. reflexivity.
  - right. rewrite (cached_fetch_absent env key url w El) in H.
    pose proof (fetch_and_store_requests env key url
                  (set_cache (cache w) w)) as Hr.
    rewrite H in Hr. simpl in Hr.
    destruct (fetch_and_store_ok env key url _ _ _ H)
      as (H1 & H2 & H3 & response & data & Ht' & Hs & Hj & Hc).
    split.
    { intros v1 e1 Hl. rewrite El in Hl. discriminate. }
    exists response, data. simpl in Ht'.
    split; [exact Ht'|]. split; [exact Hs|]. split; [exact Hj|].
    split; [exact Hc|]. split; [exact Hr|].
    rewrite H1, H2, H3. reflexivity.
Qed.

End Provenance.

Section Survives.

Variable env : Env.
Variables (id : string) (r : GetSchemaResponse) (e : Z).
Abbreviation key := (id_key id).
Variables (lo hi : nat).

(** Every reading of the clock from the [lo]-th to the [hi]-th (excluded)
    is earlier than the stamp [e]. *)
Hypothesis fresh :
  forall i, (lo <= i)%nat -> (i < hi)%nat -> monotonic env i < e.

Abbreviation holds := (holds_entry id r e).
Abbreviation J := (survives id r e lo hi).
Abbreviation steady := (keeps_surviving id r e lo hi).

Ltac norm :=
  unfold survives, holds_entry, ticked;
  cbn [entries reads maxsize ttl lru unlink move_to_end tick snd fst with_links];
  rewrite ?cache_set_cache;
  cbn [entries reads maxsize ttl lru unlink move_to_end tick snd fst with_links].

Lemma J_weaken (n : nat) (w : World) : J (S n) w -> J n w.
Proof.
  intros [Hlo Hh]. split; [exact Hlo|]. intros Hr.
  destruct (Hh Hr) as [Hl Hroom]. split; [exact Hl|]. lia.
Qed.

Lemma J_same_cache (n : nat) (w w' : World) :
  cache w' = cache w -> J n w -> J n w'.
Proof. intros H. unfold J. rewrite H. auto. Qed.

Lemma hoare_J_contains (n : nat) (k' : string) (Q : Result bool -> World -> Prop) :
  hoare (J n) (cache_contains env k')
    (fun res w' =>
       match res with
       | Ok hit => J n w' /\
                   (k' = key -> hit = false -> (hi < reads (cache w'))%nat)
       | Raise e0 => Q (Raise e0) w'
       end).
Proof.
  intros w [Hlo Hh]. unfold cache_contains.
  destruct (lookup k' (entries (cache w))) as [[v' e']|] eqn:El.
  - rewrite (contains_present _ _ _ _ _ _ El). norm. split.
    + split; [lia|]. intros Hr. apply Hh. lia.
    + intros -> Hhit. destruct (le_lt_dec (S (reads (cache w))) hi) as [Hr|Hr];
        [|exact Hr].
      exfalso. destruct Hh as [Hl _]; [lia|]. rewrite Hl in El.
      inversion El; subst.
      assert (Ht : monotonic env (reads (cache w)) < e') by (apply fresh; lia).
      apply Z.ltb_lt in Ht. congruence.
  - rewrite (contains_absent _ _ _ _ El). norm. split.
    + split; assumption.
    + intros -> _. destruct (le_lt_dec (reads (cache w)) hi) as [Hr|Hr];
        [|exact Hr].
      destruct (Hh Hr) as [Hl _]. congruence.
Qed.

Lemma hoare_J_getitem (n : nat) (k' : string) :
  hoare (J n) (cache_getitem env k') (fun _ => J n).
Proof.
  intros w [Hlo Hh]. unfold cache_getitem.
  destruct (lookup k' (entries (cache w))) as [[v' e']|] eqn:El.
  - rewrite (getitem_present _ _ _ _ _ _ El). norm.
    split; [lia|]. intros Hr. apply Hh. lia.
  - rewrite (getitem_absent _ _ _ _ El). norm. split; assumption.
Qed.

Lemma hoare_J_delitem (n : nat) (k' : string) :
  k' <> key -> hoare (J n) (cache_delitem env k') (fun _ => J n).
Proof.
  intros Hk w [Hlo Hh]. unfold cache_delitem.
  destruct (lookup k' (entries (cache w))) as [[v' e']|] eqn:El.
  - rewrite (delitem_present _ _ _ _ _ _ El). norm.
    split; [lia|]. intros Hr. destruct Hh as [Hl Hroom]; [lia|].
    split.
    + rewrite lookup_remove_other by congruence. exact Hl.
    + pose proof (length_remove_key k' (entries (cache w))). lia.
  - rewrite (delitem_absent _ _ _ _ El). norm. split; assumption.
Qed.

Lemma hoare_J_setitem (n : nat) (k' : string) (v : GetSchemaResponse) :
  hoare (fun w => J (S n) w /\ (k' = key -> (hi < reads (cache w))%nat))
        (cache_setitem env k' v)
        (fun res w' => match res with
                       | Ok _ => J n w'
                       | Raise _ => J (S n) w'
                       end).
Proof.
  intros w [[Hlo Hh] Hbeyond]. unfold cache_setitem.
  destruct (setitem (monotonic env) (cache w) k' v) as [res c'] eqn:Es. norm.
  assert (Hreads : reads c' = S (reads (cache w))).
  { destruct res as [[]|e0].
    - apply (setitem_ok _ _ _ _ _ _ Es).
    - apply (setitem_raise _ _ _ _ _ _ _ Es). }
  assert (Hin : (S (reads (cache w)) <= hi)%nat ->
                res = Ok tt /\ holds n c').
  { intros Hr. destruct Hh as [Hl Hroom]; [lia|].
    assert (Hk : key <> k').
    { intros <-. specialize (Hbeyond eq_refl). lia. }
    assert (Ht : monotonic env (reads (cache w)) < e) by (apply fresh; lia).
    destruct (setitem_keeps _ _ _ _ _ _ _ _ _ _ Es Hk Hl Ht)
      as (H0 & H1 & H2 & _ & _ & H5); [lia|].
    split; [exact H0|]. split; [exact H1|]. rewrite H5. lia. }
  destruct res as [u|e0].
  - split; [lia|]. rewrite Hreads. intros Hr. apply Hin. exact Hr.
  - split; [lia|]. rewrite Hreads. intros Hr.
    destruct (Hin Hr) as [Hc _]. discriminate.
Qed.

Create HintDb steady.

Lemma steady_ret {A : Type} (n : nat) (a : A) : steady n (ret a).
Proof. intros w H. exact H. Qed.

Lemma steady_lift {A : Type} (n : nat) (res : Result A) : steady n (lift res).
Proof. intros w H. exact H. Qed.

Lemma steady_send (n : nat) (req : Request) : steady n (send env req).
Proof.
  intros w H. unfold send.
  destruct (transport env (length (requests w)) req); exact H.
Qed.

Lemma steady_bind {A B : Type} (n : nat) (m : M A) (k : A -> M B) :
  steady n m -> (forall a, steady n (k a)) -> steady n (bind m k).
Proof.
  intros Hm Hk w H. specialize (Hm w H). unfold bind.
  destruct (m w) as [[a|e0] w1]; simpl in *; [|exact Hm].
  apply Hk. exact Hm.
Qed.

Lemma steady_if {A : Type} (n : nat) (b : bool) (m1 m2 : M A) :
  steady n m1 -> steady n m2 -> steady n (if b then m1 else m2).
Proof. destruct b; auto. Qed.

Lemma steady_fmap {A B : Type} (n : nat) (f : A -> B) (m : M A) :
  steady n m -> steady n (fmap f m).
Proof.
  intros Hm w H. specialize (Hm w H). unfold fmap.
  destruct (m w) as [[a|e0] w1]; exact Hm.
Qed.

Lemma steady_contains (n : nat) (k' : string) : steady n (cache_contains env k').
Proof.
  intros w H.
  pose proof (hoare_J_contains n k' (fun _ => J n) w H) as Hc.
  destruct (fst (cache_contains env k' w)); [exact (proj1 Hc)|exact Hc].
Qed.

Lemma steady_delitem (n : nat) (k' : string) :
  k' <> key -> steady n (cache_delitem env k').
Proof. apply hoare_J_delitem. Qed.

Lemma steady_retry {A : Type} (n : nat) (m : M A) :
  steady n m -> steady n (retry m).
Proof.
  intros Hm. apply hoare_retry.
  - intros w d H. exact H.
  - intros w H. specialize (Hm w H). destruct (fst (m w)); auto.
Qed.

#[local] Hint Resolve steady_ret steady_lift steady_send steady_bind steady_if
  steady_fmap steady_contains steady_delitem : steady.

Lemma steady_getitem (n : nat) (k' : string) : steady n (cache_getitem env k').
Proof. apply hoare_J_getitem. Qed.

(** A miss stores one entry. *)
Lemma hoare_J_fetch_and_store (n : nat) (k' url : string) :
  hoare (fun w => J (S n) w /\ (k' = key -> (hi < reads (cache w))%nat))
        (fetch_and_store env k' url)
        (fun res w' => match res with
                       | Ok _ => J n w'
                       | Raise _ => J (S n) w'
                       end).
Proof.
  set (Pre := fun w => J (S n) w /\ (k' = key -> (hi < reads (cache w))%nat)).
  unfold fetch_and_store. fold (get_request url).
  apply hoare_bind with (P' := fun _ => Pre).
  { apply hoare_send. intros w HP.
    destruct (transport env (length (requests w)) (get_request url));
      first [exact (proj1 HP) | exact HP]. }
  intros response. apply hoare_bind with (P' := fun _ => Pre).
  { apply hoare_lift. intros w HP.
    destruct (_handle_response_error env response);
      first [exact (proj1 HP) | exact HP]. }
  intros _. apply hoare_bind with (P' := fun _ => Pre).
  { apply hoare_lift. intros w HP.
    destruct (response_json response); first [exact (proj1 HP) | exact HP]. }
  intros data. apply hoare_bind with (P' := fun _ => Pre).
  { apply hoare_lift. intros w HP.
    destruct (construct (init_GetSchemaResponse env) data);
      first [exact (proj1 HP) | exact HP]. }
  intros result. apply hoare_bind with (P' := fun _ => J n).
  { apply hoare_J_setitem. }
  intros _. apply hoare_ret. auto.
Qed.

Lemma hoare_J_cached_fetch (n : nat) (k' url : string) :
  hoare (J (S n)) (cached_fetch env k' url)
        (fun res w' => match res with
                       | Ok _ => J n w'
                       | Raise _ => J (S n) w'
                       end).
Proof.
  unfold cached_fetch.
  apply hoare_bind
    with (P' := fun hit w => J (S n) w /\
                  (k' = key -> hit = false -> (hi < reads (cache w))%nat)).
  { exact (hoare_J_contains (S n) k' (fun _ w => J (S n) w)). }
  intros [|].
  - eapply hoare_conseq; [|apply (steady_getitem (S n))|].
    + intros w [H _]. exact H.
    + intros [a|e0] w H; [apply J_weaken|]; exact H.
  - eapply hoare_conseq; [|apply hoare_J_fetch_and_store|].
    + intros w [H1 H2]. split; [exact H1|]. intros Hk. apply H2; auto.
    + auto.
Qed.

(** Every allowed call keeps the entry and uses up its share of the room. *)
Lemma hoare_J_attempt (n : nat) (c : Call) :
  keeps id c ->
  hoare (J (stores c + n)) (attempt env c)
        (fun res w' => match res with
                       | Ok _ => J n w'
                       | Raise _ => J (stores c + n) w'
                       end).
Proof.
  assert (Hsteady : forall m : M Answer, steady n m ->
            hoare (J n) m (fun res w' => match res with
                                         | Ok _ => J n w'
                                         | Raise _ => J n w'
                                         end)).
  { intros m Hm w H. specialize (Hm w H). destruct (fst (m w)); exact Hm. }
  destruct c; simpl; intros Hk; unfold attempt.
  - apply Hsteady. apply steady_fmap. unfold Body.register_schema. cbv zeta.
    auto 15 with steady.
  - destruct use_cache.
    + apply hoare_fmap. rewrite get_schema_cached.
      eapply hoare_conseq; [|apply (hoare_J_cached_fetch n)|].
      * intros w H. exact H.
      * intros [a|e0] w H; exact H.
    + apply Hsteady. apply steady_fmap.
      change (Body.get_schema env schema_id false)
        with (response <- send env (get_request (id_url schema_id)) ;;
              lift (_handle_response_error env response) ;;;
              data <- lift (response_json response) ;;
              result <- lift (construct (init_GetSchemaResponse env) data) ;;
              ret tt ;;; ret result).
      auto 15 with steady.
  - apply hoare_fmap. rewrite get_schema_by_version_cached.
    eapply hoare_conseq; [|apply (hoare_J_cached_fetch n)|].
    + intros w H. exact H.
    + intros [a|e0] w H; exact H.
  - apply Hsteady. apply steady_fmap. unfold Body.validate_data. cbv zeta.
    auto 15 with steady.
  - apply Hsteady. apply steady_fmap. unfold Body.check_compatibility. cbv zeta.
    auto 15 with steady.
  - apply Hsteady. apply steady_fmap. unfold Body.search_schemas.
    auto 15 with steady.
  - apply Hsteady. apply steady_fmap. unfold Body.list_versions.
    auto 15 with steady.
  - apply Hsteady. apply steady_fmap. unfold Body.delete_schema. cbv zeta.
    assert (Hne : id_key schema_id <> key).
    { intros H. apply id_key_inj in H. contradiction. }
    auto 15 with steady.
  - apply Hsteady. apply steady_fmap. unfold Body.health_check.
    auto 15 with steady.
  - contradiction.
Qed.

Lemma hoare_J_call (n : nat) (c : Call) :
  keeps id c -> hoare (J (stores c + n)) (call env c) (fun _ => J n).
Proof.
  intros Hk.
  assert (Hn : forall w, J (stores c + n) w -> J n w).
  { intros w. destruct (stores c) as [|[|s]] eqn:Es; simpl; auto.
    - apply J_weaken.
    - destruct c as [| |? ? ?| | | | | | |]; try discriminate.
      destruct use_cache; discriminate. }
  assert (Hr : hoare (J (stores c + n)) (retry (attempt env c)) (fun _ => J n)).
  { apply hoare_retry.
    - intros w d H. exact H.
    - intros w H. pose proof (hoare_J_attempt n c Hk w H) as Ha.
      destruct (fst (attempt env c w)); auto. }
  destruct c; exact Hr.
Qed.

Lemma J_run (calls : list Call) :
  Forall (keeps id) calls ->
  forall w, J (budget calls) w -> J 0 (run env calls w).
Proof.
  induction 1 as [|c calls Hc Hcs IH]; intros w H; simpl; [exact H|].
  apply IH. exact (hoare_J_call (budget calls) c Hc w H).
Qed.

End Survives.

(** A [get_schema] (with the cache) that returns leaves its record in the
    cache, under the key of the id. *)
Lemma get_schema_leaves_entry (env : Env) (id : string) (w w1 : World)
    (r : GetSchemaResponse) :
  get_schema env id true w = (Ok r, w1) ->
  exists e, lookup (id_key id) (entries (cache w1)) = Some (r, e).
Proof.
  unfold get_schema. rewrite get_schema_cached. intros H.
  apply (retry_ok_inv _ (fun _ => True)) in H; auto.
  destruct H as (w0 & _ & Hfn).
  destruct (lookup (id_key id) (entries (cache w0))) as [[v e0]|] eqn:El.
  - destruct (Z_lt_le_dec (monotonic env (reads (cache w0))) e0) as [Ht|Ht].
    + rewrite (cached_fetch_live env _ _ w0 v e0 El Ht) in Hfn.
      destruct (monotonic env (S (reads (cache w0))) <? e0); [|discriminate].
      inversion Hfn; subst. exists e0. exact El.
    + rewrite (cached_fetch_stale env _ _ w0 v e0 El Ht) in Hfn.
      destruct (fetch_and_store_ok env _ _ _ _ _ Hfn) as (H1 & _).
      eexists. exact H1.
  - rewrite (cached_fetch_absent env _ _ w0 El) in Hfn.
    destruct (fetch_and_store_ok env _ _ _ _ _ Hfn) as (H1 & _).
    eexists. exact H1.
Qed.

(** A version that is rejected stops the registration before any request. *)
Lemma rejected_version_sends_nothing (env : Env) (namespace name v : string)
    (format : SchemaFormat) (content : string) (w : World) (e : Exn) :
  validate_version v = Raise e ->
  register_version env namespace name v format content w
  = (Raise ValidationError, w).
Proof.
  intros H. unfold register_version, bind, lift, new_Schema. rewrite H.
  reflexivity.
Qed.

Lemma conflict_raises_intro (env : Env) (w : World) (response : Response)
    (v : Json) :
  _handle_response_error env response
  = Raise (Registry (IncompatibleSchemaError v)) ->
  conflict_raises env w response v.
Proof.
  intros H. split; [exact H|]. split.
  - intros schema_id new_schema_content mode req Ht.
    unfold check_compatibility. apply retry_first_raise; [|reflexivity].
    unfold Body.check_compatibility.
    apply (exchange_raises env req _ w response _ Ht H).
  - intros schema req Ht.
    unfold register_schema. apply retry_first_raise; [|reflexivity].
    unfold Body.register_schema.
    apply (exchange_raises env req _ w response _ Ht H).
Qed.

(* ================================================================= *)
(** * The claims *)

(** ** C1: register and the entries of get_schema_by_version *)

(** C1. After [get_schema_by_version("telemetry", "Event", "1.0.0")] has
    cached its answer, a successful [register_schema] for telemetry.Event
    leaves that entry in the cache, and the next [get_schema_by_version] is
    answered from it: the call returns the old record and no third request
    is sent.  The code evicts the key "telemetry.Event", under which nothing
    is ever stored. *)
Theorem register_leaves_version_entry :
  let env := scripted ticking [respond 200 "" (Some event_record);
                               respond 201 "" (Some registered)] in
  let w0 := fresh 3 300 1000 in
  exists r r' w1 w2 w3,
    get_schema_by_version env "telemetry" "Event" "1.0.0" w0 = (Ok r, w1) /\
    register_schema env event_schema w1 = (Ok r', w2) /\
    get_schema_by_version env "telemetry" "Event" "1.0.0" w2 = (Ok r, w3) /\
    register_key event_schema = "telemetry.Event" /\
    lookup (version_key "telemetry" "Event" "1.0.0") (entries (cache w2))
      = Some (r, 300) /\
    length (requests w2) = 2%nat /\
    requests w3 = requests w2.
Proof.
  do 5 eexists. repeat split; reflexivity.
Qed.

(** ** C2: the handler on a body that is not JSON *)

(** C2. On a 409 response whose body is not JSON the handler raises
    [UnboundLocalError], not a registry error: the [except] branch leaves
    [error_data] unbound and the 409 branch reads it.  The same exception
    reaches the caller of [check_compatibility]. *)
Theorem conflict_with_unparsed_body (env : Env) (body : string)
    (retry_after : option string) :
  _handle_response_error env
    {| status_code := 409; text := body; json := None;
       retry_after := retry_after |}
  = Raise (UnboundLocalError "error_data")
  /\ fst (check_compatibility (scripted ticking [respond 409 "Conflict" None])
            "id-1" "{}" BACKWARD (fresh 3 300 1000))
     = Raise (UnboundLocalError "error_data").
Proof. split; reflexivity. Qed.

(** ** C3: the attempt budget *)

(** C3. Whatever [max_retries] the client was built with, a call against a
    service that always answers 500 makes exactly three attempts and then
    raises [RetryError]: the decorator is built with [stop_after_attempt(3)]
    and never reads [self.max_retries]. *)
Theorem attempts_ignore_max_retries (max_retries : Z) :
  let env := scripted ticking (repeat (respond 500 "boom" None) 10) in
  let w := fresh max_retries 300 1000 in
  Client.max_retries (self w) = max_retries /\
  fst (health_check env w) = Raise (RetryError (Registry (ServerError (JStr "boom")))) /\
  length (requests (snd (health_check env w))) = 3%nat /\
  sleeps (snd (health_check env w)) = [1; 2].
Proof. repeat split; reflexivity. Qed.

(** ** C4: what the not-found error carries *)

(** C4. The handler builds [SchemaNotFoundError] from the message of the
    response; it is never given the identifier of the call.  So
    [get_schema] and [delete_schema] for the id
    00000000-0000-0000-0000-000000000000, answered 404 with the message
    "no such schema", raise a not-found error whose [schema_id] is
    "no such schema". *)
Theorem not_found_carries_message (env : Env) (body : string)
    (decoded : option Json) (retry_after : option string) :
  let response := {| status_code := 404; text := body; json := decoded;
                     retry_after := retry_after |} in
  _handle_response_error env response
  = Raise (Registry (SchemaNotFoundError (error_message response)))
  /\
  let answer := respond 404 "{}" (Some (JObj [("message", JStr "no such schema")])) in
  let id := "00000000-0000-0000-0000-000000000000" in
  fst (get_schema (scripted ticking [answer]) id true (fresh 3 300 1000))
  = Raise (Registry (SchemaNotFoundError (JStr "no such schema")))
  /\
  fst (delete_schema (scripted ticking [answer]) id (fresh 3 300 1000))
  = Raise (Registry (SchemaNotFoundError (JStr "no such schema"))).
Proof. repeat split; reflexivity. Qed.

(** ** C5: the retry policy *)

(** C5. For every operation of the client and every world:
    - the call is the decorated body ([clear_cache], which is not decorated
      and never raises, included): at most three attempts, the second after
      a sleep of 1 and the third after a sleep of 2, and a failed attempt is
      followed by another exactly when the decorator's predicate accepts the
      exception (and the budget of three is not spent), an exception it does
      not accept being raised as it is;
    - the predicate accepts a timeout and [ServerError] only;
    - a failed attempt raises an accepted exception exactly when the request
      it sent timed out or was answered with a status of 500 or more;
    - a 400, 401, 403, 404, 409 or 429 answer always raises an exception the
      predicate rejects;
    - the back-off starts at 1 and doubles up to the ceiling of 10. *)
Theorem retry_policy (env : Env) (c : Call) (w : World) :
  call env c w = retry (attempt env c) w
  /\ retry (attempt env c) w =
     match attempt env c w with
     | (Ok a, w1) => (Ok a, w1)
     | (Raise e1, w1) =>
         if retry_if_exception_type e1 then
           match attempt env c (after_sleep 1 w1) with
           | (Ok a, w2) => (Ok a, w2)
           | (Raise e2, w2) =>
               if retry_if_exception_type e2 then
                 match attempt env c (after_sleep 2 w2) with
                 | (Ok a, w3) => (Ok a, w3)
                 | (Raise e3, w3) =>
                     if retry_if_exception_type e3
                     then (Raise (RetryError e3), w3)
                     else (Raise e3, w3)
                 end
               else (Raise e2, w2)
           end
         else (Raise e1, w1)
     end
  /\ (forall e, retry_if_exception_type e = true <->
                e = TimeoutException \/ exists m, e = Registry (ServerError m))
  /\ (forall e w1, attempt env c w = (Raise e, w1) ->
        retry_if_exception_type e = met_transient env w w1)
  /\ (forall response,
        In (status_code response) [400; 401; 403; 404; 409; 429] ->
        exists e, _handle_response_error env response = Raise e /\
                  retry_if_exception_type e = false)
  /\ wait_exponential 1 1 10 1 = 1
  /\ (forall n, (1 <= n)%nat ->
        wait_exponential 1 1 10 (S n) = Z.min (2 * wait_exponential 1 1 10 n) 10).
Proof.
  split; [|split; [|split; [|split; [|split; [|split]]]]].
  - destruct c; reflexivity.
  - apply retry_unfold.
  - intros e. split.
    + destruct e as [r| | | | | | | | | |]; simpl; try discriminate.
      * destruct r; try discriminate. intros _. right. eexists. reflexivity.
      * intros _. left. reflexivity.
    + intros [H|[m H]]; subst; reflexivity.
  - apply attempt_polite.
  - apply definitive_status.
  - apply wait_exponential_first.
  - apply wait_exponential_doubles.
Qed.

(** A service that answers 404 once: one request, no sleep, the error of
    the first attempt. *)
Lemma retry_policy_witness :
  let env := scripted ticking [respond 404 "gone" None] in
  let w := fresh 3 300 1000 in
  call env (DeleteSchema "id-1") w = retry (attempt env (DeleteSchema "id-1")) w
  /\ retry_if_exception_type (Registry (SchemaNotFoundError (JStr "gone")))
     = met_transient env w
         (sent {| method := DELETE; url := "/api/v1/schemas/id-1";
                  json_body := None; params := [] |} w).
Proof.
  intros env w.
  destruct (retry_policy env (DeleteSchema "id-1") w)
    as (H1 & _ & _ & H4 & _).
  split.
  - exact H1.
  - apply H4. reflexivity.
Defined.

(** ** C6: the version format *)

(** C6. The version "1.0." followed by U+00B2 is not of the form
    uint.uint.uint, yet [validate_version] accepts it ([str.isdigit] holds of
    the superscript digits), the [Schema] is built and [register_schema]
    sends it. *)
Theorem superscript_version_is_sent :
  let env := scripted ticking [respond 201 "" (Some registered)] in
  VersionSpec.matches_uint3 superscript_version = false /\
  validate_version superscript_version = Ok superscript_version /\
  exists r w,
    register_version env "telemetry" "Event" superscript_version JSON_SCHEMA
                     "{}" (fresh 3 300 1000) = (Ok r, w) /\
    map url (requests w) = ["/api/v1/schemas"].
Proof.
  split; [reflexivity|]. split; [reflexivity|].
  do 2 eexists. split; reflexivity.
Qed.

(** ** C7: entries past their time-to-live *)



(** ** C8: a repeated get_schema *)




(** ** C9: the incompatibilities of a 409 response *)

(** C9. A 409 response whose JSON body has the list [l] under
    "incompatibilities" raises an incompatibility error that carries exactly
    [l]; when the body has no such field the error carries the one-element
    list of the body's message (its "message" field, or the raw text when
    that is missing too). *)
Theorem conflict_exposes_incompatibilities (env : Env) (w : World)
    (response : Response) (fields : dict) :
  status_code response = 409 ->
  json response = Some (JObj fields) ->
  (forall l, lookup "incompatibilities" fields = Some (JArr l) ->
             conflict_raises env w response (JArr l))
  /\ (lookup "incompatibilities" fields = None ->
      conflict_raises env w response
        (JArr [dict_get fields "message" (JStr (text response))])).
Proof.
  intros Hs Hj.
  assert (Hh : _handle_response_error env response
               = Raise (new_IncompatibleSchemaError
                          (dict_get fields "incompatibilities"
                             (JArr [dict_get fields "message" (JStr (text response))])))).
  { unfold _handle_response_error, is_success, error_message.
    rewrite Hs, Hj. reflexivity. }
  split.
  - intros l Hl. apply conflict_raises_intro. rewrite Hh.
    unfold dict_get at 1. rewrite Hl. reflexivity.
  - intros Hl. apply conflict_raises_intro. rewrite Hh.
    unfold dict_get at 1. rewrite Hl. reflexivity.
Qed.

Lemma conflict_exposes_incompatibilities_witness :
  check_compatibility (scripted ticking [Responded conflict_ab]) "id-1" "{}"
                      BACKWARD (fresh 3 300 1000)
  = (Raise (Registry (IncompatibleSchemaError (JArr [JStr "a"; JStr "b"]))),
     sent {| method := POST; url := "/api/v1/compatibility/check";
             json_body := Some (JObj [("schema_id", JStr "id-1");
                                      ("new_schema", JStr "{}");
                                      ("mode", JStr "backward")]);
             params := [] |} (fresh 3 300 1000)).
Proof.
  pose proof (conflict_exposes_incompatibilities
                (scripted ticking [Responded conflict_ab]) (fresh 3 300 1000)
                conflict_ab
                [("message", JStr "conflict");
                 ("incompatibilities", JArr [JStr "a"; JStr "b"])]
                eq_refl eq_refl) as [H _].
  destruct (H [JStr "a"; JStr "b"] eq_refl) as (_ & Hc & _).
  exact (Hc "id-1" "{}" BACKWARD eq_refl).
Defined.

(** ** C10: what delete_schema changes in the cache *)

(** C10. A [delete_schema(id)] that returns leaves, under every key other
    than "schema:{id}", the entry that was there (value and expiry), and in
    particular the entries of [get_schema_by_version], whose keys differ
    from "schema:{id}" whenever the id has no dot; the capacity and the
    time-to-live of the cache are unchanged; the entry of the id itself is
    gone, or was found expired and is no longer served. *)
Theorem delete_schema_frame (env : Env) (id : string) (w w' : World) :
  delete_schema env id w = (Ok tt, w') ->
  (forall k, k <> id_key id ->
     lookup k (entries (cache w')) = lookup k (entries (cache w)))
  /\ (has_char "." id = false ->
      forall namespace name version,
        lookup (version_key namespace name version) (entries (cache w'))
        = lookup (version_key namespace name version) (entries (cache w)))
  /\ maxsize (cache w') = maxsize (cache w)
  /\ ttl (cache w') = ttl (cache w)
  /\ dropped_or_expired env (id_key id) w'.
Proof.
  intros H.
  assert (Hh : hoare (only_drops (id_key id) w) (delete_schema env id)
                 (fun r w1 => only_drops (id_key id) w w1 /\
                    (r = Ok tt -> dropped_or_expired env (id_key id) w1))).
  { apply hoare_retry.
    - intros w0 d Hp. exact Hp.
    - eapply hoare_conseq; [|apply delete_attempt_spec|].
      + intros w0 Hp. exact Hp.
      + intros [u|e] w1 [Hd Hok]; simpl.
        * split; assumption.
        * split; [exact Hd|].
          split; (split; [exact Hd|discriminate]). }
  specialize (Hh w (only_drops_refl _ w)). rewrite H in Hh. simpl in Hh.
  destruct Hh as [(Ha & Hb & Hc & _) Hok].
  split; [exact Ha|]. split.
  { intros Hid namespace name version. apply Ha.
    apply version_key_not_id_key. exact Hid. }
  split; [exact Hb|]. split; [exact Hc|]. apply Hok. reflexivity.
Qed.

Lemma delete_schema_frame_witness :
  delete_schema deleting "id-1" two_entries
  = (Ok tt, snd (delete_schema deleting "id-1" two_entries))
  /\ lookup (version_key "telemetry" "Event" "1.0.0")
            (entries (cache (snd (delete_schema deleting "id-1" two_entries))))
     = lookup (version_key "telemetry" "Event" "1.0.0")
              (entries (cache two_entries))
  /\ lookup (id_key "id-1")
            (entries (cache (snd (delete_schema deleting "id-1" two_entries))))
     = None.
Proof.
  assert (H : delete_schema deleting "id-1" two_entries
              = (Ok tt, snd (delete_schema deleting "id-1" two_entries)))
    by reflexivity.
  split; [exact H|].
  destruct (delete_schema_frame deleting "id-1" two_entries _ H)
    as (_ & Hv & _).
  split; [exact (Hv eq_refl "telemetry" "Event" "1.0.0")|reflexivity].
Defined.

(* ================================================================= *)
(** * Further properties of the client *)

(** ** Invariants of the calls *)

Create HintDb preserves.

Section Preserves.

Variable env : Env.
Variable Inv : World -> Prop.

Lemma preserves_ret {A : Type} (a : A) : preserves Inv (ret a).
Proof. intros w H. exact H. Qed.

Lemma preserves_lift {A : Type} (r : Result A) : preserves Inv (lift r).
Proof. intros w H. exact H. Qed.

Lemma preserves_bind {A B : Type} (m : M A) (k : A -> M B) :
  preserves Inv m -> (forall a, preserves Inv (k a)) -> preserves Inv (bind m k).
Proof.
  intros Hm Hk. apply hoare_bind with (P' := fun _ => Inv).
  - intros w H. specialize (Hm w H). destruct (fst (m w)); exact Hm.
  - exact Hk.
Qed.

Lemma preserves_if {A : Type} (b : bool) (m1 m2 : M A) :
  preserves Inv m1 -> preserves Inv m2 -> preserves Inv (if b then m1 else m2).
Proof. destruct b; auto. Qed.

Lemma preserves_fmap {A B : Type} (f : A -> B) (m : M A) :
  preserves Inv m -> preserves Inv (fmap f m).
Proof.
  intros Hm. apply hoare_fmap. intros w H. specialize (Hm w H).
  destruct (fst (m w)); exact Hm.
Qed.

Hypothesis inv_send : forall req w, Inv w -> Inv (sent req w).

Lemma preserves_send (req : Request) : preserves Inv (send env req).
Proof.
  apply hoare_send. intros w H.
  destruct (transport env (length (requests w)) req); apply inv_send, H.
Qed.

#[local] Hint Resolve preserves_ret preserves_lift preserves_bind preserves_if
  preserves_fmap preserves_send : preserves.

(** The bodies that never touch the cache. *)
Lemma preserves_uncached (c : Call) :
  uses_cache c = false -> preserves Inv (attempt env c).
Proof.
  destruct c; simpl; try discriminate; intros Hc; unfold attempt;
    apply preserves_fmap.
  - destruct use_cache; [discriminate|].
    change (Body.get_schema env schema_id false)
      with (response <- send env (get_request (id_url schema_id)) ;;
            lift (_handle_response_error env response) ;;;
            data <- lift (response_json response) ;;
            result <- lift (construct (init_GetSchemaResponse env) data) ;;
            ret tt ;;; ret result).
    auto 15 with preserves.
  - unfold Body.validate_data. cbv zeta. auto 15 with preserves.
  - unfold Body.check_compatibility. cbv zeta. auto 15 with preserves.
  - unfold Body.search_schemas. auto 15 with preserves.
  - unfold Body.list_versions. auto 15 with preserves.
  - unfold Body.health_check. auto 15 with preserves.
Qed.

Hypothesis inv_contains : forall k, preserves Inv (cache_contains env k).
Hypothesis inv_getitem : forall k, preserves Inv (cache_getitem env k).
Hypothesis inv_delitem : forall k, preserves Inv (cache_delitem env k).
Hypothesis inv_clear : preserves Inv (clear_cache env).

#[local] Hint Resolve inv_contains inv_getitem inv_delitem inv_clear
  : preserves.

(** The bodies that store nothing in the cache. *)
Lemma preserves_unstored (c : Call) :
  stores c = O -> preserves Inv (attempt env c).
Proof.
  destruct c; simpl; try discriminate; intros Hc; unfold attempt;
    apply preserves_fmap.
  - unfold Body.register_schema. cbv zeta. auto 15 with preserves.
  - destruct use_cache; [discriminate|].
    unfold Body.get_schema. cbv zeta. auto 15 with preserves.
  - unfold Body.validate_data. cbv zeta. auto 15 with preserves.
  - unfold Body.check_compatibility. cbv zeta. auto 15 with preserves.
  - unfold Body.search_schemas. auto 15 with preserves.
  - unfold Body.list_versions. auto 15 with preserves.
  - unfold Body.delete_schema. cbv zeta. auto 15 with preserves.
  - unfold Body.health_check. auto 15 with preserves.
  - auto with preserves.
Qed.

Hypothesis inv_setitem :
  forall k v, preserves Inv (cache_setitem env ("schema:" ++ k) v).

#[local] Hint Resolve inv_setitem : preserves.

Lemma preserves_attempt (c : Call) : preserves Inv (attempt env c).
Proof.
  destruct (stores c) eqn:Es; [apply preserves_unstored, Es|].
  destruct c; try discriminate; unfold attempt; apply preserves_fmap.
  - unfold Body.get_schema. cbv zeta. destruct use_cache; auto 15 with preserves.
  - unfold Body.get_schema_by_version. cbv zeta. auto 15 with preserves.
Qed.

Hypothesis inv_sleep : forall d w, Inv w -> Inv (after_sleep d w).

Lemma preserves_retry {A : Type} (m : M A) :
  preserves Inv m -> preserves Inv (retry m).
Proof.
  intros Hm. apply hoare_retry.
  - intros w d H. apply inv_sleep, H.
  - intros w H. specialize (Hm w H). destruct (fst (m w)); auto.
Qed.

Lemma preserves_call (c : Call) : preserves Inv (call env c).
Proof.
  assert (Hr : preserves Inv (retry (attempt env c)))
    by apply preserves_retry, preserves_attempt.
  destruct c; exact Hr.
Qed.

Lemma preserves_run (calls : list Call) (w : World) :
  Inv w -> Inv (run env calls w).
Proof.
  revert w. induction calls as [|c calls IH]; intros w H; simpl; [exact H|].
  apply IH. exact (preserves_call c w H).
Qed.

End Preserves.

(** ** What the cache operations narrow *)

Section CacheNarrows.

Variable V : Type.
Variable timer : nat -> Z.
Implicit Types (c : TTLCache V) (k : string).

Lemma narrows_of_shrinks c c' : shrinks c c' -> narrows c c'.
Proof. intros (A & B & C & D & E). repeat split; auto. lia. Qed.

Lemma narrows_refl c : narrows c c.
Proof. apply narrows_of_shrinks, shrinks_refl. Qed.

Lemma narrows_trans c1 c2 c3 : narrows c1 c2 -> narrows c2 c3 -> narrows c1 c3.
Proof.
  intros (A & B & C & D & E) (A' & B' & C' & D' & E').
  repeat split; try congruence; try lia. auto.
Qed.

Lemma narrows_ticked c : narrows c (ticked timer c).
Proof. repeat split; simpl; auto. Qed.

Lemma narrows_contains c k : narrows c (snd (contains timer c k)).
Proof.
  unfold contains. destruct (has_link c k); [|apply narrows_refl].
  apply narrows_ticked.
Qed.

Lemma narrows_getitem c k : narrows c (snd (getitem timer c k)).
Proof.
  unfold getitem. destruct (has_link c k); [|apply narrows_refl].
  apply (narrows_trans _ _ _ (narrows_ticked c)).
  apply narrows_of_shrinks, shrinks_getitem_at.
Qed.

Lemma narrows_delitem c k : narrows c (snd (delitem timer c k)).
Proof.
  unfold delitem. destruct (has_link c k); [|apply narrows_refl].
  apply (narrows_trans _ _ _ (narrows_ticked c)).
  apply narrows_of_shrinks, shrinks_delitem_at.
Qed.

Lemma shrinks_clear_loop fuel time c : shrinks c (clear_loop fuel time c).
Proof.
  revert c. induction fuel as [|fuel IH]; intros c; simpl; [apply shrinks_refl|].
  pose proof (shrinks_popitem_at V time c) as Hp.
  destruct (popitem_at time c) as [[kv|e] c1]; simpl in *; [|exact Hp].
  exact (shrinks_trans _ _ _ _ Hp (IH c1)).
Qed.

Lemma narrows_clear c : narrows c (clear timer c).
Proof.
  unfold clear.
  apply (narrows_trans _ _ _ (narrows_ticked c)).
  apply narrows_of_shrinks.
  eapply shrinks_trans; [apply shrinks_expire_at|apply shrinks_clear_loop].
Qed.

Lemma narrows_setitem_raise c k v e c' :
  setitem timer c k v = (Raise e, c') -> narrows c c'.
Proof.
  intros H. destruct (setitem_raise V timer c k v e c' H) as (A & B & C & D & E).
  repeat split; auto. lia.
Qed.

(** When the loop of [__setitem__] ends without raising, there is room. *)
Lemma make_room_ok fuel time c c' :
  make_room fuel time c = (Ok tt, c') ->
  (length (entries c) < fuel)%nat ->
  Z.of_nat (length (entries c')) + 1 <= maxsize c'.
Proof.
  revert c. induction fuel as [|fuel IH]; intros c H Hl; [lia|].
  simpl in H.
  destruct (Z.of_nat (length (entries c)) + 1 >? maxsize c) eqn:Eg.
  - destruct (popitem_at time c) as [[kv|e] c1] eqn:Ep; [|discriminate].
    apply (IH c1 H). pose proof (popitem_at_shorter _ _ _ _ _ Ep). lia.
  - inversion H; subst c'. rewrite Z.gtb_ltb in Eg. apply Z.ltb_ge in Eg. exact Eg.
Qed.

Lemma length_app_one {A : Type} (l : list A) (x : A) :
  length (l ++ [x]) = S (length l).
Proof. rewrite length_app. simpl. lia. Qed.

(** A store that succeeds: bounds kept, one reading taken, no key added but
    [k], and the cache within its capacity if it was. *)
Lemma setitem_ok_narrow c k v c' :
  setitem timer c k v = (Ok tt, c') ->
  maxsize c' = maxsize c /\ ttl c' = ttl c /\ reads c' = S (reads c)
  /\ (forall k0, k0 <> k -> lookup k0 (entries c) = None ->
                 lookup k0 (entries c') = None)
  /\ (Z.of_nat (length (entries c)) <= Z.max 0 (maxsize c) ->
      Z.of_nat (length (entries c')) <= maxsize c').
Proof.
  intros H.
  destruct (setitem_ok V timer c k v c' H) as (_ & Hr & Ht & Hm).
  split; [exact Hm|]. split; [exact Ht|]. split; [exact Hr|].
  revert H. unfold setitem, tick. cbv beta iota.
  set (c0 := {| maxsize := maxsize c; ttl := ttl c; entries := entries c;
                lru := lru c; reads := S (reads c) |}).
  set (time := timer (reads c)).
  pose proof (shrinks_expire_at V time c0) as (A1 & B1 & C1 & D1 & E1).
  destruct (1 >? maxsize (expire_at time c0)) eqn:Eg; [discriminate|].
  rewrite Z.gtb_ltb in Eg. apply Z.ltb_ge in Eg.
  destruct (has_link (expire_at time c0) k) eqn:El.
  - intros Heq. inversion Heq; subst c'. simpl. split.
    + intros k0 Hne Habs. rewrite lookup_app_other by exact Hne.
      apply lookup_remove_absent. apply D1. exact Habs.
    + intros Hcap. rewrite length_app_one.
      unfold has_link in El.
      destruct (lookup k (entries (expire_at time c0))) as [x|] eqn:Ex;
        [|discriminate].
      pose proof (remove_key_shorter V k _ x Ex). simpl in *. lia.
  - pose proof (shrinks_make_room V (S (length (entries (expire_at time c0))))
                  time (expire_at time c0)) as Hs.
    destruct (make_room _ time (expire_at time c0)) as [[[]|e] c2] eqn:Em;
      cbv beta iota; [|discriminate].
    pose proof (make_room_ok _ _ _ _ Em (Nat.lt_succ_diag_r _)) as Hroom.
    clear Em.
    intros Heq. inversion Heq; subst c'. simpl.
    destruct Hs as (A2 & B2 & C2 & D2 & E2). simpl in *. split.
    + intros k0 Hne Habs. rewrite lookup_app_other by exact Hne.
      apply lookup_remove_absent. apply D2, D1. exact Habs.
    + intros _. rewrite length_app_one.
      pose proof (length_remove_key k (entries c2)). lia.
Qed.

End CacheNarrows.

(** ** Invariants of the cache *)

Section CacheInvariant.

Variable env : Env.
Variable I : TTLCache GetSchemaResponse -> Prop.
Hypothesis I_narrows : forall c c', narrows c c' -> I c -> I c'.
Hypothesis I_setitem :
  forall c k v c',
    setitem (monotonic env) c ("schema:" ++ k) v = (Ok tt, c') -> I c -> I c'.

Lemma cache_invariant_call (c : Call) :
  preserves (fun w => I (cache w)) (call env c).
Proof.
  apply preserves_call.
  - intros req w H. exact H.
  - intros k w H. unfold cache_contains.
    pose proof (narrows_contains _ (monotonic env) (cache w) k) as Hn.
    destruct (contains (monotonic env) (cache w) k) as [b c1]. simpl in *.
    rewrite cache_set_cache. exact (I_narrows _ _ Hn H).
  - intros k w H. unfold cache_getitem.
    pose proof (narrows_getitem _ (monotonic env) (cache w) k) as Hn.
    destruct (getitem (monotonic env) (cache w) k) as [b c1]. simpl in *.
    rewrite cache_set_cache. exact (I_narrows _ _ Hn H).
  - intros k w H. unfold cache_delitem.
    pose proof (narrows_delitem _ (monotonic env) (cache w) k) as Hn.
    destruct (delitem (monotonic env) (cache w) k) as [b c1]. simpl in *.
    rewrite cache_set_cache. exact (I_narrows _ _ Hn H).
  - intros w H. unfold clear_cache. simpl. rewrite cache_set_cache.
    exact (I_narrows _ _ (narrows_clear _ (monotonic env) (cache w)) H).
  - intros k v w H. unfold cache_setitem.
    destruct (setitem (monotonic env) (cache w) ("schema:" ++ k) v)
      as [[[]|e] c1] eqn:Es; simpl; rewrite cache_set_cache.
    + exact (I_setitem _ _ _ _ Es H).
    + exact (I_narrows _ _ (narrows_setitem_raise _ _ _ _ _ _ _ Es) H).
  - intros d w H. exact H.
Qed.

Lemma cache_invariant_run (calls : list Call) (w : World) :
  I (cache w) -> I (cache (run env calls w)).
Proof.
  revert w. induction calls as [|c calls IH]; intros w H; simpl; [exact H|].
  apply IH. exact (cache_invariant_call c w H).
Qed.

End CacheInvariant.

(** X1. No call changes what [__init__] has set: after any sequence of calls
    the base URL, the API key, the timeout, [max_retries], the headers and
    the capacity and time-to-live of the cache are those the client had
    before. *)
Theorem settings_are_fixed (env : Env) (calls : list Call) (w : World) :
  settings (run env calls w) = settings w.
Proof.
  assert (Hc : maxsize (cache (run env calls w)) = maxsize (cache w)
               /\ ttl (cache (run env calls w)) = ttl (cache w)).
  { apply (cache_invariant_run env
             (fun c => maxsize c = maxsize (cache w) /\ ttl c = ttl (cache w))).
    - intros c c' (A & B & _) [Hm Ht]. split; congruence.
    - intros c k v c' Hs [Hm Ht].
      destruct (setitem_ok_narrow _ _ _ _ _ _ Hs) as (A & B & _).
      split; congruence.
    - split; reflexivity. }
  assert (Hs : (base_url (self (run env calls w)), api_key (self (run env calls w)),
                timeout (self (run env calls w)),
                max_retries (self (run env calls w)),
                headers (self (run env calls w)))
               = (base_url (self w), api_key (self w), timeout (self w),
                  max_retries (self w), headers (self w))).
  { apply (preserves_run env
             (fun w' => (base_url (self w'), api_key (self w'),
                         timeout (self w'), max_retries (self w'),
                         headers (self w'))
                        = (base_url (self w), api_key (self w), timeout (self w),
                           max_retries (self w), headers (self w)))).
    - intros req w' H. exact H.
    - intros k w' H. unfold cache_contains.
      destruct (contains (monotonic env) (cache w') k). exact H.
    - intros k w' H. unfold cache_getitem.
      destruct (getitem (monotonic env) (cache w') k). exact H.
    - intros k w' H. unfold cache_delitem.
      destruct (delitem (monotonic env) (cache w') k). exact H.
    - intros w' H. exact H.
    - intros k v w' H. unfold cache_setitem.
      destruct (setitem (monotonic env) (cache w') ("schema:" ++ k) v). exact H.
    - intros d w' H. exact H.
    - reflexivity. }
  unfold settings. destruct Hc as [Hm Ht]. rewrite Hm, Ht.
  inversion Hs. reflexivity.
Qed.

(** X2. The cache of a client never holds more than [cache_maxsize] entries
    (none when [cache_maxsize] is zero or negative), whatever calls are made
    and however they end. *)
Theorem cache_within_capacity (env : Env) (base_url : string)
    (api_key : option string) (timeout max_retries cache_ttl cache_maxsize : Z)
    (calls : list Call) :
  Z.of_nat (length (entries (cache (run env calls
     (started base_url api_key timeout max_retries cache_ttl cache_maxsize)))))
  <= Z.max 0 cache_maxsize.
Proof.
  set (w := started base_url api_key timeout max_retries cache_ttl cache_maxsize).
  assert (H : maxsize (cache (run env calls w)) = cache_maxsize
              /\ Z.of_nat (length (entries (cache (run env calls w))))
                 <= Z.max 0 (maxsize (cache (run env calls w)))).
  { apply (cache_invariant_run env
             (fun c => maxsize c = cache_maxsize
                       /\ Z.of_nat (length (entries c)) <= Z.max 0 (maxsize c))).
    - intros c c' (A & _ & _ & _ & E) [Hm Hl]. split; [congruence|].
      rewrite A. lia.
    - intros c k v c' Hs [Hm Hl].
      destruct (setitem_ok_narrow _ _ _ _ _ _ Hs) as (A & _ & _ & _ & E).
      split; [congruence|]. specialize (E Hl). lia.
    - split; [reflexivity|]. simpl. lia. }
  destruct H as [Hm Hl]. rewrite Hm in Hl. exact Hl.
Qed.

(** X3. [validate_data], [check_compatibility], [search_schemas],
    [list_versions], [health_check] and [get_schema] with [use_cache=False]
    leave the client object as it is: they neither read nor write the cache,
    and take no reading of its clock. *)
Theorem uncached_calls_leave_client (env : Env) (c : Call) (w : World) :
  uses_cache c = false -> self (snd (call env c w)) = self w.
Proof.
  intros Hc.
  assert (Hr : preserves (fun w' => self w' = self w) (retry (attempt env c))).
  { apply preserves_retry.
    - intros d w' H. exact H.
    - apply preserves_uncached; [|exact Hc]. intros req w' H. exact H. }
  assert (He : call env c = retry (attempt env c)) by (destruct c; reflexivity).
  rewrite He. apply Hr. reflexivity.
Qed.

Lemma uncached_calls_leave_client_witness :
  self (snd (call (scripted ticking [respond 200 "" (Some (JObj []))])
                  HealthCheck (fresh 3 300 1000)))
  = self (fresh 3 300 1000).
Proof. apply uncached_calls_leave_client. reflexivity. Defined.

(** ** Evictions *)

Section Drops.

Variable env : Env.
Variables (k : string) (w : World).

Lemma only_drops_contains (k' : string) :
  preserves (only_drops k w) (cache_contains env k').
Proof.
  intros w1 H. unfold cache_contains.
  pose proof (narrows_contains _ (monotonic env) (cache w1) k') as Hn.
  assert (He : entries (snd (contains (monotonic env) (cache w1) k'))
               = entries (cache w1)).
  { unfold contains. destruct (has_link (cache w1) k'); reflexivity. }
  destruct (contains (monotonic env) (cache w1) k') as [b c1]. simpl in *.
  destruct Hn as (A & B & _). destruct H as (H1 & H2 & H3 & H4).
  unfold only_drops. rewrite cache_set_cache, He, A, B. auto.
Qed.

Lemma only_drops_delitem : preserves (only_drops k w) (cache_delitem env k).
Proof.
  intros w1 H. unfold cache_delitem.
  destruct (lookup k (entries (cache w1))) as [[v e]|] eqn:El.
  - rewrite (delitem_present _ _ _ _ _ _ El). simpl.
    destruct H as (H1 & H2 & H3 & H4).
    unfold only_drops. rewrite cache_set_cache. simpl.
    split; [|split; [|split]]; auto.
    + intros k' Hk. rewrite <- (H1 k' Hk). apply lookup_remove_other. exact Hk.
    + left. apply lookup_remove_same.
  - rewrite (delitem_absent _ _ _ _ El). simpl.
    eapply only_drops_trans; [exact H|]. apply only_drops_same_cache.
    apply cache_set_cache.
Qed.

Lemma only_drops_sent (req : Request) (w1 : World) :
  only_drops k w w1 -> only_drops k w (sent req w1).
Proof. intros H. exact H. Qed.

End Drops.

(** What an attempt of [register_schema] does to the cache. *)
Lemma register_attempt_drops (env : Env) (schema : Schema) (w : World) :
  preserves (only_drops (register_key schema) w)
            (Body.register_schema env schema).
Proof.
  pose proof (only_drops_contains env (register_key schema) w
                (register_key schema)) as Hc.
  pose proof (only_drops_delitem env (register_key schema) w) as Hd.
  pose proof (preserves_send env _ (only_drops_sent (register_key schema) w))
    as Hs.
  unfold Body.register_schema. cbv zeta.
  change (namespace schema ++ "." ++ name schema) with (register_key schema).
  repeat first
    [ apply preserves_bind; [|intros ?]
    | apply preserves_if
    | apply preserves_lift | apply preserves_ret
    | apply Hs | exact Hc | exact Hd ].
Qed.

(** X4. [register_schema], whatever its outcome, leaves every entry of the
    cache other than the one under "{namespace}.{name}" as it was, and so
    every entry that [get_schema_by_version] has stored for that namespace
    and name, whatever the version. *)
Theorem register_schema_frame (env : Env) (schema : Schema) (w : World) :
  (forall version,
     lookup (version_key (namespace schema) (name schema) version)
            (entries (cache (snd (register_schema env schema w))))
     = lookup (version_key (namespace schema) (name schema) version)
              (entries (cache w)))
  /\ (forall k, k <> register_key schema ->
        lookup k (entries (cache (snd (register_schema env schema w))))
        = lookup k (entries (cache w))).
Proof.
  assert (H : only_drops (register_key schema) w
                (snd (register_schema env schema w))).
  { apply (preserves_retry (only_drops (register_key schema) w)).
    - intros d w1 H. exact H.
    - apply register_attempt_drops.
    - apply only_drops_refl. }
  destruct H as (H1 & _).
  split; [|exact H1].
  intros version. apply H1. intros Heq.
  exact (register_key_misses schema version (eq_sym Heq)).
Qed.

(** ** What a call adds to the cache *)

Section Gains.

Variable env : Env.
Variable w : World.

Lemma gained_narrows (key : option string) (w1 : World)
    (c : TTLCache GetSchemaResponse) :
  narrows (cache w1) c -> gained w key w1 -> gained w key (set_cache c w1).
Proof.
  intros (_ & _ & _ & D & _) H k Hk Habs. rewrite cache_set_cache.
  apply D. exact (H k Hk Habs).
Qed.

Lemma gained_contains key k : preserves (gained w key) (cache_contains env k).
Proof.
  intros w1 H. unfold cache_contains.
  pose proof (narrows_contains _ (monotonic env) (cache w1) k) as Hn.
  destruct (contains (monotonic env) (cache w1) k). simpl in *.
  apply gained_narrows; assumption.
Qed.

Lemma gained_getitem key k : preserves (gained w key) (cache_getitem env k).
Proof.
  intros w1 H. unfold cache_getitem.
  pose proof (narrows_getitem _ (monotonic env) (cache w1) k) as Hn.
  destruct (getitem (monotonic env) (cache w1) k). simpl in *.
  apply gained_narrows; assumption.
Qed.

Lemma gained_delitem key k : preserves (gained w key) (cache_delitem env k).
Proof.
  intros w1 H. unfold cache_delitem.
  pose proof (narrows_delitem _ (monotonic env) (cache w1) k) as Hn.
  destruct (delitem (monotonic env) (cache w1) k). simpl in *.
  apply gained_narrows; assumption.
Qed.

Lemma gained_clear key : preserves (gained w key) (clear_cache env).
Proof.
  intros w1 H. unfold clear_cache. simpl.
  apply gained_narrows; [apply narrows_clear|exact H].
Qed.

Lemma gained_sent key (req : Request) (w1 : World) :
  gained w key w1 -> gained w key (sent req w1).
Proof. intros H. exact H. Qed.

Lemma gained_weaken key (w1 : World) : gained w None w1 -> gained w key w1.
Proof. intros H k _ Habs. apply (H k); [discriminate|exact Habs]. Qed.

(** A store adds its key when it succeeds and nothing when it fails. *)
Lemma gained_setitem (key : string) (v : GetSchemaResponse) :
  hoare (gained w None) (cache_setitem env key v)
        (fun r w1 => match r with
                     | Ok _ => gained w (Some key) w1
                     | Raise _ => gained w None w1
                     end).
Proof.
  intros w1 H. unfold cache_setitem.
  destruct (setitem (monotonic env) (cache w1) key v) as [[[]|e] c1] eqn:Es;
    simpl.
  - destruct (setitem_ok_narrow _ _ _ _ _ _ Es) as (_ & _ & _ & D & _).
    intros k Hk Habs. rewrite cache_set_cache. apply D.
    + intros Heq. apply Hk. rewrite Heq. reflexivity.
    + apply (H k); [discriminate|exact Habs].
  - apply gained_narrows; [|exact H].
    exact (narrows_setitem_raise _ _ _ _ _ _ _ Es).
Qed.

Lemma gained_cached_fetch (key url : string) :
  hoare (gained w None) (cached_fetch env key url)
        (fun r w1 => match r with
                     | Ok _ => gained w (Some key) w1
                     | Raise _ => gained w None w1
                     end).
Proof.
  assert (Hw : forall A (m : M A), preserves (gained w None) m ->
            hoare (gained w None) m
                  (fun r w1 => match r with
                               | Ok _ => gained w None w1
                               | Raise _ => gained w None w1
                               end)).
  { intros A m Hm w1 H. specialize (Hm w1 H). destruct (fst (m w1)); exact Hm. }
  unfold cached_fetch.
  apply hoare_bind with (P' := fun _ => gained w None).
  { apply Hw, gained_contains. }
  intros [|].
  { intros w1 H. pose proof (gained_getitem None key w1 H) as Hg.
    destruct (fst (cache_getitem env key w1));
      [apply gained_weaken|]; exact Hg. }
  unfold fetch_and_store.
  apply hoare_bind with (P' := fun _ => gained w None).
  { apply Hw, preserves_send. apply gained_sent. }
  intros response.
  apply hoare_bind with (P' := fun _ => gained w None).
  { apply Hw, preserves_lift. }
  intros _.
  apply hoare_bind with (P' := fun _ => gained w None).
  { apply Hw, preserves_lift. }
  intros data.
  apply hoare_bind with (P' := fun _ => gained w None).
  { apply Hw, preserves_lift. }
  intros result.
  apply hoare_bind with (P' := fun _ => gained w (Some key)).
  { apply gained_setitem. }
  intros _ w1 H. exact H.
Qed.

Lemma gained_attempt (c : Call) :
  hoare (gained w None) (attempt env c)
        (fun r w1 => match r with
                     | Ok _ => gained w (stored_key c) w1
                     | Raise _ => gained w None w1
                     end).
Proof.
  destruct (stores c) eqn:Es.
  - intros w1 H.
    pose proof (preserves_unstored env (gained w None) (gained_sent None)
                  (gained_contains None) (gained_getitem None)
                  (gained_delitem None) (gained_clear None) c Es w1 H) as Hg.
    destruct (fst (attempt env c w1)); [apply gained_weaken|]; exact Hg.
  - destruct c; try discriminate; unfold attempt; apply hoare_fmap.
    + destruct use_cache; [|discriminate].
      rewrite get_schema_cached. apply gained_cached_fetch.
    + rewrite get_schema_by_version_cached. apply gained_cached_fetch.
Qed.

Lemma gained_call (c : Call) :
  hoare (gained w None) (call env c)
        (fun r w1 => match r with
                     | Ok _ => gained w (stored_key c) w1
                     | Raise _ => gained w None w1
                     end).
Proof.
  assert (Hr : hoare (gained w None) (retry (attempt env c))
                 (fun r w1 => match r with
                              | Ok _ => gained w (stored_key c) w1
                              | Raise _ => gained w None w1
                              end)).
  { apply hoare_retry.
    - intros w1 d H. exact H.
    - intros w1 H. pose proof (gained_attempt c w1 H) as Hg.
      destruct (fst (attempt env c w1)); auto. }
  destruct c; exact Hr.
Qed.

End Gains.

(** X5. A key that is in the cache after a call and was not in it before is
    the key of that call, which is [get_schema] with the cache or
    [get_schema_by_version], and the call has returned: no other call adds
    an entry, a read adds none under another key, and a call that raises
    adds none. *)
Theorem cache_gains_only_results (env : Env) (c : Call) (w : World)
    (k : string) :
  lookup k (entries (cache w)) = None ->
  lookup k (entries (cache (snd (call env c w)))) <> None ->
  stored_key c = Some k /\ exists a, fst (call env c w) = Ok a.
Proof.
  intros Habs Hin.
  assert (H0 : gained w None w) by (intros k0 _ H; exact H).
  pose proof (gained_call env w c w H0) as Hg.
  destruct (fst (call env c w)) as [a|e].
  - split; [|exists a; reflexivity].
    destruct (stored_key c) as [key|] eqn:Ek.
    + destruct (string_dec key k) as [->|Hne]; [reflexivity|].
      exfalso. apply Hin. apply Hg; [|exact Habs]. congruence.
    + exfalso. apply Hin. apply Hg; [discriminate|exact Habs].
  - exfalso. apply Hin. apply Hg; [discriminate|exact Habs].
Qed.

Lemma cache_gains_only_results_witness :
  let env := scripted ticking [respond 200 "" (Some event_record)] in
  stored_key (GetSchema "id-1" true) = Some (id_key "id-1")
  /\ exists a, fst (call env (GetSchema "id-1" true) (fresh 3 300 1000)) = Ok a.
Proof.
  apply cache_gains_only_results.
  - reflexivity.
  - discriminate.
Defined.

(** ** Requests and sleeps *)

Create HintDb offline.

Section Offline.

Variable env : Env.

Lemma offline_ret {A : Type} (a : A) : offline (ret a).
Proof. intros w. split; reflexivity. Qed.

Lemma offline_lift {A : Type} (r : Result A) : offline (lift r).
Proof. intros w. split; reflexivity. Qed.

Lemma offline_bind {A B : Type} (m : M A) (k : A -> M B) :
  offline m -> (forall a, offline (k a)) -> offline (bind m k).
Proof.
  intros Hm Hk w. specialize (Hm w). unfold bind.
  destruct (m w) as [[a|e] w1]; simpl in *; [|exact Hm].
  destruct Hm as [H1 H2]. rewrite <- H1, <- H2. apply Hk.
Qed.

Lemma offline_if {A : Type} (b : bool) (m1 m2 : M A) :
  offline m1 -> offline m2 -> offline (if b then m1 else m2).
Proof. destruct b; auto. Qed.

Lemma offline_cache_contains k : offline (cache_contains env k).
Proof.
  intros w. unfold cache_contains.
  destruct (contains (monotonic env) (cache w) k). split; reflexivity.
Qed.

Lemma offline_cache_getitem k : offline (cache_getitem env k).
Proof.
  intros w. unfold cache_getitem.
  destruct (getitem (monotonic env) (cache w) k). split; reflexivity.
Qed.

Lemma offline_cache_delitem k : offline (cache_delitem env k).
Proof.
  intros w. unfold cache_delitem.
  destruct (delitem (monotonic env) (cache w) k). split; reflexivity.
Qed.

Lemma offline_cache_setitem k v : offline (cache_setitem env k v).
Proof.
  intros w. unfold cache_setitem.
  destruct (setitem (monotonic env) (cache w) k v). split; reflexivity.
Qed.

Lemma offline_clear_cache : offline (clear_cache env).
Proof. intros w. split; reflexivity. Qed.

#[local] Hint Resolve offline_ret offline_lift offline_bind offline_if
  offline_cache_contains offline_cache_getitem offline_cache_delitem
  offline_cache_setitem offline_clear_cache : offline.

Lemma once_offline (req : Request) {A : Type} (m : M A) :
  offline m -> sends_once req m.
Proof. intros H w. destruct (H w) as [H1 H2]. auto. Qed.

Lemma once_offline_bind (req : Request) {A B : Type} (m : M A) (k : A -> M B) :
  offline m -> (forall a, sends_once req (k a)) -> sends_once req (bind m k).
Proof.
  intros Hm Hk w. specialize (Hm w). unfold bind.
  destruct (m w) as [[a|e] w1]; simpl in *.
  - destruct Hm as [H1 H2]. rewrite <- H1, <- H2. apply Hk.
  - destruct Hm as [H1 H2]. auto.
Qed.

Lemma once_send (req : Request) {A : Type} (k : Response -> M A) :
  (forall response, offline (k response)) ->
  sends_once req (bind (send env req) k).
Proof.
  intros Hk w. unfold bind, send.
  destruct (transport env (length (requests w)) req) as [| |response]; simpl;
    auto.
  destruct (Hk response (sent req w)) as [H1 H2]. unfold sent in *.
  rewrite H1, H2. simpl. auto.
Qed.

Lemma once_fmap (req : Request) {A B : Type} (f : A -> B) (m : M A) :
  sends_once req m -> sends_once req (fmap f m).
Proof.
  intros Hm w. specialize (Hm w). unfold fmap.
  destruct (m w) as [[a|e] w1]; exact Hm.
Qed.

Lemma offline_fmap {A B : Type} (f : A -> B) (m : M A) :
  offline m -> offline (fmap f m).
Proof.
  intros Hm w. specialize (Hm w). unfold fmap.
  destruct (m w) as [[a|e] w1]; exact Hm.
Qed.

(** An attempt does not sleep, and sends the request of its call or
    nothing. *)
Lemma attempt_sends_once (c : Call) :
  match request_of env c with
  | Some req => sends_once req (attempt env c)
  | None => offline (attempt env c)
  end.
Proof.
  destruct c; simpl; unfold attempt;
    try apply once_fmap; try apply offline_fmap.
  - unfold Body.register_schema. cbv zeta. apply once_send.
    intros response. auto 15 with offline.
  - unfold Body.get_schema. cbv zeta. apply once_offline_bind.
    + destruct use_cache; auto with offline.
    + intros [|].
      * apply once_offline. auto with offline.
      * apply once_send. intros response.
        destruct use_cache; auto 15 with offline.
  - unfold Body.get_schema_by_version. cbv zeta. apply once_offline_bind.
    + auto with offline.
    + intros [|].
      * apply once_offline. auto with offline.
      * apply once_send. intros response. auto 15 with offline.
  - unfold Body.validate_data. cbv zeta. apply once_send.
    intros response. auto 15 with offline.
  - unfold Body.check_compatibility. cbv zeta. apply once_send.
    intros response. auto 15 with offline.
  - unfold Body.search_schemas. apply once_send.
    intros response. auto 15 with offline.
  - unfold Body.list_versions. apply once_send.
    intros response. auto 15 with offline.
  - unfold Body.delete_schema. cbv zeta. apply once_send.
    intros response. auto 15 with offline.
  - unfold Body.health_check. apply once_send.
    intros response. auto 15 with offline.
  - auto with offline.
Qed.

(** An attempt that raises an exception the decorator retries has sent its
    request. *)
Lemma retried_attempt_sent (c : Call) (req : Request) (w w1 : World) (e : Exn) :
  request_of env c = Some req ->
  attempt env c w = (Raise e, w1) -> retry_if_exception_type e = true ->
  sleeps w1 = sleeps w /\ requests w1 = (requests w ++ [req])%list.
Proof.
  intros Hreq Ha He.
  pose proof (attempt_sends_once c) as Hs. rewrite Hreq in Hs.
  specialize (Hs w). rewrite Ha in Hs. simpl in Hs.
  destruct Hs as [Hsl [Hr|Hr]]; [|auto].
  exfalso. pose proof (attempt_polite env c w e w1 Ha) as Hp.
  rewrite He in Hp. unfold met_transient, sent_by in Hp.
  rewrite Hr, nth_error_self in Hp. discriminate.
Qed.

End Offline.

Section SendsExactly.

Variable env : Env.

#[local] Hint Resolve offline_ret offline_lift offline_bind offline_if
  offline_cache_contains offline_cache_getitem offline_cache_delitem
  offline_cache_setitem offline_clear_cache : offline.

Lemma exactly_send (req : Request) {A : Type} (k : Response -> M A) :
  (forall response, offline (k response)) ->
  forall w, requests (snd (bind (send env req) k w))
            = (requests w ++ [req])%list.
Proof.
  intros Hk w. unfold bind, send.
  destruct (transport env (length (requests w)) req) as [| |response]; simpl;
    auto.
  destruct (Hk response (sent req w)) as [H1 _]. unfold sent in *.
  rewrite H1. reflexivity.
Qed.

Lemma snd_fmap {A B : Type} (f : A -> B) (m : M A) (w : World) :
  snd (fmap f m w) = snd (m w).
Proof. unfold fmap. destruct (m w) as [[a|e] w1]; reflexivity. Qed.

(** An attempt of a call that does not read the cache sends its request,
    whatever its outcome. *)
Lemma attempt_sends_exactly (c : Call) (req : Request) (w : World) :
  stored_key c = None -> request_of env c = Some req ->
  requests (snd (attempt env c w)) = (requests w ++ [req])%list.
Proof.
  intros Hk Hreq.
  destruct c as [schema|schema_id [|]| | | | | | | |]; simpl in Hk, Hreq;
    try discriminate; inversion Hreq; subst; clear Hreq;
    unfold attempt; rewrite snd_fmap.
  - unfold Body.register_schema. cbv zeta. apply exactly_send.
    intros response. auto 15 with offline.
  - unfold Body.get_schema. cbv zeta.
    match goal with
    | |- context [bind (ret false) ?k w] =>
        change (bind (ret false) k w) with (k false w)
    end.
    cbv beta iota.
    apply exactly_send. intros response. auto 15 with offline.
  - unfold Body.validate_data. cbv zeta. apply exactly_send.
    intros response. auto 15 with offline.
  - unfold Body.check_compatibility. cbv zeta. apply exactly_send.
    intros response. auto 15 with offline.
  - unfold Body.search_schemas. apply exactly_send.
    intros response. auto 15 with offline.
  - unfold Body.list_versions. apply exactly_send.
    intros response. auto 15 with offline.
  - unfold Body.delete_schema. cbv zeta. apply exactly_send.
    intros response. auto 15 with offline.
  - unfold Body.health_check. apply exactly_send.
    intros response. auto 15 with offline.
Qed.

End SendsExactly.

Lemma last_attempt (env : Env) (c : Call) (req : Request) (w : World) :
  request_of env c = Some req ->
  exists b : nat,
    (b <= 1)%nat
    /\ (stored_key c = None -> b = 1%nat)
    /\ sleeps (snd (attempt env c w)) = sleeps w
    /\ requests (snd (attempt env c w)) = (requests w ++ repeat req b)%list.
Proof.
  intros Hreq. pose proof (attempt_sends_once env c) as Hs.
  rewrite Hreq in Hs. destruct (Hs w) as [Hsl Hr].
  destruct (stored_key c) as [key|] eqn:Hk.
  - destruct Hr as [Hr|Hr].
    + exists 0%nat. simpl. rewrite app_nil_r.
      repeat split; auto; discriminate.
    + exists 1%nat. simpl. repeat split; auto.
  - exists 1%nat. simpl. repeat split; auto.
    exact (attempt_sends_exactly env c req w Hk Hreq).
Qed.

(** The requests and the sleeps of a decorated call: [m] sleeps, the first
    [m] of the delays 1 and 2, and [n] copies of the request of the call,
    one by each attempt that was retried and one by the last attempt unless
    it was answered from the cache. *)
Lemma call_counts (env : Env) (c : Call) (req : Request) (w : World) :
  request_of env c = Some req ->
  exists n m : nat,
    (m <= n)%nat /\ (n <= S m)%nat /\ (m <= 2)%nat
    /\ (stored_key c = None -> n = S m)
    /\ sleeps (snd (call env c w)) = (sleeps w ++ firstn m [1; 2])%list
    /\ requests (snd (call env c w)) = (requests w ++ repeat req n)%list.
Proof.
  intros Hreq.
  assert (He : call env c = retry (attempt env c)) by (destruct c; reflexivity).
  rewrite He, retry_unfold.
  destruct (last_attempt env c req w Hreq) as (b1 & Hb1 & Hk1 & Hs1 & Hr1).
  destruct (attempt env c w) as [[a|e1] w1] eqn:E1; simpl in Hs1, Hr1.
  { exists b1, 0%nat. simpl. rewrite app_nil_r. repeat split; auto; lia. }
  destruct (retry_if_exception_type e1) eqn:R1.
  2:{ exists b1, 0%nat. simpl. rewrite app_nil_r. repeat split; auto; lia. }
  destruct (retried_attempt_sent env c req w w1 e1 Hreq E1 R1) as [_ Q1].
  clear b1 Hb1 Hk1 Hr1.
  destruct (last_attempt env c req (after_sleep 1 w1) Hreq)
    as (b2 & Hb2 & Hk2 & Hs2 & Hr2).
  assert (Hstep2 : forall r w2, attempt env c (after_sleep 1 w1) = (r, w2) ->
            exists n m : nat,
              (m <= n)%nat /\ (n <= S m)%nat /\ (m <= 2)%nat
              /\ (stored_key c = None -> n = S m)
              /\ sleeps w2 = (sleeps w ++ firstn m [1; 2])%list
              /\ requests w2 = (requests w ++ repeat req n)%list).
  { intros r w2 E. rewrite E in Hs2, Hr2. simpl in Hs2, Hr2.
    exists (S b2), 1%nat. simpl. rewrite Hs2, Hr2, Hs1, Q1, <- app_assoc.
    repeat split; auto; lia. }
  destruct (attempt env c (after_sleep 1 w1)) as [[a|e2] w2] eqn:E2.
  { exact (Hstep2 _ _ eq_refl). }
  destruct (retry_if_exception_type e2) eqn:R2.
  2:{ exact (Hstep2 _ _ eq_refl). }
  destruct (retried_attempt_sent env c req _ w2 e2 Hreq E2 R2) as [S2 Q2].
  simpl in S2, Q2.
  destruct (last_attempt env c req (after_sleep 2 w2) Hreq)
    as (b3 & Hb3 & Hk3 & Hs3 & Hr3).
  assert (Hstep3 : exists n m : nat,
            (m <= n)%nat /\ (n <= S m)%nat /\ (m <= 2)%nat
            /\ (stored_key c = None -> n = S m)
            /\ sleeps (snd (attempt env c (after_sleep 2 w2)))
               = (sleeps w ++ firstn m [1; 2])%list
            /\ requests (snd (attempt env c (after_sleep 2 w2)))
               = (requests w ++ repeat req n)%list).
  { exists (S (S b3)), 2%nat. simpl in *.
    rewrite Hs3, Hr3, S2, Q2, Hs1, Q1, <- !app_assoc.
    repeat split; auto; lia. }
  destruct (attempt env c (after_sleep 2 w2)) as [[a|e3] w3]; simpl in Hstep3.
  { exact Hstep3. }
  destruct (retry_if_exception_type e3); exact Hstep3.
Qed.

(** X6. [clear_cache] sends nothing and does not sleep.  Every other call
    sends one and the same request at each attempt and sleeps only between
    attempts: when it ends it has slept [m] times, for the first [m] of the
    delays 1 and 2, and has sent [n] copies of the request of the call, with
    [m <= n <= m + 1] (each attempt that was retried had sent the request).
    A call other than the two cached reads has sent it at its last attempt
    as well, [n = m + 1]: it has sent at least one request and exactly one
    more than it has slept; only a cached read can end having sent
    nothing. *)
Theorem call_requests_and_sleeps (env : Env) (c : Call) (w : World) :
  match request_of env c with
  | None =>
      requests (snd (call env c w)) = requests w
      /\ sleeps (snd (call env c w)) = sleeps w
  | Some req =>
      exists n m : nat,
        (m <= n)%nat /\ (n <= S m)%nat /\ (m <= 2)%nat
        /\ (stored_key c = None -> n = S m)
        /\ sleeps (snd (call env c w)) = (sleeps w ++ firstn m [1; 2])%list
        /\ requests (snd (call env c w)) = (requests w ++ repeat req n)%list
  end.
Proof.
  destruct (request_of env c) as [req|] eqn:Hreq.
  - exact (call_counts env c req w Hreq).
  - destruct c; try discriminate. split; reflexivity.
Qed.

(** ** Exceptions *)

Section Raises.

Variable P : Exn -> Prop.
Hypothesis P_KeyError : forall k, P (KeyError k).
Hypothesis P_ValueError : forall m, P (ValueError m).

Section OfTheCache.

Variable V : Type.
Variable timer : nat -> Z.
Implicit Types (c : TTLCache V) (k : string).

Lemma getitem_at_raising time c k : raising P (fst (getitem_at time c k)).
Proof.
  unfold getitem_at. destruct (lookup k (entries c)) as [[v e]|]; simpl;
    [destruct (time <? e)|]; simpl; auto.
Qed.

Lemma delitem_at_raising time c k : raising P (fst (delitem_at time c k)).
Proof.
  unfold delitem_at. destruct (lookup k (entries c)) as [[v e]|]; simpl;
    [destruct (time <? e)|]; simpl; auto.
Qed.

Lemma pop_at_raising time c k : raising P (fst (pop_at time c k)).
Proof.
  unfold pop_at. destruct (contains_at time c k); [|apply P_KeyError].
  pose proof (getitem_at_raising time c k) as Hg.
  destruct (getitem_at time c k) as [[v|e] c1]; simpl in *; [|exact Hg].
  pose proof (delitem_at_raising time c1 k) as Hd.
  destruct (delitem_at time c1 k) as [[u|e] c2]; simpl in *; [exact I|exact Hd].
Qed.

Lemma popitem_at_raising time c : raising P (fst (popitem_at time c)).
Proof.
  unfold popitem_at.
  destruct (lru (expire_at time c)) as [|k l]; [apply P_KeyError|].
  pose proof (pop_at_raising time (expire_at time c) k) as Hp.
  destruct (pop_at time (expire_at time c) k) as [[v|e] c2]; simpl in *;
    [exact I|exact Hp].
Qed.

Lemma make_room_raising fuel time c : raising P (fst (make_room fuel time c)).
Proof.
  revert c. induction fuel as [|fuel IH]; intros c; simpl; [exact I|].
  destruct (Z.of_nat (length (entries c)) + 1 >? maxsize c); [|exact I].
  pose proof (popitem_at_raising time c) as Hp.
  destruct (popitem_at time c) as [[kv|e] c1]; simpl in *; [apply IH|exact Hp].
Qed.

Lemma getitem_raising c k : raising P (fst (getitem timer c k)).
Proof.
  unfold getitem. destruct (has_link c k); [|apply P_KeyError].
  destruct (tick timer c) as [time c1]. apply getitem_at_raising.
Qed.

Lemma delitem_raising c k : raising P (fst (delitem timer c k)).
Proof.
  unfold delitem. destruct (has_link c k); [|apply P_KeyError].
  destruct (tick timer c) as [time c1]. apply delitem_at_raising.
Qed.

Lemma setitem_raising c k v : raising P (fst (setitem timer c k v)).
Proof.
  unfold setitem. destruct (tick timer c) as [time c0].
  destruct (1 >? maxsize (expire_at time c0)); [apply P_ValueError|].
  destruct (has_link (expire_at time c0) k); [exact I|].
  pose proof (make_room_raising (S (length (entries (expire_at time c0)))) time
                (expire_at time c0)) as Hm.
  destruct (make_room _ time (expire_at time c0)) as [[u|e] c2]; simpl in *;
    [exact I|exact Hm].
Qed.

End OfTheCache.

Variable env : Env.

Lemma raises_ret {A : Type} (a : A) : raises_only P (ret a).
Proof. intros w. exact I. Qed.

Lemma raises_lift {A : Type} (r : Result A) :
  raising P r -> raises_only P (lift r).
Proof. intros H w. exact H. Qed.

Lemma raises_bind {A B : Type} (m : M A) (k : A -> M B) :
  raises_only P m -> (forall a, raises_only P (k a)) ->
  raises_only P (bind m k).
Proof.
  intros Hm Hk w. specialize (Hm w). unfold bind.
  destruct (m w) as [[a|e] w1]; simpl in *; [apply Hk|exact Hm].
Qed.

Lemma raises_if {A : Type} (b : bool) (m1 m2 : M A) :
  raises_only P m1 -> raises_only P m2 -> raises_only P (if b then m1 else m2).
Proof. destruct b; auto. Qed.

Lemma raises_fmap {A B : Type} (f : A -> B) (m : M A) :
  raises_only P m -> raises_only P (fmap f m).
Proof.
  intros Hm w. specialize (Hm w). unfold fmap.
  destruct (m w) as [[a|e] w1]; exact Hm.
Qed.

Lemma raises_cache_contains k : raises_only P (cache_contains env k).
Proof.
  intros w. unfold cache_contains.
  destruct (contains (monotonic env) (cache w) k). exact I.
Qed.

Lemma raises_cache_getitem k : raises_only P (cache_getitem env k).
Proof.
  intros w. unfold cache_getitem.
  pose proof (getitem_raising _ (monotonic env) (cache w) k) as H.
  destruct (getitem (monotonic env) (cache w) k). exact H.
Qed.

Lemma raises_cache_delitem k : raises_only P (cache_delitem env k).
Proof.
  intros w. unfold cache_delitem.
  pose proof (delitem_raising _ (monotonic env) (cache w) k) as H.
  destruct (delitem (monotonic env) (cache w) k). exact H.
Qed.

Lemma raises_cache_setitem k v : raises_only P (cache_setitem env k v).
Proof.
  intros w. unfold cache_setitem.
  pose proof (setitem_raising _ (monotonic env) (cache w) k v) as H.
  destruct (setitem (monotonic env) (cache w) k v). exact H.
Qed.

Lemma raises_clear_cache : raises_only P (clear_cache env).
Proof. intros w. exact I. Qed.

Hypothesis P_Timeout : P TimeoutException.
Hypothesis P_Transport : P TransportError.

Lemma raises_send (req : Request) : raises_only P (send env req).
Proof.
  intros w. unfold send.
  destruct (transport env (length (requests w)) req); simpl; auto.
Qed.

End Raises.

Lemma handler_raising (env : Env) (response : Response) :
  raising attempt_exception (_handle_response_error env response).
Proof.
  unfold _handle_response_error.
  destruct (is_success response); [exact I|]. cbv zeta.
  repeat match goal with
         | |- context [if ?b then _ else _] => destruct b; try exact I
         end.
  - destruct (json response) as [[]|]; try exact I.
    unfold new_IncompatibleSchemaError.
    destruct (py_iter _); exact I.
  - destruct (retry_after response) as [[|a s]|]; try exact I.
    destruct (py_int env (String a s)); exact I.
Qed.

Lemma construct_raising {T : Type} (init : dict -> option T) (data : Json) :
  raising attempt_exception (construct init data).
Proof.
  unfold construct. destruct data; try exact I. destruct (init fields); exact I.
Qed.

Lemma construct_all_raising {T : Type} (init : dict -> option T) (data : Json) :
  raising attempt_exception (construct_all init data).
Proof.
  unfold construct_all. destruct (py_iter data) as [l|]; [|exact I].
  induction l as [|x l IH]; simpl; [exact I|].
  pose proof (construct_raising init x) as Hx.
  destruct (construct init x); [|exact Hx].
  destruct (construct_each init l); [exact I|exact IH].
Qed.

Lemma response_json_raising (response : Response) :
  raising attempt_exception (response_json response).
Proof. unfold response_json. destruct (json response); exact I. Qed.

Lemma attempt_raises (env : Env) (c : Call) :
  raises_only attempt_exception (attempt env c).
Proof.
  assert (K : forall k, attempt_exception (KeyError k)) by (intros; exact I).
  assert (Vl : forall m, attempt_exception (ValueError m)) by (intros; exact I).
  pose proof (raises_cache_contains attempt_exception env) as H1.
  pose proof (raises_cache_getitem attempt_exception K env) as H2.
  pose proof (raises_cache_delitem attempt_exception K env) as H3.
  pose proof (raises_cache_setitem attempt_exception K Vl env) as H4.
  pose proof (raises_clear_cache attempt_exception env) as H5.
  pose proof (raises_send attempt_exception env I I) as H6.
  pose proof (handler_raising env) as H7.
  pose proof (@construct_raising) as H8.
  pose proof (@construct_all_raising) as H9.
  pose proof response_json_raising as H10.
  destruct c; unfold attempt; apply raises_fmap;
    [ unfold Body.register_schema | unfold Body.get_schema
    | unfold Body.get_schema_by_version | unfold Body.validate_data
    | unfold Body.check_compatibility | unfold Body.search_schemas
    | unfold Body.list_versions | unfold Body.delete_schema
    | unfold Body.health_check | ]; cbv zeta;
    repeat match goal with
           | |- raises_only _ (bind _ _) => apply raises_bind; [|intros ?]
           | |- raises_only _ (if _ then _ else _) => apply raises_if
           | |- raises_only _ (lift _) => apply raises_lift
           | |- raises_only _ (ret _) => apply raises_ret
           | |- _ => solve [auto]
           end.
Qed.

(** X7. What a call does not raise: [TimeoutException] and [ServerError],
    which are retried and, when the third attempt fails with one of them,
    wrapped in tenacity's [RetryError]; and [SchemaValidationError], which
    nothing in the client raises.  A [RetryError] wraps a timeout or a
    [ServerError], nothing else. *)
Theorem call_exceptions (env : Env) (c : Call) (w w' : World) (e : Exn) :
  call env c w = (Raise e, w') ->
  e <> TimeoutException
  /\ (forall message, e <> Registry (ServerError message))
  /\ (forall errors, e <> Registry (SchemaValidationError errors))
  /\ (forall last, e = RetryError last ->
        last = TimeoutException
        \/ exists message, last = Registry (ServerError message)).
Proof.
  assert (He : call env c = retry (attempt env c)) by (destruct c; reflexivity).
  rewrite He, retry_unfold.
  assert (Hlast : forall w0 e0 w1,
            attempt env c w0 = (Raise e0, w1) ->
            (retry_if_exception_type e0 = false ->
             e0 <> TimeoutException
             /\ (forall message, e0 <> Registry (ServerError message))
             /\ (forall errors, e0 <> Registry (SchemaValidationError errors))
             /\ (forall last, e0 <> RetryError last))
            /\ (retry_if_exception_type e0 = true ->
                e0 = TimeoutException
                \/ exists message, e0 = Registry (ServerError message))).
  { intros w0 e0 w1 E. pose proof (attempt_raises env c w0) as Hr.
    rewrite E in Hr. simpl in Hr. split.
    - intros Hn. repeat split; intros; intros ->; simpl in *;
        try discriminate; contradiction.
    - intros Hy. destruct e0 as [r| | | | | | | | | |]; try discriminate.
      + destruct r; try discriminate. right. eexists. reflexivity.
      + left. reflexivity. }
  assert (Hfinal : forall w0 e0 w1,
            attempt env c w0 = (Raise e0, w1) ->
            (if retry_if_exception_type e0
             then (Raise (RetryError e0), w1) else (Raise e0, w1))
            = (@Raise Answer e, w') ->
            e <> TimeoutException
            /\ (forall message, e <> Registry (ServerError message))
            /\ (forall errors, e <> Registry (SchemaValidationError errors))
            /\ (forall last, e = RetryError last ->
                  last = TimeoutException
                  \/ exists message, last = Registry (ServerError message))).
  { intros w0 e0 w1 E H. destruct (Hlast _ _ _ E) as [Hn Hy].
    destruct (retry_if_exception_type e0); inversion H; subst.
    - repeat split; try (intros; discriminate).
      intros last Hl. inversion Hl; subst. apply Hy. reflexivity.
    - destruct (Hn eq_refl) as (A & B & C & D).
      repeat split; auto. intros last Hl. exfalso. exact (D _ Hl). }
  assert (Hplain : forall w0 e0 w1,
            attempt env c w0 = (Raise e0, w1) ->
            retry_if_exception_type e0 = false ->
            (@Raise Answer e0, w1) = (Raise e, w') ->
            e <> TimeoutException
            /\ (forall message, e <> Registry (ServerError message))
            /\ (forall errors, e <> Registry (SchemaValidationError errors))
            /\ (forall last, e = RetryError last ->
                  last = TimeoutException
                  \/ exists message, last = Registry (ServerError message))).
  { intros w0 e0 w1 E R H. apply (Hfinal _ _ _ E). rewrite R. exact H. }
  destruct (attempt env c w) as [[a|e1] w1] eqn:E1; [discriminate|].
  destruct (retry_if_exception_type e1) eqn:R1;
    [|exact (Hplain _ _ _ E1 R1)].
  destruct (attempt env c (after_sleep 1 w1)) as [[a|e2] w2] eqn:E2;
    [discriminate|].
  destruct (retry_if_exception_type e2) eqn:R2;
    [|exact (Hplain _ _ _ E2 R2)].
  destruct (attempt env c (after_sleep 2 w2)) as [[a|e3] w3] eqn:E3;
    [discriminate|].
  exact (Hfinal _ _ _ E3).
Qed.

Lemma call_exceptions_witness :
  let e := RetryError (Registry (ServerError (JStr "down"))) in
  e <> TimeoutException
  /\ (forall message, e <> Registry (ServerError message))
  /\ (forall errors, e <> Registry (SchemaValidationError errors))
  /\ (forall last, e = RetryError last ->
        last = TimeoutException
        \/ exists message, last = Registry (ServerError message)).
Proof.
  apply (call_exceptions (scripted ticking (repeat (respond 503 "down" None) 3))
           HealthCheck (fresh 3 300 1000)
           (snd (call (scripted ticking (repeat (respond 503 "down" None) 3))
                      HealthCheck (fresh 3 300 1000)))).
  reflexivity.
Defined.

(** ** Failed writes *)

Section Evictions.

Variable env : Env.
Variable w : World.

(** Up to the eviction an attempt leaves the client as it is, and the
    eviction raises nothing but [KeyError]. *)
Lemma evicting_attempt (c : Call) :
  evicts c = true ->
  hoare (fun w1 => self w1 = self w) (attempt env c)
        (fun r w1 => match r with
                     | Ok _ => True
                     | Raise e => is_KeyError e \/ self w1 = self w
                     end).
Proof.
  set (P := fun w1 : World => self w1 = self w).
  assert (Hsend : forall req,
            hoare P (send env req)
                  (fun r w1 => match r with
                               | Ok _ => P w1
                               | Raise e => is_KeyError e \/ self w1 = self w
                               end)).
  { intros req. apply hoare_send. intros w1 H.
    destruct (transport env (length (requests w1)) req); auto. }
  assert (Hlift : forall A (r : Result A),
            hoare P (lift r)
                  (fun r w1 => match r with
                               | Ok _ => P w1
                               | Raise e => is_KeyError e \/ self w1 = self w
                               end)).
  { intros A r w1 H. simpl. destruct r; auto. }
  assert (Hevict : forall k B (rest : M B),
            (forall w1, match fst (rest w1) with
                        | Ok _ => True
                        | Raise e => is_KeyError e
                        end) ->
            hoare P (hit <- cache_contains env k ;;
                     (if hit then cache_delitem env k else ret tt) ;;; rest)
                  (fun r w1 => match r with
                               | Ok _ => True
                               | Raise e => is_KeyError e \/ self w1 = self w
                               end)).
  { intros k B rest Hrest w1 _. unfold bind, cache_contains.
    destruct (contains (monotonic env) (cache w1) k) as [hit c1]. simpl.
    set (w2 := set_cache c1 w1).
    assert (Hd : match fst ((if hit then cache_delitem env k else ret tt) w2) with
                 | Ok _ => True
                 | Raise e => is_KeyError e
                 end).
    { destruct hit; [|exact I]. unfold cache_delitem.
      pose proof (delitem_raising is_KeyError
                    (fun k0 => ex_intro _ k0 eq_refl) _ (monotonic env)
                    (cache w2) k) as Hr.
      destruct (delitem (monotonic env) (cache w2) k) as [[u|e] c2]; exact Hr. }
    destruct ((if hit then cache_delitem env k else ret tt) w2)
      as [[u|e] w3]; simpl in *.
    - specialize (Hrest w3). destruct (fst (rest w3)); auto.
    - left. exact Hd. }
  destruct c; try discriminate; intros _; unfold attempt; apply hoare_fmap.
  - unfold Body.register_schema. cbv zeta.
    apply hoare_bind with (P' := fun _ => P); [apply Hsend|]. intros response.
    apply hoare_bind with (P' := fun _ => P); [apply Hlift|]. intros _.
    apply hoare_bind with (P' := fun _ => P); [apply Hlift|]. intros data.
    apply hoare_bind with (P' := fun _ => P); [apply Hlift|]. intros result.
    eapply hoare_conseq; [intros w1 H; exact H| |].
    + apply (Hevict _ _ (ret result)). intros w1. exact I.
    + intros [a|e] w1 H; exact H.
  - unfold Body.delete_schema. cbv zeta.
    generalize ("schema:" ++ schema_id). intros key.
    apply hoare_bind with (P' := fun _ => P); [apply Hsend|]. intros response.
    apply hoare_bind with (P' := fun _ => P); [apply Hlift|]. intros _.
    intros w1 H. unfold bind, cache_contains.
    destruct (contains (monotonic env) (cache w1) key) as [hit c1]. simpl.
    destruct hit; [|exact I]. unfold cache_delitem.
    pose proof (delitem_raising is_KeyError
                  (fun k0 => ex_intro _ k0 eq_refl) _ (monotonic env)
                  (cache (set_cache c1 w1)) key) as Hr.
    destruct (delitem (monotonic env) (cache (set_cache c1 w1)) key)
      as [[u|e] c2]; simpl in *; auto.
Qed.

End Evictions.

(** X8. A [register_schema] or a [delete_schema] that raises anything but
    the [KeyError] of the eviction itself leaves the client, and so the
    cache, as it was: nothing is evicted unless the service has accepted
    the call. *)
Theorem failed_write_keeps_cache (env : Env) (c : Call) (w w' : World)
    (e : Exn) :
  evicts c = true ->
  call env c w = (Raise e, w') ->
  (forall k, e <> KeyError k) ->
  self w' = self w.
Proof.
  intros Hc H Hk.
  assert (Hstep : forall w0 e0 w1,
            self w0 = self w -> attempt env c w0 = (Raise e0, w1) ->
            is_KeyError e0 \/ self w1 = self w).
  { intros w0 e0 w1 H0 E.
    pose proof (evicting_attempt env w c Hc w0 H0) as Ha.
    rewrite E in Ha. exact Ha. }
  assert (Hretried : forall w0 e0 w1,
            self w0 = self w -> attempt env c w0 = (Raise e0, w1) ->
            retry_if_exception_type e0 = true -> self w1 = self w).
  { intros w0 e0 w1 H0 E R. destruct (Hstep _ _ _ H0 E) as [[k ->]|Hs];
      [discriminate|exact Hs]. }
  assert (Hfinal : forall w0 e0 w1,
            self w0 = self w -> attempt env c w0 = (Raise e0, w1) ->
            (if retry_if_exception_type e0
             then (Raise (RetryError e0), w1) else (Raise e0, w1))
            = (@Raise Answer e, w') ->
            self w' = self w).
  { intros w0 e0 w1 H0 E Heq.
    destruct (retry_if_exception_type e0) eqn:R; inversion Heq; subst.
    - exact (Hretried _ _ _ H0 E R).
    - destruct (Hstep _ _ _ H0 E) as [[k ->]|Hs]; [|exact Hs].
      exfalso. exact (Hk k eq_refl). }
  assert (He : call env c = retry (attempt env c)) by (destruct c; reflexivity).
  rewrite He, retry_unfold in H.
  destruct (attempt env c w) as [[a|e1] w1] eqn:E1; [discriminate|].
  destruct (retry_if_exception_type e1) eqn:R1.
  2:{ apply (Hfinal _ _ _ eq_refl E1). rewrite R1. exact H. }
  pose proof (Hretried _ _ _ eq_refl E1 R1) as S1.
  destruct (attempt env c (after_sleep 1 w1)) as [[a|e2] w2] eqn:E2;
    [discriminate|].
  destruct (retry_if_exception_type e2) eqn:R2.
  2:{ apply (Hfinal (after_sleep 1 w1) _ _ S1 E2). rewrite R2. exact H. }
  pose proof (Hretried (after_sleep 1 w1) _ _ S1 E2 R2) as S2.
  destruct (attempt env c (after_sleep 2 w2)) as [[a|e3] w3] eqn:E3;
    [discriminate|].
  exact (Hfinal (after_sleep 2 w2) _ _ S2 E3 H).
Qed.

Lemma failed_write_keeps_cache_witness :
  let env := scripted ticking [respond 200 "" (Some event_record);
                               respond 200 "" (Some event_record);
                               respond 404 "gone" None] in
  call env (DeleteSchema "id-1") two_entries
  = (Raise (Registry (SchemaNotFoundError (JStr "gone"))),
     snd (call env (DeleteSchema "id-1") two_entries))
  /\ self (snd (call env (DeleteSchema "id-1") two_entries)) = self two_entries.
Proof.
  intros env.
  assert (H : call env (DeleteSchema "id-1") two_entries
              = (Raise (Registry (SchemaNotFoundError (JStr "gone"))),
                 snd (call env (DeleteSchema "id-1") two_entries)))
    by reflexivity.
  split; [exact H|].
  apply (failed_write_keeps_cache env (DeleteSchema "id-1") two_entries _ _
           eq_refl H).
  discriminate.
Defined.

(** ** Reads answered from the cache *)

(** X9. A read answered from the cache changes neither the entries nor their
    expiry stamps (the time-to-live runs from the store, not from the last
    use); it makes its key the most recently used, and it does not sleep. *)
Theorem cache_hit_keeps_stamps (env : Env) (rd : Read) (w w' : World)
    (r : GetSchemaResponse) :
  read env rd w = (Ok r, w') -> requests w' = requests w ->
  entries (cache w') = entries (cache w)
  /\ lru (cache w')
     = (remove_str (read_key rd) (lru (cache w)) ++ [read_key rd])%list
  /\ sleeps w' = sleeps w.
Proof.
  rewrite read_cached.
  set (key := read_key rd). set (url := read_url rd).
  intros H Hreq.
  destruct (retry_grows_first (cached_fetch env key url)
              (cached_fetch_grows env key url) w) as [rest Hrest].
  rewrite H in Hrest. simpl in Hrest.
  destruct (lookup key (entries (cache w))) as [[v e]|] eqn:El.
  - destruct (Z_lt_le_dec (monotonic env (reads (cache w))) e) as [Ht|Ht].
    + pose proof (cached_fetch_live env key url w v e El Ht) as Hl.
      destruct (monotonic env (S (reads (cache w))) <? e) eqn:Et2.
      * rewrite (retry_first_ok _ _ _ _ Hl) in H. inversion H; subst.
        rewrite cache_set_cache. simpl. auto.
      * rewrite (retry_first_raise _ _ _ _ Hl) in H by reflexivity.
        discriminate.
    + exfalso.
      rewrite (cached_fetch_stale env key url w v e El Ht) in Hrest.
      rewrite fetch_and_store_requests in Hrest. simpl in Hrest.
      rewrite Hreq, <- app_assoc in Hrest. symmetry in Hrest.
      exact (app_cons_neq _ _ _ Hrest).
  - exfalso.
    rewrite (cached_fetch_absent env key url w El) in Hrest.
    rewrite fetch_and_store_requests in Hrest. simpl in Hrest.
    rewrite Hreq, <- app_assoc in Hrest. symmetry in Hrest.
    exact (app_cons_neq _ _ _ Hrest).
Qed.

Lemma cache_hit_keeps_stamps_witness :
  let env := scripted ticking [respond 200 "" (Some event_record)] in
  let w := snd (get_schema env "id-1" true (fresh 3 300 1000)) in
  entries (cache (snd (read env (ById "id-1") w))) = entries (cache w)
  /\ lru (cache (snd (read env (ById "id-1") w)))
     = (remove_str (id_key "id-1") (lru (cache w)) ++ [id_key "id-1"])%list
  /\ sleeps (snd (read env (ById "id-1") w)) = sleeps w.
Proof.
  intros env w.
  apply (cache_hit_keeps_stamps env (ById "id-1") w _ event); reflexivity.
Defined.

(** ** The status of an error *)

(** X10. The [status_code] of a registry error that the handler raises is the
    status of the response, except that every status of 500 or more gives
    500: a [ServerError] reports 500 whatever the service answered. *)
Theorem registry_error_status (env : Env) (response : Response)
    (e : RegistryError) :
  _handle_response_error env response = Raise (Registry e) ->
  Exceptions.status_code e
  = Some (if 500 <=? status_code response then 500 else status_code response).
Proof.
  unfold _handle_response_error.
  destruct (is_success response); [discriminate|]. cbv zeta.
  destruct (status_code response =? 401) eqn:E1.
  { apply Z.eqb_eq in E1. rewrite E1. intros H. inversion H. reflexivity. }
  destruct (status_code response =? 403) eqn:E2.
  { apply Z.eqb_eq in E2. rewrite E2. intros H. inversion H. reflexivity. }
  destruct (status_code response =? 404) eqn:E3.
  { apply Z.eqb_eq in E3. rewrite E3. intros H. inversion H. reflexivity. }
  destruct (status_code response =? 409) eqn:E4.
  { apply Z.eqb_eq in E4. rewrite E4.
    destruct (json response) as [[]|]; try discriminate.
    unfold new_IncompatibleSchemaError. destruct (py_iter _); [|discriminate].
    intros H. inversion H. reflexivity. }
  destruct (status_code response =? 429) eqn:E5.
  { apply Z.eqb_eq in E5. rewrite E5.
    destruct (retry_after response) as [[|a s]|].
    - intros H. inversion H. reflexivity.
    - destruct (py_int env (String a s)); [|discriminate].
      intros H. inversion H. reflexivity.
    - intros H. inversion H. reflexivity. }
  rewrite Z.geb_leb.
  destruct (500 <=? status_code response);
    intros H; inversion H; reflexivity.
Qed.

Lemma registry_error_status_witness :
  Exceptions.status_code (ServerError (JStr "unavailable")) = Some 500.
Proof.
  apply (registry_error_status (scripted ticking [])
           {| status_code := 503; text := "unavailable"; json := None;
              retry_after := None |}).
  reflexivity.
Defined.

(** ** Listings *)

(** The list comprehension over the items of a body returns a list exactly
    when every item gives a model; the list then holds, in the order of the
    items, the model of each. *)
Lemma construct_each_spec {T : Type} (init : dict -> option T)
    (items : list Json) (results : list T) :
  construct_each init items = Ok results
  <-> Forall2 (built_from init) items results.
Proof.
  revert results. induction items as [|x items IH]; intros results; simpl.
  - split.
    + intros H. inversion H. constructor.
    + intros H. inversion H. reflexivity.
  - split.
    + intros H. destruct x; simpl in H; try discriminate.
      destruct (init fields) as [t|] eqn:Ei; [|discriminate].
      destruct (construct_each init items) as [ts|e] eqn:Ec; [|discriminate].
      inversion H; subst. constructor.
      * exists fields. auto.
      * apply IH. reflexivity.
    + intros H. inversion H as [|x0 t l ts (d & -> & Hd) Hrest]; subst.
      simpl. rewrite Hd. apply IH in Hrest. rewrite Hrest. reflexivity.
Qed.

(** An exchange whose answer the handler accepts goes on with the rest of
    the body. *)
Lemma exchange_accepted {A : Type} (env : Env) (req : Request)
    (k : Response -> M A) (w : World) (response : Response) :
  transport env (length (requests w)) req = Responded response ->
  is_success response = true ->
  (response <- send env req ;;
   lift (_handle_response_error env response) ;;; k response) w
  = k response (sent req w).
Proof.
  intros Ht Hs. unfold bind at 1. rewrite (send_responded env req w _ Ht).
  unfold bind, lift. rewrite (handle_success env response Hs). reflexivity.
Qed.

(** X11. On a 2xx answer whose body is a JSON array, [search_schemas] and
    [list_versions] send one request and return a list exactly when every
    item of the array gives a model; the list then holds the models item by
    item, in the order of the body, whatever [limit] was asked: nothing is
    sorted, dropped or cut, and one item that is rejected fails the call. *)
Theorem listings_keep_order (env : Env) (w : World) (response : Response)
    (items : list Json) :
  is_success response = true ->
  json response = Some (JArr items) ->
  (forall query limit offset,
     let req := {| method := GET; url := "/api/v1/search"; json_body := None;
                   params := [("q", JStr query); ("limit", JNum limit);
                              ("offset", JNum offset)] |} in
     transport env (length (requests w)) req = Responded response ->
     snd (search_schemas env query limit offset w) = sent req w
     /\ forall results,
          fst (search_schemas env query limit offset w) = Ok results
          <-> Forall2 (built_from (init_SearchResult env)) items results)
  /\ (forall namespace name,
        let req := get_request ("/api/v1/schemas/" ++ namespace ++ "/" ++ name
                                ++ "/versions") in
        transport env (length (requests w)) req = Responded response ->
        snd (list_versions env namespace name w) = sent req w
        /\ forall versions,
             fst (list_versions env namespace name w) = Ok versions
             <-> Forall2 (built_from (init_SchemaVersion env)) items versions).
Proof.
  intros Hs Hj.
  assert (Hrun : forall T (init : dict -> option T) (req : Request),
            transport env (length (requests w)) req = Responded response ->
            retry (response <- send env req ;;
                   lift (_handle_response_error env response) ;;;
                   results <- lift (response_json response) ;;
                   lift (construct_all init results)) w
            = (construct_each init items, sent req w)).
  { intros T init req Ht.
    assert (Hb : (response <- send env req ;;
                  lift (_handle_response_error env response) ;;;
                  results <- lift (response_json response) ;;
                  lift (construct_all init results)) w
                 = (construct_each init items, sent req w)).
    { rewrite (exchange_accepted env req _ w response Ht Hs).
      unfold bind, lift, response_json. rewrite Hj. reflexivity. }
    destruct (construct_each init items) as [l|e] eqn:Ec.
    - apply retry_first_ok. exact Hb.
    - apply retry_first_raise; [exact Hb|].
      pose proof (construct_all_benign init (JArr items)) as Hbn.
      unfold construct_all in Hbn. simpl in Hbn. rewrite Ec in Hbn. exact Hbn. }
  split.
  - intros query limit offset req Ht.
    unfold search_schemas, Body.search_schemas.
    pose proof (Hrun _ (init_SearchResult env) req Ht) as Hr.
    unfold req in Hr. rewrite Hr. simpl.
    split; [reflexivity|]. intros results. apply construct_each_spec.
  - intros namespace name req Ht.
    unfold list_versions, Body.list_versions.
    pose proof (Hrun _ (init_SchemaVersion env) req Ht) as Hr.
    unfold req, get_request in Hr. rewrite Hr. simpl.
    split; [reflexivity|]. intros versions. apply construct_each_spec.
Qed.

Lemma listings_keep_order_witness :
  let env := scripted ticking [respond 200 "" (Some (JArr two_hits))] in
  fst (search_schemas env "telemetry" 10 0 (fresh 3 300 1000))
  = Ok [{| res_schema_id := "id-2"; res_namespace := "telemetry";
           res_name := "Other"; res_version := "2.0.0";
           res_description := None; res_tags := []; res_score := JNum 7 |};
        {| res_schema_id := "id-1"; res_namespace := "telemetry";
           res_name := "Event"; res_version := "1.0.0";
           res_description := None; res_tags := []; res_score := JNum 9 |}].
Proof.
  intros env.
  destruct (listings_keep_order env (fresh 3 300 1000)
              {| status_code := 200; text := ""; json := Some (JArr two_hits);
                 retry_after := None |} two_hits eq_refl eq_refl) as [H _].
  apply (proj2 (H "telemetry" 10 0 eq_refl)).
  repeat constructor; eexists; split; reflexivity.
Defined.

(** X12. A 2xx answer whose body is not JSON makes [get_schema] (without the
    cache), [validate_data], [check_compatibility], [search_schemas],
    [list_versions] and [health_check] raise [JSONDecodeError] after that
    one request: the error is no registry error and is not retried. *)
Theorem unparsed_success_raises (env : Env) (c : Call) (req : Request)
    (w : World) (response : Response) :
  uses_cache c = false ->
  request_of env c = Some req ->
  transport env (length (requests w)) req = Responded response ->
  is_success response = true ->
  json response = None ->
  call env c w = (Raise JSONDecodeError, sent req w).
Proof.
  intros Hc Hreq Ht Hs Hj.
  assert (He : call env c = retry (attempt env c)) by (destruct c; reflexivity).
  rewrite He. apply retry_first_raise; [|reflexivity].
  assert (Hrun : forall A (k : Json -> M A),
            (response <- send env req ;;
             lift (_handle_response_error env response) ;;;
             data <- lift (response_json response) ;; k data) w
            = (Raise JSONDecodeError, sent req w)).
  { intros A k. rewrite (exchange_accepted env req _ w response Ht Hs).
    unfold bind, lift, response_json. rewrite Hj. reflexivity. }
  assert (Hf : forall A B (f : A -> B) (m : M A) e w1,
            m w = (Raise e, w1) -> fmap f m w = (Raise e, w1)).
  { intros A B f m e w1 Hm. unfold fmap. rewrite Hm. reflexivity. }
  destruct c; try discriminate; simpl in Hreq; inversion Hreq; subst req;
    unfold attempt; apply Hf.
  - destruct use_cache; [discriminate|].
    exact (Hrun _ (fun data =>
                     result <- lift (construct (init_GetSchemaResponse env) data) ;;
                     ret tt ;;; ret result)).
  - exact (Hrun _ (fun data => lift (construct (init_ValidateResponse env) data))).
  - exact (Hrun _ (fun data => lift (construct (init_CompatibilityResult env) data))).
  - exact (Hrun _ (fun data => lift (construct_all (init_SearchResult env) data))).
  - exact (Hrun _ (fun data => lift (construct_all (init_SchemaVersion env) data))).
  - pose proof (exchange_accepted env (get_request "/health")
                  (fun response => lift (response_json response))
                  w response Ht Hs) as Hx.
    unfold Body.health_check. etransitivity; [exact Hx|].
    unfold lift, response_json. rewrite Hj. reflexivity.
Qed.

Lemma unparsed_success_raises_witness :
  let env := scripted ticking [respond 200 "OK" None] in
  call env HealthCheck (fresh 3 300 1000)
  = (Raise JSONDecodeError, sent (get_request "/health") (fresh 3 300 1000)).
Proof.
  intros env.
  apply (unparsed_success_raises env HealthCheck (get_request "/health")
           (fresh 3 300 1000)
           {| status_code := 200; text := "OK"; json := None;
              retry_after := None |}); reflexivity.
Defined.

(** ** Versions and schemas *)

Lemma join_split (s : string) : join "." (split "." s) = s.
Proof.
  induction s as [|c s IH]; [reflexivity|]. rewrite split_cons.
  destruct (Ascii.eqb c ".") eqn:Ec.
  - apply Ascii.eqb_eq in Ec. subst c.
    pose proof (split_nonempty s) as Hn.
    destruct (split "." s) as [|p ps]; [contradiction|].
    change (join "." (EmptyString :: p :: ps))
      with ("" ++ "." ++ join "." (p :: ps)).
    rewrite IH. reflexivity.
  - pose proof (split_nonempty s) as Hn.
    destruct (split "." s) as [|p ps]; [contradiction|].
    destruct ps as [|q qs].
    + simpl in *. rewrite IH. reflexivity.
    + change (join "." (String c p :: q :: qs))
        with (String c (p ++ "." ++ join "." (q :: qs))).
      change (join "." (p :: q :: qs)) with (p ++ "." ++ join "." (q :: qs)) in IH.
      rewrite IH. reflexivity.
Qed.

Lemma split_part (a rest : string) :
  has_char "." a = false -> split "." (a ++ "." ++ rest) = a :: split "." rest.
Proof.
  induction a as [|c a IH]; intros H.
  - reflexivity.
  - simpl in H. apply Bool.orb_false_iff in H. destruct H as [Hc Ha].
    change ((String c a) ++ "." ++ rest) with (String c (a ++ "." ++ rest)).
    rewrite split_cons, Hc, (IH Ha). reflexivity.
Qed.

Lemma split_last (a : string) : has_char "." a = false -> split "." a = [a].
Proof.
  induction a as [|c a IH]; intros H; [reflexivity|].
  simpl in H. apply Bool.orb_false_iff in H. destruct H as [Hc Ha].
  rewrite split_cons, Hc, (IH Ha). reflexivity.
Qed.

Lemma isdigit_has_no_dot (a : string) :
  isdigit a = true -> has_char "." a = false.
Proof.
  intros H. assert (Ha : all_chars isdigit_char a = true).
  { destruct a; [discriminate|exact H]. }
  clear H. induction a as [|c a IH]; [reflexivity|].
  simpl in Ha. apply Bool.andb_true_iff in Ha. destruct Ha as [Hc Ha].
  simpl. rewrite (IH Ha), Bool.orb_false_r.
  destruct (Ascii.eqb c ".") eqn:Ec; [|reflexivity].
  destruct (dot_is_not_decimal c Ec) as [_ Hd]. congruence.
Qed.

(** X13. [validate_version] accepts exactly the texts made of three parts
    joined by dots, each part non-empty and made of digit characters (with
    leading zeros or not), and returns them as they are; on every other text
    it raises [ValueError]. *)
Theorem validate_version_accepts (v : string) :
  (validate_version v = Ok v
   <-> exists major minor patch,
         v = major ++ "." ++ minor ++ "." ++ patch
         /\ isdigit major = true /\ isdigit minor = true
         /\ isdigit patch = true)
  /\ (validate_version v = Ok v
      \/ exists msg, validate_version v = Raise (ValueError msg)).
Proof.
  split.
  - split.
    + intros H. unfold validate_version in H. cbv zeta in H.
      pose proof (join_split v) as Hj.
      destruct (split "." v) as [|a [|b [|c [|d l]]]]; try discriminate.
      simpl in H.
      destruct (isdigit a) eqn:Ea; [|discriminate].
      destruct (isdigit b) eqn:Eb; [|discriminate].
      destruct (isdigit c) eqn:Ec; [|discriminate].
      exists a, b, c. simpl in Hj. auto.
    + intros (a & b & c & -> & Ha & Hb & Hc).
      unfold validate_version. cbv zeta.
      rewrite (split_part a _ (isdigit_has_no_dot a Ha)).
      rewrite (split_part b _ (isdigit_has_no_dot b Hb)).
      rewrite (split_last c (isdigit_has_no_dot c Hc)).
      simpl. rewrite Ha, Hb, Hc. reflexivity.
  - unfold validate_version. cbv zeta.
    destruct (negb (length (split "." v) =? 3)%nat); [right; eauto|].
    destruct (forallb isdigit (split "." v)); [left|right]; eauto.
Qed.

Lemma three_numbers_accepted (v : string) :
  three_numbers v -> validate_version v = Ok v.
Proof.
  intros (a & b & c & -> & Ha & Hb & Hc).
  unfold validate_version. cbv zeta.
  rewrite (split_part a _ (isdigit_has_no_dot a Ha)).
  rewrite (split_part b _ (isdigit_has_no_dot b Hb)).
  rewrite (split_last c (isdigit_has_no_dot c Hc)).
  simpl. rewrite Ha, Hb, Hc. reflexivity.
Qed.

Lemma accepted_three_numbers (v v' : string) :
  validate_version v = Ok v' -> three_numbers v.
Proof.
  intros H. unfold validate_version in H. cbv zeta in H.
  pose proof (join_split v) as Hj.
  destruct (split "." v) as [|a [|b [|c [|d l]]]]; try discriminate.
  simpl in H.
  destruct (isdigit a) eqn:Ea; [|discriminate].
  destruct (isdigit b) eqn:Eb; [|discriminate].
  destruct (isdigit c) eqn:Ec; [|discriminate].
  exists a, b, c. simpl in Hj. auto.
Qed.

(** X14. Registering under a version text goes one of two ways, and the
    shape of the text alone decides which.  A text of three dotted numbers
    is registered as it is: the call is [register_schema] of the schema
    with the fields given, it sends between one and three copies of the
    POST whose body is the dump of that schema, and sleeps between them
    only.  On every other text the call raises pydantic's
    [ValidationError] at once: nothing is sent, nothing is retried, and the
    client is left as it was. *)
Theorem registration_checks_version_first (env : Env)
    (namespace name version : string) (format : SchemaFormat)
    (content : string) (w : World) :
  let schema := {| Models.namespace := namespace; Models.name := name;
                   Models.version := version; Models.format := format;
                   Models.content := content; Models.metadata := None |} in
  let req := {| method := POST; url := "/api/v1/schemas";
                json_body := Some (model_dump env schema); params := [] |} in
  let w' := snd (register_version env namespace name version format content w)
  in
  (three_numbers version
   /\ register_version env namespace name version format content w
      = register_schema env schema w
   /\ exists n : nat,
        (1 <= n <= 3)%nat
        /\ requests w' = (requests w ++ repeat req n)%list
        /\ sleeps w' = (sleeps w ++ firstn (pred n) [1; 2])%list)
  \/ (~ three_numbers version
      /\ register_version env namespace name version format content w
         = (Raise ValidationError, w)).
Proof.
  intros schema req w'.
  destruct (validate_version version) as [v'|e] eqn:Ev.
  - left. pose proof (accepted_version_unchanged _ _ Ev). subst v'.
    assert (Hreg : register_version env namespace name version format content w
                   = register_schema env schema w).
    { unfold register_version, bind, lift, new_Schema. rewrite Ev.
      reflexivity. }
    split; [exact (accepted_three_numbers _ _ Ev)|]. split; [exact Hreg|].
    destruct (call_counts env (RegisterSchema schema) req w eq_refl)
      as (n & m & _ & _ & Hm & Hn & Hs & Hr).
    specialize (Hn eq_refl). subst n.
    assert (Hc : snd (call env (RegisterSchema schema) w)
                 = snd (register_schema env schema w)).
    { unfold call, attempt. rewrite retry_fmap. apply snd_fmap. }
    exists (S m). unfold w'. rewrite Hreg, <- Hc.
    split; [lia|]. split; assumption.
  - right. split.
    + intros H. rewrite (three_numbers_accepted _ H) in Ev. discriminate.
    + exact (rejected_version_sends_nothing env _ _ _ _ _ w e Ev).
Qed.

(** ** The constructor *)

Section Rstrip.

Variable c : ascii.

Lemma rstrip_ends (s : string) : ends_with c (rstrip c s) = false.
Proof.
  induction s as [|a s IH]; [reflexivity|]. simpl.
  destruct (rstrip c s) as [|b r] eqn:Er.
  - destruct (Ascii.eqb a c) eqn:Ea; [reflexivity|]. simpl. exact Ea.
  - simpl in *. exact IH.
Qed.

Lemma rstrip_copies (s : string) :
  exists n, s = rstrip c s ++ copies n c.
Proof.
  induction s as [|a s [n IH]]; [exists 0%nat; reflexivity|]. simpl.
  destruct (rstrip c s) as [|b r] eqn:Er.
  - destruct (Ascii.eqb a c) eqn:Ea.
    + apply Ascii.eqb_eq in Ea. subst a. exists (S n). simpl. rewrite IH at 1.
      reflexivity.
    + exists n. simpl. rewrite IH at 1. reflexivity.
  - exists n. simpl. rewrite IH at 1. reflexivity.
Qed.

Lemma rstrip_fixed (s : string) : ends_with c s = false -> rstrip c s = s.
Proof.
  induction s as [|a s IH]; [reflexivity|]. intros H. simpl.
  destruct s as [|b s'].
  - simpl in *. rewrite H. reflexivity.
  - rewrite IH by exact H. reflexivity.
Qed.

End Rstrip.

(** X15. What [__init__] makes of its arguments: the base URL loses its
    trailing slashes, all of them and nothing else; the Content-Type header
    is always set, the Authorization header exactly when an API key that is
    not the empty string was given; the cache starts empty with the
    capacity and time-to-live asked for. *)
Theorem init_normalises (base_url : string) (api_key : option string)
    (timeout max_retries cache_ttl cache_maxsize : Z) :
  let client := __init__ base_url api_key timeout max_retries cache_ttl
                         cache_maxsize in
  ends_with "/" (Client.base_url client) = false
  /\ (exists n, base_url = Client.base_url client ++ copies n "/")
  /\ (ends_with "/" base_url = false -> Client.base_url client = base_url)
  /\ lookup "Content-Type" (headers client) = Some "application/json"
  /\ lookup "Authorization" (headers client)
     = match api_key with
       | Some key => if String.eqb key "" then None else Some ("Bearer " ++ key)
       | None => None
       end
  /\ Client.api_key client = api_key
  /\ entries (_cache client) = []
  /\ maxsize (_cache client) = cache_maxsize
  /\ ttl (_cache client) = cache_ttl.
Proof.
  cbv zeta. unfold __init__. simpl.
  split; [apply rstrip_ends|]. split; [apply rstrip_copies|].
  split; [apply rstrip_fixed|]. split; [reflexivity|].
  split; [|auto]. destruct api_key as [[|a k]|]; reflexivity.
Qed.

(** ** The keys of the cache *)

Lemma schema_prefix (s rest tail : string) :
  s ++ "." ++ rest = "schema:" ++ tail -> String.prefix "schema:" s = true.
Proof.
  intros H.
  do 7 (destruct s as [|? s]; [discriminate H|];
        simpl in H; injection H as -> H).
  destruct s; reflexivity.
Qed.

(** The calls store under keys that begin with "schema:" only. *)
Lemma run_keys_have_prefix (env : Env) (calls : list Call) (w : World) :
  (forall k, lookup k (entries (cache w)) <> None ->
             exists s, k = "schema:" ++ s) ->
  forall k, lookup k (entries (cache (run env calls w))) <> None ->
            exists s, k = "schema:" ++ s.
Proof.
  apply (cache_invariant_run env
           (fun c => forall k, lookup k (entries c) <> None ->
                               exists s, k = "schema:" ++ s)).
  - intros c c' (_ & _ & _ & D & _) H k Hk. apply H. intros Habs.
    apply Hk, D, Habs.
  - intros c k0 v c' Hs H k Hk.
    destruct (string_dec k ("schema:" ++ k0)) as [->|Hne]; [eauto|].
    apply H. intros Habs. apply Hk.
    destruct (setitem_ok_narrow _ _ _ _ _ _ Hs) as (_ & _ & _ & D & _).
    apply D; assumption.
Qed.

(** X16. Every key in the cache of a client begins with "schema:", whatever
    calls were made. *)
Theorem cache_keys_are_schema_keys (env : Env) (base_url : string)
    (api_key : option string) (timeout max_retries cache_ttl cache_maxsize : Z)
    (calls : list Call) (k : string) :
  lookup k (entries (cache (run env calls
     (started base_url api_key timeout max_retries cache_ttl cache_maxsize))))
  <> None ->
  exists s, k = "schema:" ++ s.
Proof.
  apply run_keys_have_prefix.
  intros k0 Hk. exfalso. apply Hk. reflexivity.
Qed.

Lemma cache_keys_are_schema_keys_witness :
  exists s, id_key "id-1" = "schema:" ++ s.
Proof.
  apply (cache_keys_are_schema_keys
           (scripted ticking [respond 200 "" (Some event_record)])
           "http://localhost:8080/" (Some "key") 30 3 300 1000
           [GetSchema "id-1" true] (id_key "id-1")).
  discriminate.
Defined.

(** X17. In a client whose cache its own calls have filled, the eviction of
    [register_schema] finds nothing to evict: unless the namespace begins
    with "schema:", the call leaves the cache exactly as it was. *)
Theorem register_schema_evicts_nothing (env : Env) (base_url : string)
    (api_key : option string) (timeout max_retries cache_ttl cache_maxsize : Z)
    (calls : list Call) (schema : Schema) :
  String.prefix "schema:" (namespace schema) = false ->
  let w := run env calls
             (started base_url api_key timeout max_retries cache_ttl
                      cache_maxsize) in
  cache (snd (register_schema env schema w)) = cache w.
Proof.
  intros Hp w.
  assert (Habs : lookup (register_key schema) (entries (cache w)) = None).
  { destruct (lookup (register_key schema) (entries (cache w))) eqn:El;
      [|reflexivity].
    exfalso.
    destruct (run_keys_have_prefix env calls
                (started base_url api_key timeout max_retries cache_ttl
                         cache_maxsize)
                (fun k0 Hk => False_ind _ (Hk eq_refl))
                (register_key schema))
      as [s Hs].
    - fold w. rewrite El. discriminate.
    - apply schema_prefix in Hs. congruence. }
  apply (preserves_retry (fun w1 => cache w1 = cache w)).
  - intros d w1 H. exact H.
  - assert (Hs : forall req, preserves (fun w1 => cache w1 = cache w)
                               (send env req)).
    { intros req. apply preserves_send. intros r w1 H. exact H. }
    assert (Hc : preserves (fun w1 => cache w1 = cache w)
                   (cache_contains env (register_key schema))).
    { intros w1 H. unfold cache_contains. rewrite H.
      rewrite (contains_absent _ _ _ _ Habs). simpl. apply cache_set_cache. }
    assert (Hi : forall w1, cache w1 = cache w ->
              fst (cache_contains env (register_key schema) w1) = Ok false).
    { intros w1 H. unfold cache_contains. rewrite H.
      rewrite (contains_absent _ _ _ _ Habs). reflexivity. }
    unfold Body.register_schema. cbv zeta.
    change (namespace schema ++ "." ++ name schema) with (register_key schema).
    apply preserves_bind; [apply Hs|]. intros response.
    apply preserves_bind; [apply preserves_lift|]. intros _.
    apply preserves_bind; [apply preserves_lift|]. intros data.
    apply preserves_bind; [apply preserves_lift|]. intros result.
    intros w1 H. unfold bind.
    pose proof (Hc w1 H) as H1. pose proof (Hi w1 H) as H2.
    destruct (cache_contains env (register_key schema) w1) as [r w2].
    simpl in H1, H2. subst r. exact H1.
  - reflexivity.
Qed.

Lemma register_schema_evicts_nothing_witness :
  let env := scripted ticking [respond 200 "" (Some event_record);
                               respond 201 "" (Some registered)] in
  let w := run env [GetSchemaByVersion "telemetry" "Event" "1.0.0"]
               (started "http://localhost:8080/" (Some "key") 30 3 300 1000) in
  cache (snd (register_schema env event_schema w)) = cache w.
Proof.
  intros env.
  apply (register_schema_evicts_nothing env "http://localhost:8080/"
           (Some "key") 30 3 300 1000
           [GetSchemaByVersion "telemetry" "Event" "1.0.0"] event_schema).
  reflexivity.
Defined.

(** ** The expiry chain *)

Section Chain.

Variable V : Type.
Implicit Types (es : list (string * (V * Z))) (l : list string) (k : string).

Lemma lookup_keys k es : lookup k es <> None <-> In k (map fst es).
Proof.
  induction es as [|[k' x] es IH]; simpl.
  - split; [intros H; contradiction|intros []].
  - destruct (String.eqb k k') eqn:E.
    + apply String.eqb_eq in E. subst. split; [auto|discriminate].
    + apply String.eqb_neq in E. rewrite IH. split; [auto|].
      intros [H|H]; [congruence|exact H].
Qed.

Lemma lookup_In k es x : lookup k es = Some x -> In (k, x) es.
Proof.
  induction es as [|[k' y] es IH]; simpl; [discriminate|].
  destruct (String.eqb k k') eqn:E.
  - apply String.eqb_eq in E. subst. intros H. inversion H. auto.
  - auto.
Qed.

Lemma keys_remove_key k k' es :
  In k' (map fst (remove_key k es)) <-> k' <> k /\ In k' (map fst es).
Proof.
  unfold remove_key. induction es as [|[k0 x] es IH]; simpl.
  - tauto.
  - destruct (String.eqb k k0) eqn:E; simpl.
    + apply String.eqb_eq in E. subst k0. rewrite IH.
      split; [tauto|]. intros [Hn [H|H]]; [congruence|tauto].
    + apply String.eqb_neq in E. rewrite IH.
      split; [intros [H|H]; [subst; split; [congruence|auto]|tauto]|tauto].
Qed.

Lemma In_remove_str k k' l : In k' (remove_str k l) <-> k' <> k /\ In k' l.
Proof.
  unfold remove_str. rewrite filter_In. split.
  - intros [H E]. split; [|exact H]. intros ->.
    rewrite String.eqb_refl in E. discriminate.
  - intros [Hn H]. split; [exact H|].
    destruct (String.eqb k k') eqn:E; [|reflexivity].
    apply String.eqb_eq in E. congruence.
Qed.

Lemma NoDup_remove_key k es :
  NoDup (map fst es) -> NoDup (map fst (remove_key k es)).
Proof.
  induction es as [|[k0 x] es IH]; simpl; intros H; [constructor|].
  inversion H as [|a b Hn Hd]; subst.
  destruct (negb (String.eqb k k0)); simpl; [|auto].
  constructor; [|auto]. intros Hin. apply Hn.
  apply (keys_remove_key k k0 es). exact Hin.
Qed.

Lemma Forall_remove_key (P : string * (V * Z) -> Prop) k es :
  Forall P es -> Forall P (remove_key k es).
Proof.
  intros H. apply Forall_forall. intros x Hx.
  apply filter_In in Hx. destruct Hx as [Hx _].
  exact (proj1 (Forall_forall P es) H x Hx).
Qed.

Lemma sorted_remove_key k es :
  StronglySorted Z.le (map stamp es) ->
  StronglySorted Z.le (map stamp (remove_key k es)).
Proof.
  induction es as [|[k0 x] es IH]; simpl; intros H; [constructor|].
  inversion H as [|a b Hs Hf]; subst.
  destruct (negb (String.eqb k k0)); simpl; [|auto].
  constructor; [auto|].
  apply Forall_forall. intros z Hz. apply in_map_iff in Hz.
  destruct Hz as (kv & <- & Hkv). apply filter_In in Hkv.
  destruct Hkv as [Hkv _].
  apply (proj1 (Forall_forall _ _) Hf). apply in_map. exact Hkv.
Qed.

Lemma linked_unlink k es l :
  linked es l -> linked (remove_key k es) (remove_str k l).
Proof.
  intros (Hn & Ha & Hs). split; [|split].
  - apply NoDup_remove_key, Hn.
  - intros k'. rewrite In_remove_str, keys_remove_key, Ha. tauto.
  - apply sorted_remove_key, Hs.
Qed.

Lemma linked_move_to_end k es l :
  In k (map fst es) -> linked es l -> linked es (remove_str k l ++ [k]).
Proof.
  intros Hk (Hn & Ha & Hs). split; [exact Hn|]. split; [|exact Hs].
  intros k'. rewrite in_app_iff, In_remove_str, Ha. simpl.
  destruct (string_dec k' k) as [->|Hne]; [tauto|].
  split; [intros [H|[H|[]]]; [tauto|congruence]|]. intros H. left. auto.
Qed.

Lemma NoDup_snoc {A : Type} (xs : list A) (x : A) :
  NoDup xs -> ~ In x xs -> NoDup (xs ++ [x]).
Proof.
  induction xs as [|a xs IH]; simpl; intros Hn Hx.
  - constructor; [intros []|constructor].
  - inversion Hn as [|a' b Ha Hd]; subst. constructor.
    + rewrite in_app_iff. simpl. intros [H|[H|[]]]; [auto|subst; auto].
    + apply IH; [exact Hd|]. intros H. apply Hx. auto.
Qed.

Lemma sorted_snoc (zs : list Z) (z : Z) :
  StronglySorted Z.le zs -> Forall (fun y => y <= z) zs ->
  StronglySorted Z.le (zs ++ [z]).
Proof.
  induction zs as [|a zs IH]; simpl; intros Hs Hf.
  - constructor; constructor.
  - inversion Hs as [|a' b Hs' Ha]; subst.
    inversion Hf as [|a' b Haz Hf']; subst.
    constructor; [auto|]. apply Forall_app. split; [exact Ha|].
    constructor; [exact Haz|constructor].
Qed.

Lemma linked_store k (v : V) (t : Z) es l :
  linked es l -> Forall (fun kv => stamp kv <= t) es ->
  linked (remove_key k es ++ [(k, (v, t))]) (remove_str k l ++ [k]).
Proof.
  intros Hl Hb. destruct (linked_unlink k es l Hl) as (Hn & Ha & Hs).
  split; [|split].
  - rewrite map_app. simpl. apply NoDup_snoc; [exact Hn|].
    rewrite keys_remove_key. tauto.
  - intros k'. rewrite map_app, !in_app_iff, Ha. simpl. tauto.
  - rewrite map_app. simpl. apply sorted_snoc; [exact Hs|].
    apply Forall_forall. intros z Hz. apply in_map_iff in Hz.
    destruct Hz as (kv & <- & Hkv).
    exact (proj1 (Forall_forall _ _) (Forall_remove_key _ k es Hb) kv Hkv).
Qed.

(** [expire] leaves a chain whose links are all live. *)
Lemma linked_expire (time : Z) es l :
  linked es l ->
  linked (fst (expire_links time es l)) (snd (expire_links time es l))
  /\ Forall (fun kv => time < stamp kv) (fst (expire_links time es l))
  /\ incl (fst (expire_links time es l)) es.
Proof.
  revert l. induction es as [|[k [v e]] es IH]; intros l Hl; simpl.
  - split; [exact Hl|]. split; [constructor|apply incl_refl].
  - destruct (time <? e) eqn:Et.
    + simpl. split; [exact Hl|]. split; [|apply incl_refl].
      apply Z.ltb_lt in Et. destruct Hl as (_ & _ & Hs).
      simpl in Hs. inversion Hs as [|a b Hs' Hf]; subst.
      constructor; [exact Et|].
      apply Forall_forall. intros kv Hkv.
      assert (Hle : e <= stamp kv).
      { apply (proj1 (Forall_forall _ _) Hf). apply in_map. exact Hkv. }
      unfold stamp in *. simpl in *. lia.
    + assert (Hl' : linked es (remove_str k l)).
      { destruct Hl as (Hn & Ha & Hs). simpl in *.
        inversion Hn as [|a b Hk Hd]; subst.
        inversion Hs as [|a b Hs' Hf]; subst.
        split; [exact Hd|]. split; [|exact Hs'].
        intros k'. rewrite In_remove_str, Ha. split.
        - intros [Hne [H|H]]; [congruence|exact H].
        - intros H. split; [|auto]. intros ->. contradiction. }
      destruct (IH _ Hl') as (H1 & H2 & H3).
      split; [exact H1|]. split; [exact H2|].
      intros x Hx. right. apply H3. exact Hx.
Qed.

Lemma expire_live (time : Z) es l :
  Forall (fun kv => time < stamp kv) es -> expire_links time es l = (es, l).
Proof.
  destruct es as [|[k [v e]] es]; [reflexivity|]. intros H.
  inversion H as [|a b Hlt _]; subst. unfold stamp in Hlt. simpl in *.
  apply Z.ltb_lt in Hlt. rewrite Hlt. reflexivity.
Qed.

Lemma incl_remove_key k es : incl (remove_key k es) es.
Proof. intros x Hx. apply filter_In in Hx. tauto. Qed.

Lemma incl_expire_links (time : Z) es l :
  incl (fst (expire_links time es l)) es.
Proof.
  revert l. induction es as [|[k [v e]] es IH]; intros l; simpl.
  - apply incl_refl.
  - destruct (time <? e); [apply incl_refl|].
    intros x Hx. right. exact (IH _ x Hx).
Qed.

End Chain.

Section Chained.

Variable V : Type.
Variable timer : nat -> Z.
Hypothesis timer_monotone : monotone timer.
Implicit Types (c : TTLCache V) (k : string).

Lemma chained_ticked c : chained timer c -> chained timer (ticked timer c).
Proof.
  intros [Hl Hb]. split; [exact Hl|]. simpl.
  apply Forall_forall. intros kv Hkv.
  pose proof (proj1 (Forall_forall _ _) Hb kv Hkv) as H. simpl in H.
  pose proof (timer_monotone (reads c) (S (reads c)) (Nat.le_succ_diag_r _)).
  lia.
Qed.

Lemma chained_move_to_end k c :
  lookup k (entries c) <> None -> chained timer c ->
  chained timer (move_to_end k c).
Proof.
  intros Hk [Hl Hb]. split; [|exact Hb]. simpl.
  apply linked_move_to_end; [|exact Hl]. apply lookup_keys. exact Hk.
Qed.

Lemma chained_unlink k c : chained timer c -> chained timer (unlink k c).
Proof.
  intros [Hl Hb]. split; simpl.
  - apply linked_unlink, Hl.
  - apply Forall_remove_key, Hb.
Qed.

Lemma chained_expire_at time c :
  chained timer c ->
  chained timer (expire_at time c)
  /\ Forall (fun kv => time < stamp kv) (entries (expire_at time c)).
Proof.
  intros [Hl Hb]. unfold expire_at.
  destruct (linked_expire V time (entries c) (lru c) Hl) as (H1 & H2 & H3).
  destruct (expire_links time (entries c) (lru c)) as [es l]. simpl in *.
  split; [|exact H2]. split; [exact H1|]. simpl.
  apply Forall_forall. intros kv Hkv.
  exact (proj1 (Forall_forall _ _) Hb kv (H3 kv Hkv)).
Qed.

Lemma chained_getitem_at time c k :
  chained timer c -> chained timer (snd (getitem_at time c k)).
Proof.
  intros H. unfold getitem_at.
  destruct (lookup k (entries c)) as [[v e]|] eqn:El; [|exact H].
  assert (Hm : chained timer (move_to_end k c)).
  { apply chained_move_to_end; [rewrite El; discriminate|exact H]. }
  destruct (time <? e); exact Hm.
Qed.

Lemma chained_delitem_at time c k :
  chained timer c -> chained timer (snd (delitem_at time c k)).
Proof.
  intros H. unfold delitem_at.
  destruct (lookup k (entries c)) as [[v e]|] eqn:El; [|exact H].
  destruct (time <? e); apply chained_unlink, H.
Qed.

Lemma chained_pop_at time c k :
  chained timer c -> chained timer (snd (pop_at time c k)).
Proof.
  intros H. unfold pop_at. destruct (contains_at time c k); [|exact H].
  pose proof (chained_getitem_at time c k H) as Hg.
  destruct (getitem_at time c k) as [[v|e] c1]; simpl in *; [|exact Hg].
  pose proof (chained_delitem_at time c1 k Hg) as Hd.
  destruct (delitem_at time c1 k) as [[u|e] c2]; exact Hd.
Qed.

Lemma chained_popitem_at time c :
  chained timer c -> chained timer (snd (popitem_at time c)).
Proof.
  intros H. unfold popitem_at.
  destruct (chained_expire_at time c H) as [He _].
  destruct (lru (expire_at time c)) as [|k l]; [exact He|].
  pose proof (chained_pop_at time (expire_at time c) k He) as Hp.
  destruct (pop_at time (expire_at time c) k) as [[v|e] c2]; exact Hp.
Qed.

Lemma chained_make_room fuel time c :
  chained timer c -> chained timer (snd (make_room fuel time c)).
Proof.
  revert c. induction fuel as [|fuel IH]; intros c H; simpl; [exact H|].
  destruct (Z.of_nat (length (entries c)) + 1 >? maxsize c); [|exact H].
  pose proof (chained_popitem_at time c H) as Hp.
  destruct (popitem_at time c) as [[kv|e] c1]; simpl in *; [|exact Hp].
  apply IH, Hp.
Qed.

Lemma chained_contains c k :
  chained timer c -> chained timer (snd (contains timer c k)).
Proof.
  intros H. unfold contains. destruct (has_link c k); [|exact H].
  apply chained_ticked, H.
Qed.

Lemma chained_getitem c k :
  chained timer c -> chained timer (snd (getitem timer c k)).
Proof.
  intros H. unfold getitem. destruct (has_link c k); [|exact H].
  apply (chained_getitem_at _ (ticked timer c)), chained_ticked, H.
Qed.

Lemma chained_delitem c k :
  chained timer c -> chained timer (snd (delitem timer c k)).
Proof.
  intros H. unfold delitem. destruct (has_link c k); [|exact H].
  apply (chained_delitem_at _ (ticked timer c)), chained_ticked, H.
Qed.

(** The operations that only remove links. *)
Lemma incl_expire_at time c : incl (entries (expire_at time c)) (entries c).
Proof.
  unfold expire_at.
  pose proof (incl_expire_links V time (entries c) (lru c)) as H.
  destruct (expire_links time (entries c) (lru c)). exact H.
Qed.

Lemma incl_getitem_at time c k :
  incl (entries (snd (getitem_at time c k))) (entries c).
Proof.
  unfold getitem_at. destruct (lookup k (entries c)) as [[v e]|];
    [destruct (time <? e)|]; apply incl_refl.
Qed.

Lemma incl_delitem_at time c k :
  incl (entries (snd (delitem_at time c k))) (entries c).
Proof.
  unfold delitem_at. destruct (lookup k (entries c)) as [[v e]|];
    [destruct (time <? e)|]; simpl;
    try apply incl_remove_key; apply incl_refl.
Qed.

Lemma incl_pop_at time c k :
  incl (entries (snd (pop_at time c k))) (entries c).
Proof.
  unfold pop_at. destruct (contains_at time c k); [|apply incl_refl].
  pose proof (incl_getitem_at time c k) as Hg.
  destruct (getitem_at time c k) as [[v|e] c1]; simpl in *; [|exact Hg].
  pose proof (incl_delitem_at time c1 k) as Hd.
  destruct (delitem_at time c1 k) as [[u|e] c2]; simpl in *;
    exact (incl_tran Hd Hg).
Qed.

Lemma incl_popitem_at time c :
  incl (entries (snd (popitem_at time c))) (entries c).
Proof.
  unfold popitem_at. pose proof (incl_expire_at time c) as He.
  destruct (lru (expire_at time c)) as [|k l]; [exact He|].
  pose proof (incl_pop_at time (expire_at time c) k) as Hp.
  destruct (pop_at time (expire_at time c) k) as [[v|e] c2]; simpl in *;
    exact (incl_tran Hp He).
Qed.

Lemma incl_make_room fuel time c :
  incl (entries (snd (make_room fuel time c))) (entries c).
Proof.
  revert c. induction fuel as [|fuel IH]; intros c; simpl; [apply incl_refl|].
  destruct (Z.of_nat (length (entries c)) + 1 >? maxsize c); [|apply incl_refl].
  pose proof (incl_popitem_at time c) as Hp.
  destruct (popitem_at time c) as [[kv|e] c1]; simpl in *; [|exact Hp].
  exact (incl_tran (IH c1) Hp).
Qed.

Lemma chained_setitem c k v :
  chained timer c -> chained timer (snd (setitem timer c k v)).
Proof.
  intros H. unfold setitem, tick. cbv beta iota.
  set (c0 := {| maxsize := maxsize c; ttl := ttl c; entries := entries c;
                lru := lru c; reads := S (reads c) |}).
  set (time := timer (reads c)).
  assert (H0 : chained timer c0) by exact (chained_ticked c H).
  assert (Hb0 : Forall (fun kv => stamp kv <= time + ttl c0) (entries c0))
    by exact (proj2 H).
  destruct (chained_expire_at time c0 H0) as [H1 _].
  pose proof (incl_expire_at time c0) as Hi1.
  assert (Hstore : forall c2, shrinks (expire_at time c0) c2 ->
            chained timer c2 -> incl (entries c2) (entries c0) ->
            chained timer
              (with_links c2
                 (remove_key k (entries c2) ++ [(k, (v, time + ttl c2))])
                 (remove_str k (lru c2) ++ [k]))).
  { intros c2 (A2 & B2 & C2 & _) [Hl2 Hb2] Hincl.
    pose proof (shrinks_expire_at V time c0) as (A1 & B1 & C1 & _).
    assert (Ht : ttl c2 = ttl c0) by congruence.
    assert (Hle : Forall (fun kv => stamp kv <= time + ttl c2) (entries c2)).
    { apply Forall_forall. intros kv Hkv. rewrite Ht.
      exact (proj1 (Forall_forall _ _) Hb0 kv (Hincl kv Hkv)). }
    split; simpl.
    - apply linked_store; assumption.
    - assert (Hr : reads c2 = S (reads c)) by (rewrite C2, C1; reflexivity).
      rewrite Hr.
      pose proof (timer_monotone (reads c) (S (reads c))
                    (Nat.le_succ_diag_r _)) as Hmono.
      apply Forall_app. split.
      + apply Forall_remove_key. apply Forall_forall. intros kv Hkv.
        pose proof (proj1 (Forall_forall _ _) Hle kv Hkv) as Hs. simpl in Hs.
        unfold time in Hs. lia.
      + constructor; [|constructor]. unfold stamp. simpl. unfold time. lia. }
  destruct (1 >? maxsize (expire_at time c0)); [exact H1|].
  destruct (has_link (expire_at time c0) k).
  - apply Hstore; [apply shrinks_refl|exact H1|exact Hi1].
  - pose proof (shrinks_make_room V (S (length (entries (expire_at time c0))))
                  time (expire_at time c0)) as Hs.
    pose proof (chained_make_room (S (length (entries (expire_at time c0))))
                  time (expire_at time c0) H1) as Hc.
    pose proof (incl_make_room (S (length (entries (expire_at time c0))))
                  time (expire_at time c0)) as Hi.
    destruct (make_room _ time (expire_at time c0)) as [[u|e] c2];
      cbv beta iota; simpl in *; [|exact Hc].
    apply Hstore; [exact Hs|exact Hc|exact (incl_tran Hi Hi1)].
Qed.

Lemma chained_clear_loop fuel time c :
  chained timer c -> chained timer (clear_loop fuel time c).
Proof.
  revert c. induction fuel as [|fuel IH]; intros c H; simpl; [exact H|].
  pose proof (chained_popitem_at time c H) as Hp.
  destruct (popitem_at time c) as [[kv|e] c1]; simpl in *; [|exact Hp].
  apply IH, Hp.
Qed.

Lemma chained_clear c : chained timer c -> chained timer (clear timer c).
Proof.
  intros H. unfold clear, tick. cbv beta iota.
  apply chained_clear_loop.
  apply chained_expire_at. exact (chained_ticked c H).
Qed.

(** Among live links the loop of [clear] pops until none is left. *)
Lemma clear_loop_empties fuel time c :
  linked (entries c) (lru c) ->
  Forall (fun kv => time < stamp kv) (entries c) ->
  (length (entries c) < fuel)%nat ->
  entries (clear_loop fuel time c) = [].
Proof.
  revert c. induction fuel as [|fuel IH]; intros c Hl Hlive Hlen; [lia|].
  simpl. unfold popitem_at, expire_at.
  rewrite (expire_live V time (entries c) (lru c) Hlive).
  cbn [lru with_links].
  destruct (lru c) as [|k l'] eqn:El.
  - simpl. destruct Hl as (_ & Ha & _).
    destruct (entries c) as [|[k0 x] es]; [reflexivity|].
    exfalso. apply (proj2 (Ha k0)). simpl. auto.
  - assert (Hin : In k (map fst (entries c))).
    { apply (proj1 (proj2 Hl)). simpl. auto. }
    apply lookup_keys in Hin.
    destruct (lookup k (entries c)) as [[v e]|] eqn:Elk; [|contradiction].
    assert (Hlt : (time <? e) = true).
    { apply Z.ltb_lt.
      exact (proj1 (Forall_forall _ _) Hlive _ (lookup_In V _ _ _ Elk)). }
    unfold pop_at, contains_at, getitem_at. cbn [entries with_links].
    rewrite Elk, Hlt. unfold delitem_at, move_to_end.
    cbn [entries with_links lru maxsize ttl reads].
    rewrite Elk, Hlt. cbv beta iota.
    apply IH.
    + cbn [unlink entries lru with_links].
      apply linked_unlink. apply linked_move_to_end; [|].
      * apply lookup_keys. rewrite Elk. discriminate.
      * exact Hl.
    + cbn [unlink entries with_links]. apply Forall_remove_key, Hlive.
    + cbn [unlink entries with_links].
      pose proof (remove_key_shorter V k (entries c) _ Elk). lia.
Qed.

(** [clear] leaves no entry. *)
Lemma clear_empties c : chained timer c -> entries (clear timer c) = [].
Proof.
  intros H. unfold clear, tick. cbv beta iota.
  set (c0 := {| maxsize := maxsize c; ttl := ttl c; entries := entries c;
                lru := lru c; reads := S (reads c) |}).
  destruct (chained_expire_at (timer (reads c)) c0 (chained_ticked c H))
    as [[Hl _] Hlive].
  apply clear_loop_empties; [exact Hl|exact Hlive|].
  pose proof (shrinks_expire_at V (timer (reads c)) c0) as (_ & _ & _ & _ & E).
  simpl in *. lia.
Qed.

End Chained.

(** The cache of a client with a clock that does not run backwards is
    chained, whatever calls were made. *)
Lemma run_chained (env : Env) (calls : list Call) (w : World) :
  monotone (monotonic env) ->
  chained (monotonic env) (cache w) ->
  chained (monotonic env) (cache (run env calls w)).
Proof.
  intros Hm.
  apply (preserves_run env (fun w => chained (monotonic env) (cache w))).
  - intros req w1 H. exact H.
  - intros k w1 H. unfold cache_contains.
    pose proof (chained_contains _ _ Hm (cache w1) k H) as Hc.
    destruct (contains (monotonic env) (cache w1) k). simpl.
    rewrite cache_set_cache. exact Hc.
  - intros k w1 H. unfold cache_getitem.
    pose proof (chained_getitem _ _ Hm (cache w1) k H) as Hc.
    destruct (getitem (monotonic env) (cache w1) k). simpl.
    rewrite cache_set_cache. exact Hc.
  - intros k w1 H. unfold cache_delitem.
    pose proof (chained_delitem _ _ Hm (cache w1) k H) as Hc.
    destruct (delitem (monotonic env) (cache w1) k). simpl.
    rewrite cache_set_cache. exact Hc.
  - intros w1 H. unfold clear_cache. simpl. rewrite cache_set_cache.
    exact (chained_clear _ _ Hm (cache w1) H).
  - intros k v w1 H. unfold cache_setitem.
    pose proof (chained_setitem _ _ Hm (cache w1) ("schema:" ++ k) v H) as Hc.
    destruct (setitem (monotonic env) (cache w1) ("schema:" ++ k) v). simpl.
    rewrite cache_set_cache. exact Hc.
  - intros d w1 H. exact H.
Qed.

(** X18. With a clock that does not run backwards, [clear_cache] leaves the
    cache of a client empty, whatever calls came before, and any read that
    follows it sends its request to the service. *)
Theorem clear_cache_empties (env : Env) (base_url : string)
    (api_key : option string) (timeout max_retries cache_ttl cache_maxsize : Z)
    (calls : list Call) :
  monotone (monotonic env) ->
  let w := snd (clear_cache env
                  (run env calls
                     (started base_url api_key timeout max_retries cache_ttl
                              cache_maxsize))) in
  entries (cache w) = []
  /\ forall rd, exists rest,
       requests (snd (read env rd w))
       = (requests w ++ get_request (read_url rd) :: rest)%list.
Proof.
  intros Hm w.
  assert (He : entries (cache w) = []).
  { unfold w, clear_cache. simpl. rewrite cache_set_cache.
    apply (clear_empties _ _ Hm). apply run_chained; [exact Hm|].
    split; [|constructor]. split; [constructor|]. split; [tauto|constructor]. }
  split; [exact He|]. intros rd. rewrite read_cached.
  destruct (retry_grows_first (cached_fetch env (read_key rd) (read_url rd))
              (cached_fetch_grows env (read_key rd) (read_url rd)) w)
    as [rest Hrest].
  assert (Habs : lookup (read_key rd) (entries (cache w)) = None)
    by (rewrite He; reflexivity).
  rewrite (cached_fetch_absent env _ _ w Habs) in Hrest.
  rewrite fetch_and_store_requests in Hrest. simpl in Hrest.
  exists rest. rewrite Hrest, <- app_assoc. reflexivity.
Qed.

Lemma clear_cache_empties_witness :
  let env := scripted ticking [respond 200 "" (Some event_record);
                               respond 200 "" (Some event_record)] in
  let w := snd (clear_cache env
                  (run env [GetSchema "id-1" true]
                     (started "http://localhost:8080/" (Some "key") 30 3 300
                              1000))) in
  entries (cache w) = []
  /\ forall rd, exists rest,
       requests (snd (read env rd w))
       = (requests w ++ get_request (read_url rd) :: rest)%list.
Proof.
  intros env.
  apply (clear_cache_empties env "http://localhost:8080/" (Some "key") 30 3
           300 1000 [GetSchema "id-1" true]).
  intros i j Hij. simpl. unfold ticking. lia.
Defined.

(** ** Edges of the configuration and of the keys *)

(** A read that returns leaves its record in the cache, under its key. *)
Lemma read_leaves_entry (env : Env) (rd : Read) (w w1 : World)
    (r : GetSchemaResponse) :
  read env rd w = (Ok r, w1) ->
  exists e, lookup (read_key rd) (entries (cache w1)) = Some (r, e).
Proof.
  rewrite read_cached. intros H.
  apply (retry_ok_inv _ (fun _ => True)) in H; auto.
  destruct H as (w0 & _ & Hfn).
  destruct (lookup (read_key rd) (entries (cache w0))) as [[v e0]|] eqn:El.
  - destruct (Z_lt_le_dec (monotonic env (reads (cache w0))) e0) as [Ht|Ht].
    + rewrite (cached_fetch_live env _ _ w0 v e0 El Ht) in Hfn.
      destruct (monotonic env (S (reads (cache w0))) <? e0); [|discriminate].
      inversion Hfn; subst. exists e0. exact El.
    + rewrite (cached_fetch_stale env _ _ w0 v e0 El Ht) in Hfn.
      destruct (fetch_and_store_ok env _ _ _ _ _ Hfn) as (H1 & _).
      eexists. exact H1.
  - rewrite (cached_fetch_absent env _ _ w0 El) in Hfn.
    destruct (fetch_and_store_ok env _ _ _ _ _ Hfn) as (H1 & _).
    eexists. exact H1.
Qed.

Lemma read_is_call (env : Env) (rd : Read) (w : World) :
  snd (read env rd w) = snd (call env (call_of rd) w).
Proof.
  destruct rd as [schema_id|ns n v]; simpl.
  - unfold get_schema. rewrite retry_fmap. unfold fmap.
    destruct (retry (Body.get_schema env schema_id true) w) as [[a|e] w1];
      reflexivity.
  - unfold get_schema_by_version. rewrite retry_fmap. unfold fmap.
    destruct (retry (Body.get_schema_by_version env ns n v) w)
      as [[a|e] w1]; reflexivity.
Qed.

(** X19. In a client built with a [cache_maxsize] of zero or less the cache
    stays empty and no [get_schema] (with the cache) and no
    [get_schema_by_version] ever returns: an answer that is fetched cannot
    be stored, and the [ValueError] of the store is what the caller gets. *)
Theorem zero_capacity_fails_reads (env : Env) (base_url : string)
    (api_key : option string) (timeout max_retries cache_ttl cache_maxsize : Z)
    (calls : list Call) (rd : Read) :
  cache_maxsize <= 0 ->
  let w := run env calls
             (started base_url api_key timeout max_retries cache_ttl
                      cache_maxsize) in
  entries (cache w) = []
  /\ exists e, fst (read env rd w) = Raise e.
Proof.
  intros Hz w.
  set (I := fun c : TTLCache GetSchemaResponse =>
              maxsize c <= 0 /\ entries c = []).
  assert (In1 : forall c c', narrows c c' -> I c -> I c').
  { intros c c' (A & _ & _ & _ & E) [Hm He]. split; [rewrite A; exact Hm|].
    rewrite He in E. destruct (entries c'); [reflexivity|simpl in E; lia]. }
  assert (In2 : forall c k v c',
            setitem (monotonic env) c ("schema:" ++ k) v = (Ok tt, c') ->
            I c -> I c').
  { intros c k v c' Hs [Hm He]. exfalso.
    destruct (setitem_ok_narrow _ _ _ _ _ _ Hs) as (A & _ & _ & _ & E).
    destruct (setitem_ok _ _ _ _ _ _ Hs) as (Hl & _).
    rewrite He in E. simpl in E.
    destruct (entries c'); [discriminate|]. simpl in E. lia. }
  assert (Hw : I (cache w)).
  { apply (cache_invariant_run env I In1 In2). split; [exact Hz|reflexivity]. }
  split; [exact (proj2 Hw)|].
  destruct (read env rd w) as [[r|e] w1] eqn:Er; [|exists e; reflexivity].
  exfalso.
  destruct (read_leaves_entry env rd w w1 r Er) as [e Hl].
  pose proof (cache_invariant_call env I In1 In2 (call_of rd) w Hw) as H1.
  rewrite <- read_is_call, Er in H1. simpl in H1. destruct H1 as [_ He].
  rewrite He in Hl. discriminate.
Qed.

Lemma zero_capacity_fails_reads_witness :
  let env := scripted ticking [respond 200 "" (Some event_record)] in
  let w := run env [] (started "http://localhost:8080/" (Some "key") 30 3 300 0) in
  entries (cache w) = []
  /\ exists e, fst (read env (ById "id-1") w) = Raise e.
Proof.
  intros env.
  apply (zero_capacity_fails_reads env "http://localhost:8080/" (Some "key")
           30 3 300 0 [] (ById "id-1")).
  lia.
Defined.

(** X20. In a client built with a [cache_ttl] of zero or less, and a clock
    that does not run backwards, nothing is served from the cache: every
    [get_schema] and [get_schema_by_version] sends its request. *)
Theorem zero_ttl_disables_cache (env : Env) (base_url : string)
    (api_key : option string) (timeout max_retries cache_ttl cache_maxsize : Z)
    (calls : list Call) (rd : Read) :
  cache_ttl <= 0 ->
  monotone (monotonic env) ->
  let w := run env calls
             (started base_url api_key timeout max_retries cache_ttl
                      cache_maxsize) in
  exists rest,
    requests (snd (read env rd w))
    = (requests w ++ get_request (read_url rd) :: rest)%list.
Proof.
  intros Hz Hm w.
  assert (Ht : ttl (cache w) <= 0).
  { apply (cache_invariant_run env (fun c => ttl c <= 0)).
    - intros c c' (_ & B & _) H. rewrite B. exact H.
    - intros c k v c' Hs H.
      destruct (setitem_ok_narrow _ _ _ _ _ _ Hs) as (_ & B & _).
      rewrite B. exact H.
    - exact Hz. }
  assert (Hc : chained (monotonic env) (cache w)).
  { apply run_chained; [exact Hm|].
    split; [|constructor]. split; [constructor|]. split; [tauto|constructor]. }
  rewrite read_cached.
  destruct (retry_grows_first (cached_fetch env (read_key rd) (read_url rd))
              (cached_fetch_grows env (read_key rd) (read_url rd)) w)
    as [rest Hrest].
  exists rest.
  destruct (lookup (read_key rd) (entries (cache w))) as [[v e]|] eqn:El.
  - assert (Hs : e <= monotonic env (reads (cache w))).
    { destruct Hc as [_ Hb].
      pose proof (proj1 (Forall_forall _ _) Hb _ (lookup_In _ _ _ _ El)) as H.
      unfold stamp in H. simpl in H. lia. }
    rewrite (cached_fetch_stale env _ _ w v e El Hs) in Hrest.
    rewrite fetch_and_store_requests in Hrest. simpl in Hrest.
    rewrite Hrest, <- app_assoc. reflexivity.
  - rewrite (cached_fetch_absent env _ _ w El) in Hrest.
    rewrite fetch_and_store_requests in Hrest. simpl in Hrest.
    rewrite Hrest, <- app_assoc. reflexivity.
Qed.

Lemma zero_ttl_disables_cache_witness :
  let env := scripted ticking [respond 200 "" (Some event_record);
                               respond 200 "" (Some event_record)] in
  let w := run env [GetSchema "id-1" true]
               (started "http://localhost:8080/" (Some "key") 30 3 0 1000) in
  exists rest,
    requests (snd (read env (ById "id-1") w))
    = (requests w ++ get_request (read_url (ById "id-1")) :: rest)%list.
Proof.
  intros env.
  apply (zero_ttl_disables_cache env "http://localhost:8080/" (Some "key")
           30 3 0 1000 [GetSchema "id-1" true] (ById "id-1")).
  - lia.
  - intros i j Hij. simpl. unfold ticking. lia.
Defined.

(** What a [delete_schema] that returns has done to the entry of its id. *)
Lemma delete_schema_drops (env : Env) (id : string) (w w' : World) :
  delete_schema env id w = (Ok tt, w') ->
  dropped_or_expired env (id_key id) w'.
Proof.
  intros H.
  assert (Hh : hoare (only_drops (id_key id) w) (delete_schema env id)
                 (fun r w1 => only_drops (id_key id) w w1 /\
                    (r = Ok tt -> dropped_or_expired env (id_key id) w1))).
  { apply hoare_retry.
    - intros w0 d Hp. exact Hp.
    - eapply hoare_conseq; [|apply delete_attempt_spec|].
      + intros w0 Hp. exact Hp.
      + intros [u|e] w1 [Hd Hok]; simpl.
        * split; assumption.
        * split; [exact Hd|].
          split; (split; [exact Hd|discriminate]). }
  specialize (Hh w (only_drops_refl _ w)). rewrite H in Hh. simpl in Hh.
  apply Hh. reflexivity.
Qed.

(** X21. After a [delete_schema(id)] that returned, with a clock that does not
    run backwards, the next [get_schema(id)] is not answered from the
    cache: it sends its request to the service. *)
Theorem deleted_schema_is_fetched_again (env : Env) (id : string)
    (w w' : World) :
  monotone (monotonic env) ->
  delete_schema env id w = (Ok tt, w') ->
  exists rest,
    requests (snd (get_schema env id true w'))
    = (requests w' ++ get_request (id_url id) :: rest)%list.
Proof.
  intros Hm H.
  change (get_schema env id true) with (read env (ById id)).
  rewrite read_cached. simpl read_key. simpl read_url.
  destruct (retry_grows_first (cached_fetch env (id_key id) (id_url id))
              (cached_fetch_grows env (id_key id) (id_url id)) w')
    as [rest Hrest].
  exists rest.
  destruct (delete_schema_drops env id w w' H) as [El|(v & e & El & He)].
  - rewrite (cached_fetch_absent env _ _ w' El) in Hrest.
    rewrite fetch_and_store_requests in Hrest. simpl in Hrest.
    rewrite Hrest, <- app_assoc. reflexivity.
  - assert (Hs : e <= monotonic env (reads (cache w'))).
    { pose proof (Hm (pred (reads (cache w'))) (reads (cache w'))
                    (Nat.le_pred_l _)). lia. }
    rewrite (cached_fetch_stale env _ _ w' v e El Hs) in Hrest.
    rewrite fetch_and_store_requests in Hrest. simpl in Hrest.
    rewrite Hrest, <- app_assoc. reflexivity.
Qed.

Lemma deleted_schema_is_fetched_again_witness :
  let env := scripted ticking [respond 200 "" (Some event_record);
                               respond 200 "" (Some event_record);
                               respond 204 "" None;
                               respond 200 "" (Some event_record)] in
  let w' := snd (delete_schema env "id-1" two_entries) in
  exists rest,
    requests (snd (get_schema env "id-1" true w'))
    = (requests w' ++ get_request (id_url "id-1") :: rest)%list.
Proof.
  intros env w'.
  apply (deleted_schema_is_fetched_again env "id-1" two_entries w').
  - intros i j Hij. simpl. unfold ticking. lia.
  - reflexivity.
Defined.

(** X22. The two reads share one space of keys: the id
    "{namespace}.{name}:{version}" has the cache key of that version, so
    after a [get_schema_by_version] that returned [r], a [get_schema] for
    that id, while the entry has not expired, returns [r] without a
    request. *)
Theorem reads_share_keys (env : Env) (namespace name version : string)
    (w w1 : World) (r : GetSchemaResponse) :
  get_schema_by_version env namespace name version w = (Ok r, w1) ->
  let id := namespace ++ "." ++ name ++ ":" ++ version in
  id_key id = version_key namespace name version
  /\ exists e,
       lookup (id_key id) (entries (cache w1)) = Some (r, e)
       /\ (monotonic env (S (reads (cache w1))) < e ->
           monotonic env (reads (cache w1)) < e ->
           exists w2,
             get_schema env id true w1 = (Ok r, w2)
             /\ requests w2 = requests w1).
Proof.
  intros H id. split; [reflexivity|].
  destruct (read_leaves_entry env (ByVersion namespace name version) w w1 r H)
    as [e Hl].
  exists e. split; [exact Hl|]. intros Ht1 Ht0.
  pose proof (cached_fetch_live env (id_key id) (id_url id) w1 r e Hl Ht0) as Hc.
  apply Z.ltb_lt in Ht1. rewrite Ht1 in Hc.
  eexists. split.
  - unfold get_schema. rewrite get_schema_cached.
    apply retry_first_ok. exact Hc.
  - reflexivity.
Qed.

Lemma reads_share_keys_witness :
  let env := scripted ticking [respond 200 "" (Some event_record)] in
  let w1 := snd (get_schema_by_version env "telemetry" "Event" "1.0.0"
                   (fresh 3 300 1000)) in
  exists w2,
    get_schema env "telemetry.Event:1.0.0" true w1 = (Ok event, w2)
    /\ requests w2 = requests w1.
Proof.
  intros env w1.
  destruct (reads_share_keys env "telemetry" "Event" "1.0.0"
              (fresh 3 300 1000) w1 event eq_refl) as (_ & e & Hl & Hhit).
  assert (He : e = 300) by (vm_compute in Hl; congruence). subst e.
  apply Hhit; reflexivity.
Defined.
